(** * Tetris: the game-state engine of [src/components/Tetris.jsx]

    A shallow embedding of the React component's state and of the
    callbacks that mutate it, followed by the properties of the
    specification that concern them.

    Conventions of the embedding.
    - JavaScript values that the engine stores in arrays (the numbers [0]
      and [1] of the masks, the colour strings of the board, and
      [undefined] for reads outside an array) are the type [value].
      Numbers are integers in this program; they are modelled by [Z].
    - Arrays are lists; reads go through [js_nth]/[get] ([undefined] out
      of range) and writes through [js_set] (JavaScript extends the array
      at an index past its end, and leaves its elements alone at a
      negative index).
    - A callback that can raise a [TypeError] (reading a property of
      [undefined]) returns [option]: [None] is the exception.  All the
      [set...] calls of a callback are applied together when it returns,
      the last call for a state variable winning, which is how React
      batches them; a callback is one atomic step on the rendered state. *)

From Stdlib Require Import ZArith QArith Qround Lia.
From stdpp Require Import base option list strings pretty.

Open Scope Z_scope.

(** ** Constants (lines 4-5) *)

Definition BOARD_WIDTH : Z := 10.
Definition BOARD_HEIGHT : Z := 20.

(** ** Values and arrays *)

Inductive value : Type :=
| VNum (n : Z)
| VStr (s : string)
| VUndef.

(** Truthiness, as used by [if (piece.shape[y][x])] and [board[newY][newX]]. *)
Definition truthy (v : value) : bool :=
  match v with
  | VNum n => negb (n =? 0)
  | VStr s => negb (String.eqb s EmptyString)
  | VUndef => false
  end.

(** [cell !== 0]: strict inequality with the number zero. *)
Definition strict_ne_zero (v : value) : bool :=
  match v with
  | VNum n => negb (n =? 0)
  | VStr _ => true
  | VUndef => true
  end.

(** [a[i]] for a natural index: [undefined] past the end. *)
Definition js_nth (l : list value) (i : nat) : value :=
  default VUndef (l !! i).

(** [a[i]] for an integer index. *)
Definition get (l : list value) (i : Z) : value :=
  if i <? 0 then VUndef else js_nth l (Z.to_nat i).

(** [a[i] = v].  A negative index sets a property that is no element of
    the array; an index past the end extends the array, the gap reading
    as [undefined]. *)
Definition js_set (l : list value) (i : Z) (v : value) : list value :=
  if i <? 0 then l
  else
    let n := Z.to_nat i in
    if (n <? length l)%nat then <[n := v]> l
    else l ++ replicate (n - length l)%nat VUndef ++ [v].

(** ** Pieces, positions, the component state *)

Record piece : Type := mkPiece {
  shape : list (list value);
  color : string
}.

Record pos : Type := mkPos {
  px : Z;
  py : Z
}.

Record state : Type := mkState {
  board : list (list value);
  currentPiece : option piece;
  position : pos;
  gameOver : bool;
  score : Z
}.

(** ** The seven templates (lines 7-36)

    An object literal: [Object.keys] lists the keys in insertion order, so
    the table is an association list. *)

Definition TETROMINOS : list (string * piece) :=
  [ ("I"%string, mkPiece [[VNum 1; VNum 1; VNum 1; VNum 1]] "#00f0f0");
    ("J"%string, mkPiece [[VNum 1; VNum 0; VNum 0]; [VNum 1; VNum 1; VNum 1]] "#0000f0");
    ("L"%string, mkPiece [[VNum 0; VNum 0; VNum 1]; [VNum 1; VNum 1; VNum 1]] "#f0a000");
    ("O"%string, mkPiece [[VNum 1; VNum 1]; [VNum 1; VNum 1]] "#f0f000");
    ("S"%string, mkPiece [[VNum 0; VNum 1; VNum 1]; [VNum 1; VNum 1; VNum 0]] "#00f000");
    ("T"%string, mkPiece [[VNum 0; VNum 1; VNum 0]; [VNum 1; VNum 1; VNum 1]] "#a000f0");
    ("Z"%string, mkPiece [[VNum 1; VNum 1; VNum 0]; [VNum 0; VNum 1; VNum 1]] "#f00000") ].

(** [TETROMINOS[k]] *)
Fixpoint lookupKey (k : string) (t : list (string * piece)) : option piece :=
  match t with
  | [] => None
  | (k', p) :: t' => if String.eqb k k' then Some p else lookupKey k t'
  end.

Definition templates : list piece := map snd TETROMINOS.

(** ** createBoard (lines 38-39) *)

Definition emptyRow : list value := replicate (Z.to_nat BOARD_WIDTH) (VNum 0).

Definition createBoard : list (list value) :=
  replicate (Z.to_nat BOARD_HEIGHT) emptyRow.

(** ** getRandomTetromino (lines 48-52)

    [r] is the result of [Math.random()], a number in [0, 1).  The
    product and the floor are taken exactly here.  The code takes them on
    doubles, where the product is rounded before the floor, so that for a
    value within one rounding of a multiple of 1/7 it can return the
    neighbouring template.  Of the draw, the properties below use only
    that the index is one of 0..6, which holds of both. *)

Definition getRandomTetromino (r : Q) : option piece :=
  let tetrominos := map fst TETROMINOS in
  let i := Qfloor (r * inject_Z (Z.of_nat (length tetrominos))) in
  if i <? 0 then None
  else
    match tetrominos !! Z.to_nat i with
    | Some randTetromino => lookupKey randTetromino TETROMINOS
    | None => None
    end.

(** ** isColliding (lines 54-73) *)

(** The condition of the inner [if] (lines 61-66), with the short circuit
    of [||] and [&&]: the board is read only for [0 <= newX < BOARD_WIDTH]
    and [0 <= newY < BOARD_HEIGHT]; [board[newY]] being [undefined] there
    is a [TypeError]. *)
Definition hits (bd : list (list value)) (newX newY : Z) : option bool :=
  if (newX <? 0) || (BOARD_WIDTH <=? newX) || (BOARD_HEIGHT <=? newY) then Some true
  else if 0 <=? newY then
    row ← bd !! Z.to_nat newY;
    Some (truthy (get row newX))
  else Some false.

(** The inner loop over [x], from column [x] on. *)
Fixpoint collidesRow (bd : list (list value)) (p0 : pos) (y : Z)
    (row : list value) (x : Z) : option bool :=
  match row with
  | [] => Some false
  | v :: rest =>
      if truthy v then
        h ← hits bd (px p0 + x) (py p0 + y);
        if h : bool then Some true else collidesRow bd p0 y rest (x + 1)
      else collidesRow bd p0 y rest (x + 1)
  end.

(** The outer loop over [y], from row [y] on. *)
Fixpoint collidesRows (bd : list (list value)) (p0 : pos)
    (rows : list (list value)) (y : Z) : option bool :=
  match rows with
  | [] => Some false
  | row :: rest =>
      c ← collidesRow bd p0 y row 0;
      if c : bool then Some true else collidesRows bd p0 rest (y + 1)
  end.

Definition isColliding (bd : list (list value)) (p : piece) (p0 : pos) : option bool :=
  collidesRows bd p0 (shape p) 0.

(** ** Painting a piece on a copy of the board

    The loops of lines 78-88 ([mergePieceToBoard]) and of lines 189-195
    ([renderBoard]) are the same: for every truthy mask cell whose row
    [position.y + y] is not negative, [b[position.y + y][position.x + x]]
    is set to the colour. *)

Definition writeCell (bd : list (list value)) (newY newX : Z) (c : string)
    : option (list (list value)) :=
  row ← bd !! Z.to_nat newY;
  Some (<[Z.to_nat newY := js_set row newX (VStr c)]> bd).

Fixpoint paintRow (c : string) (p0 : pos) (y : Z) (row : list value) (x : Z)
    (bd : list (list value)) : option (list (list value)) :=
  match row with
  | [] => Some bd
  | v :: rest =>
      bd' ← (if truthy v && (0 <=? py p0 + y)
             then writeCell bd (py p0 + y) (px p0 + x) c
             else Some bd);
      paintRow c p0 y rest (x + 1) bd'
  end.

Fixpoint paintRows (c : string) (p0 : pos) (rows : list (list value)) (y : Z)
    (bd : list (list value)) : option (list (list value)) :=
  match rows with
  | [] => Some bd
  | row :: rest =>
      bd' ← paintRow c p0 y row 0 bd;
      paintRows c p0 rest (y + 1) bd'
  end.

Definition paint (p : piece) (p0 : pos) (bd : list (list value))
    : option (list (list value)) :=
  paintRows (color p) p0 (shape p) 0 bd.

(** ** Completed rows and their removal (lines 93-106) *)

(** [row.every(cell => cell !== 0)] *)
Definition rowComplete (row : list value) : bool :=
  forallb strict_ne_zero row.

(** The rows with their indices, as [reduce] and [filter] see them. *)
Definition indexed (bd : list (list value)) : list (nat * list value) :=
  imap (λ i row, (i, row)) bd.

(** [newBoard.reduce((acc, row, i) => ..., [])] *)
Definition completedRows (bd : list (list value)) : list nat :=
  fold_left (λ acc ir, if rowComplete (snd ir) then acc ++ [fst ir] else acc)
            (indexed bd) [].

(** [completedRows.includes(i)] *)
Definition includes (l : list nat) (i : nat) : bool :=
  existsb (Nat.eqb i) l.

(** [newBoard.filter((_, i) => !completedRows.includes(i))] *)
Definition filteredBoard (completed : list nat) (bd : list (list value))
    : list (list value) :=
  map snd (List.filter (λ ir, negb (includes completed (fst ir))) (indexed bd)).

(** Lines 93-106: the board and the score that are set after the piece has
    been written to [newBoard]. *)
Definition clearLines (newBoard : list (list value)) (sc : Z)
    : list (list value) * Z :=
  let completed := completedRows newBoard in
  if (0 <? length completed)%nat then
    let newScore := sc + Z.of_nat (length completed) * 100 in
    let newRows := replicate (length completed) emptyRow in
    (newRows ++ filteredBoard completed newBoard, newScore)
  else (newBoard, sc).

(** ** mergePieceToBoard (lines 75-107) *)

Definition mergePieceToBoard (s : state) : option state :=
  match currentPiece s with
  | None => Some s
  | Some p =>
      newBoard ← paint p (position s) (board s);
      let r := clearLines newBoard (score s) in
      Some {| board := fst r;
              currentPiece := None;
              position := position s;
              gameOver := gameOver s;
              score := snd r |}
  end.

(** ** moveDown (lines 109-122) *)

Definition moveDown (s : state) : option state :=
  match currentPiece s with
  | None => Some s
  | Some p =>
      let newPos := {| px := px (position s); py := py (position s) + 1 |} in
      c ← isColliding (board s) p newPos;
      if c : bool then
        if py (position s) <? 1 then
          Some {| board := board s;
                  currentPiece := currentPiece s;
                  position := position s;
                  gameOver := true;
                  score := score s |}
        else mergePieceToBoard s
      else
        Some {| board := board s;
                currentPiece := currentPiece s;
                position := newPos;
                gameOver := gameOver s;
                score := score s |}
  end.

(** ** moveHorizontally (lines 124-131) *)

Definition moveHorizontally (dir : Z) (s : state) : option state :=
  match currentPiece s with
  | None => Some s
  | Some p =>
      let newPos := {| px := px (position s) + dir; py := py (position s) |} in
      c ← isColliding (board s) p newPos;
      if c : bool then Some s
      else
        Some {| board := board s;
                currentPiece := currentPiece s;
                position := newPos;
                gameOver := gameOver s;
                score := score s |}
  end.

(** ** rotatePiece (lines 133-144) *)

(** Lines 136-138.  [currentPiece.shape[0]] is [undefined] for a mask
    without rows, and [undefined.map] is a [TypeError]. *)
Definition rotateShape (sh : list (list value)) : option (list (list value)) :=
  match sh with
  | [] => None
  | row0 :: _ =>
      Some (imap (λ i _, reverse (map (λ row, js_nth row i) sh)) row0)
  end.

Definition rotatePiece (s : state) : option state :=
  match currentPiece s with
  | None => Some s
  | Some p =>
      rotatedShape ← rotateShape (shape p);
      let rotatedPiece := {| shape := rotatedShape; color := color p |} in
      c ← isColliding (board s) rotatedPiece (position s);
      if c : bool then Some s
      else
        Some {| board := board s;
                currentPiece := Some rotatedPiece;
                position := position s;
                gameOver := gameOver s;
                score := score s |}
  end.

(** ** The spawn effect (lines 146-157)

    The effect runs after a render in which [currentPiece], [gameOver] or
    [moveDown] changed.  Its first part creates the piece; its second part
    installs the interval that calls [moveDown], and does so only when
    [gameOver] is false (the clean-up of the previous run has removed the
    interval before). *)

Definition spawnPosition : pos :=
  {| px := BOARD_WIDTH / 2 - 1; py := 0 |}.

Definition spawnEffect (r : Q) (s : state) : state :=
  if gameOver s then s
  else
    match currentPiece s with
    | Some _ => s
    | None =>
        {| board := board s;
           currentPiece := getRandomTetromino r;
           position := spawnPosition;
           gameOver := gameOver s;
           score := score s |}
    end.

(** One firing of the interval: there is none while [gameOver] is true. *)
Definition tick (s : state) : option state :=
  if gameOver s then Some s else moveDown s.

(** ** handleKeyPress (lines 159-183) *)

Definition handleKeyPress (key : string) (s : state) : option state :=
  if gameOver s then Some s
  else if String.eqb key "ArrowLeft" then moveHorizontally (-1) s
  else if String.eqb key "ArrowRight" then moveHorizontally 1 s
  else if String.eqb key "ArrowDown" then moveDown s
  else if String.eqb key "ArrowUp" then rotatePiece s
  else Some s.

(** ** renderBoard (lines 185-196): the board with the piece laid over it *)

Definition displayBoard (s : state) : option (list (list value)) :=
  match currentPiece s with
  | None => Some (board s)
  | Some p => paint p (position s) (board s)
  end.

(** ** resetGame (lines 209-215) and the initial state (lines 42-46) *)

Definition initialState : state :=
  {| board := createBoard;
     currentPiece := None;
     position := {| px := 0; py := 0 |};
     gameOver := false;
     score := 0 |}.

Definition resetGame (s : state) : state :=
  {| board := createBoard;
     currentPiece := None;
     position := {| px := 0; py := 0 |};
     gameOver := false;
     score := 0 |}.

(** ** Runs of the component *)

Inductive event : Type :=
| Spawn (r : Q)          (* the spawn effect, with the value of Math.random() *)
| Tick                   (* the interval fires *)
| Key (k : string)       (* a keydown event *)
| Reset.                 (* the New Game button *)

Definition step (e : event) (s : state) : option state :=
  match e with
  | Spawn r => Some (spawnEffect r s)
  | Tick => tick s
  | Key k => handleKeyPress k s
  | Reset => Some (resetGame s)
  end.

(** [Math.random()] returns a number in [0, 1). *)
Definition validEvent (e : event) : Prop :=
  match e with
  | Spawn r => (0 <= r)%Q ∧ (r < 1)%Q
  | _ => True
  end.

Fixpoint run (es : list event) (s : state) : option state :=
  match es with
  | [] => Some s
  | e :: es' => s' ← step e s; run es' s'
  end.

(** The states of the serial runs: every event is handled on the render
    that follows the previous event.  The runs in which several events
    are handled on the same render are [rendered], further down. *)
Inductive reachable : state → Prop :=
| reachable_init : reachable initialState
| reachable_step e s s' :
    reachable s → validEvent e → step e s = Some s' → reachable s'.

(** [n] firings of the interval in a row. *)
Fixpoint ticks (n : nat) (s : state) : option state :=
  match n with
  | O => Some s
  | S n' => s' ← tick s; ticks n' s'
  end.

(** ** Vocabulary of the specification *)

(** Cell [(x, y)] of a mask is occupied. *)
Definition occupied (sh : list (list value)) (x y : nat) : Prop :=
  ∃ row v, sh !! y = Some row ∧ row !! x = Some v ∧ truthy v = true.

(** The content of the grid at column [X], row [Y]. *)
Definition cellAt (bd : list (list value)) (X Y : Z) : value :=
  if Y <? 0 then VUndef
  else match bd !! Z.to_nat Y with
       | Some row => get row X
       | None => VUndef
       end.

Definition filled (bd : list (list value)) (X Y : Z) : bool :=
  truthy (cellAt bd X Y).

(** What the specification lists for [collides]: outside the horizontal
    bounds, at or below the bottom, or on a filled cell of a row [Y >= 0]. *)
Definition blocked (bd : list (list value)) (X Y : Z) : Prop :=
  X < 0 ∨ BOARD_WIDTH ≤ X ∨ BOARD_HEIGHT ≤ Y ∨ (0 ≤ Y ∧ filled bd X Y = true).

Definition outsideColumns (X : Z) : Prop := X < 0 ∨ BOARD_WIDTH ≤ X.

(** [hits] raises no error on row [Y] and decides [ok] there. *)
Definition decides (bd : list (list value)) (ok : Z → Z → Prop) (Y : Z) : Prop :=
  ∀ X, ∃ b, hits bd X Y = Some b ∧ (b = true ↔ ok X Y).

(** The mask of a piece at [p0] occupies the grid cell [(X, Y)]. *)
Definition occupiedAt (sh : list (list value)) (p0 : pos) (X Y : Z) : bool :=
  truthy (cellAt sh (X - px p0) (Y - py p0)).

(** [(X, Y)] is a cell of the grid. *)
Definition inRange (bd : list (list value)) (X Y : Z) : Prop :=
  0 ≤ Y ∧ ∃ row, bd !! Z.to_nat Y = Some row ∧ 0 ≤ X < Z.of_nat (length row).

(** Two grids have the same number of rows and the same row lengths. *)
Definition sameDims (bd bd' : list (list value)) : Prop :=
  map length bd = map length bd'.

(** The grid has [BOARD_HEIGHT] rows of [BOARD_WIDTH] cells. *)
Definition wellSized (bd : list (list value)) : Prop :=
  map length bd = replicate (Z.to_nat BOARD_HEIGHT) (Z.to_nat BOARD_WIDTH).

(** The piece lies between the walls and above the floor: on an empty
    board it does not collide. *)
Definition withinWalls (p : piece) (p0 : pos) : Prop :=
  isColliding createBoard p p0 = Some false.

(** The number of fully-filled rows of a grid. *)
Definition countComplete (bd : list (list value)) : nat :=
  length (List.filter rowComplete bd).

(** [clear] as the specification words it: the fully-filled rows are
    removed, as many empty rows are put on top, and the other rows keep
    their order. *)
Definition clearSpec (bd : list (list value)) : list (list value) :=
  replicate (countComplete bd) emptyRow ++
  List.filter (λ row, negb (rowComplete row)) bd.

(** A rectangular mask of [r] rows and [c] columns. *)
Definition rect (r c : nat) (sh : list (list value)) : Prop :=
  map length sh = replicate r c.

(** The entry of row [i], column [j], when there is one. *)
Definition entry (sh : list (list value)) (i j : nat) : option value :=
  sh !! i ≫= (λ row, row !! j).

(** The transpose of a mask of [c] columns, row after row. *)
Fixpoint transpose (c : nat) (sh : list (list value)) : list (list value) :=
  match sh with
  | [] => replicate c []
  | row :: rest => zip_with cons row (transpose c rest)
  end.

(** The rotation as the specification words it: transpose, then reverse
    each resulting row. *)
Definition rotateSpec (c : nat) (sh : list (list value)) : list (list value) :=
  map reverse (transpose c sh).

(** The rotation applied [n] times in succession. *)
Fixpoint rotateN (n : nat) (sh : list (list value)) : option (list (list value)) :=
  match n with
  | O => Some sh
  | S n' => sh' ← rotateShape sh; rotateN n' sh'
  end.

(** The mask is rectangular with at least one row and one column. *)
Definition shapeOK (p : piece) : Prop :=
  ∃ r c, (0 < r)%nat ∧ (0 < c)%nat ∧ rect r c (shape p).

(** A cell of the board: the number 0 (empty) or a colour (filled). *)
Definition cellOK (v : value) : Prop :=
  v = VNum 0 ∨ ∃ c, v = VStr c ∧ c ≠ EmptyString.

Definition cellsOK (bd : list (list value)) : Prop :=
  Forall (Forall cellOK) bd.

Definition pieceOK (p : piece) : Prop :=
  shapeOK p ∧ color p ≠ EmptyString.

(** What holds of the active piece in every state of a run: it does not
    collide where it is, or it is a template that still sits where it was
    spawned (the spawn effect makes no collision test). *)
Definition pieceInv (s : state) (p : piece) : Prop :=
  pieceOK p ∧
  (isColliding (board s) p (position s) = Some false ∨
   (position s = spawnPosition ∧ In p templates)).

Definition inv (s : state) : Prop :=
  wellSized (board s) ∧ cellsOK (board s) ∧
  ∀ p, currentPiece s = Some p → pieceInv s p.

(** ** States written by the callbacks *)

Definition down (p0 : pos) : pos := {| px := px p0; py := py p0 + 1 |}.

Definition sideways (dir : Z) (p0 : pos) : pos := {| px := px p0 + dir; py := py p0 |}.

Definition withPosition (s : state) (p0 : pos) : state :=
  {| board := board s; currentPiece := currentPiece s; position := p0;
     gameOver := gameOver s; score := score s |}.

Definition withGameOver (s : state) : state :=
  {| board := board s; currentPiece := currentPiece s; position := position s;
     gameOver := true; score := score s |}.

Definition withPiece (s : state) (p : piece) : state :=
  {| board := board s; currentPiece := Some p; position := position s;
     gameOver := gameOver s; score := score s |}.

(** The state after a lock whose painted board is [M]. *)
Definition locked (s : state) (M : list (list value)) : state :=
  {| board := clearSpec M; currentPiece := None; position := position s;
     gameOver := gameOver s;
     score := score s + 100 * Z.of_nat (countComplete M) |}.

(** ** Pieces, states and runs of the scenarios *)

Definition pieceI : piece :=
  mkPiece [[VNum 1; VNum 1; VNum 1; VNum 1]] "#00f0f0".

Definition pieceO : piece :=
  mkPiece [[VNum 1; VNum 1]; [VNum 1; VNum 1]] "#f0f000".

(** An empty board with an [O] piece at [x = 4], [y = 0]. *)
Definition scenarioStart : state :=
  {| board := createBoard;
     currentPiece := Some pieceO;
     position := {| px := 4; py := 0 |};
     gameOver := false;
     score := 0 |}.

(** The same piece after it has come to rest on the floor. *)
Definition scenarioRest : state :=
  {| board := createBoard;
     currentPiece := Some pieceO;
     position := {| px := 4; py := 18 |};
     gameOver := false;
     score := 0 |}.

Definition blockRow : list value :=
  [VNum 0; VNum 0; VNum 0; VNum 0; VStr "#f0f000"; VStr "#f0f000";
   VNum 0; VNum 0; VNum 0; VNum 0].

(** The board whose only filled cells are the 2x2 block at rows 18-19,
    columns 4-5. *)
Definition blockBoard : list (list value) :=
  replicate 18 emptyRow ++ [blockRow; blockRow].

(** Nine [O] pieces stacked in columns 4-5, and a tenth one just spawned. *)
Definition scenarioTop : state :=
  {| board := replicate 2 emptyRow ++ replicate 18 blockRow;
     currentPiece := Some pieceO;
     position := {| px := 4; py := 0 |};
     gameOver := false;
     score := 0 |}.

(** Spawn an [O] piece and let it fall until it locks with its top row at
    [restY]. *)
Definition dropO (restY : nat) : list event :=
  Spawn (3 # 7) :: replicate (S restY) Tick.

(** An [I] piece laid on the floor, nine [O] pieces stacked on it up to
    row 1, and one more spawn. *)
Definition overlapRun : list event :=
  Spawn 0 :: replicate 20 Tick ++
  flat_map dropO [17; 15; 13; 11; 9; 7; 5; 3; 1]%nat ++ [Spawn (3 # 7)].

(** The number of columns of a mask. *)
Definition maskWidth (sh : list (list value)) : Z :=
  Z.of_nat (foldr Nat.max 0%nat (map length sh)).

(** A mask of width [w] at column [x] is horizontally centred: the free
    columns on its left and on its right differ by one at most. *)
Definition centred (x w : Z) : Prop :=
  Z.abs (x - (BOARD_WIDTH - (x + w))) ≤ 1.

(** ** Fully-filled rows, in the words of the specification *)

(** Every cell of the row is filled. *)
Definition rowFilled (row : list value) : bool :=
  forallb truthy row.

(** The number of fully-filled rows of a grid. *)
Definition countFilledRows (bd : list (list value)) : nat :=
  length (List.filter rowFilled bd).

(** [cellOK], as a test. *)
Definition cellOKb (v : value) : bool :=
  match v with
  | VNum n => n =? 0
  | VStr c => negb (String.eqb c EmptyString)
  | VUndef => false
  end.

(** A row that two cells in columns 4-5 complete. *)
Definition gapRow : list value :=
  [VStr "#00f000"; VStr "#00f000"; VStr "#f00000"; VStr "#f00000";
   VNum 0; VNum 0;
   VStr "#0000f0"; VStr "#0000f0"; VStr "#a000f0"; VStr "#a000f0"].

(** An [O] piece at rest in the gap of the two bottom rows, under a row
    that stays. *)
Definition scenarioGap : state :=
  {| board := replicate 17 emptyRow ++ [blockRow; gapRow; gapRow];
     currentPiece := Some pieceO;
     position := {| px := 4; py := 18 |};
     gameOver := false;
     score := 300 |}.

(** The state after the lock of [scenarioGap]: the two bottom rows are
    cleared and the row above them has moved to the bottom. *)
Definition scenarioCleared : state :=
  {| board := replicate 19 emptyRow ++ [blockRow];
     currentPiece := None;
     position := {| px := 4; py := 18 |};
     gameOver := false;
     score := 500 |}.

(** A row and a board with more filled cells than [blockBoard], in
    another colour. *)
Definition crowdedRow : list value :=
  VNum 0 :: replicate 9 (VStr "#a000f0").

Definition crowdedBoard : list (list value) :=
  replicate 18 emptyRow ++ [crowdedRow; crowdedRow].

(** ** The transitions of the component

    What one event can do to the state, case by case; [step_fires] shows
    that every result of [step] is one of these. *)

Definition spawned (s : state) (q : option piece) : state :=
  {| board := board s; currentPiece := q; position := spawnPosition;
     gameOver := gameOver s; score := score s |}.

(** The events that call [moveDown]. *)
Definition gravity (e : event) : Prop :=
  e = Tick ∨ e = Key "ArrowDown".

(** The position that an event tries to move the piece to. *)
Definition target (e : event) (p0 : pos) : option pos :=
  match e with
  | Tick => Some (down p0)
  | Key k =>
      if String.eqb k "ArrowLeft" then Some (sideways (-1) p0)
      else if String.eqb k "ArrowRight" then Some (sideways 1 p0)
      else if String.eqb k "ArrowDown" then Some (down p0)
      else None
  | _ => None
  end.

Inductive fires : event → state → state → Prop :=
| fires_idle e s :
    e ≠ Reset → fires e s s
| fires_reset s :
    fires Reset s initialState
| fires_spawn r s :
    gameOver s = false → currentPiece s = None →
    fires (Spawn r) s (spawned s (getRandomTetromino r))
| fires_shift e s p p0 :
    gameOver s = false → currentPiece s = Some p →
    target e (position s) = Some p0 →
    isColliding (board s) p p0 = Some false →
    fires e s (withPosition s p0)
| fires_rotate s p sh :
    gameOver s = false → currentPiece s = Some p →
    rotateShape (shape p) = Some sh →
    isColliding (board s) {| shape := sh; color := color p |} (position s)
      = Some false →
    fires (Key "ArrowUp") s (withPiece s {| shape := sh; color := color p |})
| fires_over e s p :
    gravity e → gameOver s = false → currentPiece s = Some p →
    isColliding (board s) p (down (position s)) = Some true →
    py (position s) < 1 →
    fires e s (withGameOver s)
| fires_lock e s p M :
    gravity e → gameOver s = false → currentPiece s = Some p →
    isColliding (board s) p (down (position s)) = Some true →
    1 ≤ py (position s) →
    paint p (position s) (board s) = Some M →
    fires e s (locked s M).

(** ** The orientations of the templates *)

(** A template turned zero to three times by lines 136-138. *)
Definition orientationsOf (p : piece) : list piece :=
  omap (λ n, sh ← rotateN n (shape p);
             Some {| shape := sh; color := color p |})
       [0; 1; 2; 3]%nat.

Definition orientations : list piece := flat_map orientationsOf templates.

(** A cell holds the number 0 or the colour of a template. *)
Definition templateCell (v : value) : Prop :=
  v = VNum 0 ∨ ∃ c, In c (map color templates) ∧ v = VStr c.

(** The state at the end of [overlapRun] followed by one tick. *)
Definition stuckState : state :=
  default initialState (run (overlapRun ++ [Tick]) initialState).

(** ** What the render shows (lines 198-206) *)

(** [cell || '#333'] *)
Definition cellBackground (cell : value) : value :=
  if truthy cell then cell else VStr "#333".

(** The [div] of one cell: its key, its class and the background colour
    of its style. *)
Record cellDiv : Type := mkCellDiv {
  key : string;
  className : string;
  backgroundColor : value
}.

(** [`${y}-${x}`], for the array indices [y] and [x]. *)
Definition cellKey (y x : nat) : string :=
  pretty y +:+ "-" +:+ pretty x.

(** renderBoard (lines 185-207): the cells of [displayBoard], row by row. *)
Definition renderBoard (s : state) : option (list (list cellDiv)) :=
  shown ← displayBoard s;
  Some (imap (λ y row,
          imap (λ x cell,
            {| key := cellKey y x;
               className := "cell";
               backgroundColor := cellBackground cell |}) row) shown).

(** The colour of the active piece, where it covers the cell [(X, Y)]. *)
Definition pieceColourAt (s : state) (X Y : Z) : option string :=
  match currentPiece s with
  | Some p =>
      if (0 <=? Y) && occupiedAt (shape p) (position s) X Y
      then Some (color p) else None
  | None => None
  end.

(** The keys of a rendering of 20 rows of 10 cells. *)
Definition allKeys : list string :=
  concat ((λ y, cellKey y <$> seq 0 10) <$> seq 0 20).

(** The number of truthy cells of a mask. *)
Definition cellCount (sh : list (list value)) : nat :=
  length (List.filter truthy (concat sh)).

(** The number of filled cells of a grid. *)
Definition filledCount (bd : list (list value)) : nat :=
  length (List.filter truthy (concat bd)).

(** ** The callbacks as setter calls, and events handled on one render

    A callback is a closure over the state of the render that created it:
    it reads that state and calls setters with values, never with updater
    functions.  React queues the calls and applies them, in order, before
    the next render.  When several events are handled before the component
    renders again (a firing of the interval and a key press, say), each of
    their callbacks reads the same rendered state, and for every state
    variable the last value set wins.  [step] and [reachable] above are the
    runs in which every event is handled on a render of its own; [renders]
    and [rendered] below are the runs in which any number of events is
    handled on each render. *)

Inductive update : Type :=
| SetBoard (b : list (list value))
| SetCurrentPiece (q : option piece)
| SetPosition (p0 : pos)
| SetGameOver (b : bool)
| SetScore (n : Z).

Definition applyUpdate (s : state) (u : update) : state :=
  match u with
  | SetBoard b =>
      {| board := b; currentPiece := currentPiece s; position := position s;
         gameOver := gameOver s; score := score s |}
  | SetCurrentPiece q =>
      {| board := board s; currentPiece := q; position := position s;
         gameOver := gameOver s; score := score s |}
  | SetPosition p0 =>
      {| board := board s; currentPiece := currentPiece s; position := p0;
         gameOver := gameOver s; score := score s |}
  | SetGameOver b =>
      {| board := board s; currentPiece := currentPiece s; position := position s;
         gameOver := b; score := score s |}
  | SetScore n =>
      {| board := board s; currentPiece := currentPiece s; position := position s;
         gameOver := gameOver s; score := n |}
  end.

Definition applyUpdates (us : list update) (s : state) : state :=
  foldl applyUpdate s us.

(** mergePieceToBoard (lines 75-107): [setBoard(newBoard)],
    [setCurrentPiece(null)], and, when rows are complete, [setScore] and a
    second [setBoard]. *)
Definition mergeCalls (s : state) : option (list update) :=
  match currentPiece s with
  | None => Some []
  | Some p =>
      newBoard ← paint p (position s) (board s);
      let completed := completedRows newBoard in
      Some ([SetBoard newBoard; SetCurrentPiece None] ++
            if (0 <? length completed)%nat then
              [SetScore (score s + Z.of_nat (length completed) * 100);
               SetBoard (replicate (length completed) emptyRow ++
                         filteredBoard completed newBoard)]
            else [])
  end.

(** moveDown (lines 109-122) *)
Definition moveDownCalls (s : state) : option (list update) :=
  match currentPiece s with
  | None => Some []
  | Some p =>
      let newPos := {| px := px (position s); py := py (position s) + 1 |} in
      c ← isColliding (board s) p newPos;
      if c : bool then
        if py (position s) <? 1 then Some [SetGameOver true]
        else mergeCalls s
      else Some [SetPosition newPos]
  end.

(** moveHorizontally (lines 124-131) *)
Definition moveHorizontallyCalls (dir : Z) (s : state) : option (list update) :=
  match currentPiece s with
  | None => Some []
  | Some p =>
      let newPos := {| px := px (position s) + dir; py := py (position s) |} in
      c ← isColliding (board s) p newPos;
      if c : bool then Some [] else Some [SetPosition newPos]
  end.

(** rotatePiece (lines 133-144) *)
Definition rotateCalls (s : state) : option (list update) :=
  match currentPiece s with
  | None => Some []
  | Some p =>
      rotatedShape ← rotateShape (shape p);
      let rotatedPiece := {| shape := rotatedShape; color := color p |} in
      c ← isColliding (board s) rotatedPiece (position s);
      if c : bool then Some [] else Some [SetCurrentPiece (Some rotatedPiece)]
  end.

(** The spawn effect (lines 147-153) *)
Definition spawnCalls (r : Q) (s : state) : list update :=
  if gameOver s then []
  else
    match currentPiece s with
    | Some _ => []
    | None => [SetCurrentPiece (getRandomTetromino r); SetPosition spawnPosition]
    end.

(** resetGame (lines 209-215) *)
Definition resetCalls : list update :=
  [SetBoard createBoard; SetCurrentPiece None;
   SetPosition {| px := 0; py := 0 |}; SetGameOver false; SetScore 0].

(** handleKeyPress (lines 159-183) *)
Definition keyCalls (k : string) (s : state) : option (list update) :=
  if gameOver s then Some []
  else if String.eqb k "ArrowLeft" then moveHorizontallyCalls (-1) s
  else if String.eqb k "ArrowRight" then moveHorizontallyCalls 1 s
  else if String.eqb k "ArrowDown" then moveDownCalls s
  else if String.eqb k "ArrowUp" then rotateCalls s
  else Some [].

(** The setter calls of one event handled on the rendered state [s];
    [None] is a [TypeError], raised before any setter is called. *)
Definition calls (e : event) (s : state) : option (list update) :=
  match e with
  | Spawn r => Some (spawnCalls r s)
  | Tick => if gameOver s then Some [] else moveDownCalls s
  | Key k => keyCalls k s
  | Reset => Some resetCalls
  end.

(** The state after the events [es], all handled on the rendered state
    [s], in this order.  A callback that raises an error has called no
    setter; the calls of the others are applied all the same. *)
Definition renders (es : list event) (s : state) : state :=
  applyUpdates (flat_map (λ e, default [] (calls e s)) es) s.

(** The events that can occur on a rendered state: [Math.random()] is in
    [0, 1), and the New Game button is rendered only while the game is
    over (lines 225-230). *)
Definition canOccur (s : state) (e : event) : Prop :=
  match e with
  | Spawn r => (0 <= r)%Q ∧ (r < 1)%Q
  | Reset => gameOver s = true
  | _ => True
  end.

(** The states of these runs.  Events are handled on a state that has
    rendered: an error in [renderBoard] unmounts the component. *)
Inductive rendered : state → Prop :=
| rendered_init : rendered initialState
| rendered_batch es s :
    rendered s → is_Some (renderBoard s) → Forall (canOccur s) es →
    rendered (renders es s).

(** The setter calls of a lock whose painted board is [M]. *)
Definition lockCalls (s : state) (M : list (list value)) : list update :=
  [SetBoard M; SetCurrentPiece None] ++
  if (0 <? length (completedRows M))%nat then
    [SetScore (score s + Z.of_nat (length (completedRows M)) * 100);
     SetBoard (replicate (length (completedRows M)) emptyRow ++
               filteredBoard (completedRows M) M)]
  else [].

(** The setter calls that an event handled on [s] can make, case by
    case; [calls_emits] shows that there are no others. *)
Inductive emits (s : state) : list update → Prop :=
| emits_none :
    emits s []
| emits_reset :
    gameOver s = true → emits s resetCalls
| emits_spawn q :
    gameOver s = false → currentPiece s = None →
    emits s [SetCurrentPiece q; SetPosition spawnPosition]
| emits_fall p :
    gameOver s = false → currentPiece s = Some p →
    isColliding (board s) p (down (position s)) = Some false →
    emits s [SetPosition (down (position s))]
| emits_side p dir :
    gameOver s = false → currentPiece s = Some p →
    isColliding (board s) p (sideways dir (position s)) = Some false →
    emits s [SetPosition (sideways dir (position s))]
| emits_rotate p sh :
    gameOver s = false → currentPiece s = Some p →
    rotateShape (shape p) = Some sh →
    isColliding (board s) {| shape := sh; color := color p |} (position s)
      = Some false →
    emits s [SetCurrentPiece (Some {| shape := sh; color := color p |})]
| emits_over p :
    gameOver s = false → currentPiece s = Some p →
    isColliding (board s) p (down (position s)) = Some true →
    py (position s) < 1 →
    emits s [SetGameOver true]
| emits_lock p M :
    gameOver s = false → currentPiece s = Some p →
    isColliding (board s) p (down (position s)) = Some true →
    1 ≤ py (position s) →
    paint p (position s) (board s) = Some M →
    emits s (lockCalls s M).




(** * Properties *)

(** Boolean comparisons of the embedding, turned into propositions. *)
Ltac zb :=
  repeat match goal with
  | H : (_ <? _) = true |- _ => apply Z.ltb_lt in H
  | H : (_ <? _) = false |- _ => apply Z.ltb_ge in H
  | H : (_ <=? _) = true |- _ => apply Z.leb_le in H
  | H : (_ <=? _) = false |- _ => apply Z.leb_gt in H
  | H : (_ =? _) = true |- _ => apply Z.eqb_eq in H
  | H : (_ =? _) = false |- _ => apply Z.eqb_neq in H
  end.

(** ** The embedding on concrete inputs *)

Example tetromino_I : lookupKey "I" TETROMINOS = Some pieceI.
Proof. reflexivity. Qed.

Example tetromino_O : lookupKey "O" TETROMINOS = Some pieceO.
Proof. reflexivity. Qed.

Example random_low : getRandomTetromino 0 = Some pieceI.
Proof. reflexivity. Qed.

Example random_middle : getRandomTetromino (3 # 7) = Some pieceO.
Proof. reflexivity. Qed.

Example scenarioStart_spawned : spawnEffect (3 # 7) initialState = scenarioStart.
Proof. reflexivity. Qed.

Example rotate_J :
  rotateShape [[VNum 1; VNum 0; VNum 0]; [VNum 1; VNum 1; VNum 1]] =
  Some [[VNum 1; VNum 1]; [VNum 1; VNum 0]; [VNum 1; VNum 0]].
Proof. reflexivity. Qed.

Example floor_collides :
  isColliding createBoard pieceO {| px := 4; py := 19 |} = Some true.
Proof. reflexivity. Qed.

Example wall_collides :
  isColliding createBoard pieceI {| px := 7; py := -3 |} = Some true.
Proof. reflexivity. Qed.

(** ** isColliding *)

Section Collision.

Variable bd : list (list value).
Variable p0 : pos.

Lemma hits_outside X Y :
  outsideColumns X → hits bd X Y = Some true.
Proof.
  unfold outsideColumns, hits. intros Hx.
  destruct (X <? 0) eqn:E1; [done|].
  destruct (BOARD_WIDTH <=? X) eqn:E2; [done|]. lia.
Qed.

Lemma hits_above X Y :
  Y < 0 → ∃ b, hits bd X Y = Some b ∧ (b = true ↔ outsideColumns X).
Proof.
  unfold outsideColumns, hits, BOARD_HEIGHT, BOARD_WIDTH. intros Hy.
  destruct (X <? 0) eqn:E1; simpl.
  { exists true. split; [done|]. split; [lia|done]. }
  destruct (10 <=? X) eqn:E2; simpl.
  { exists true. split; [done|]. split; [lia|done]. }
  destruct (20 <=? Y) eqn:E3; [lia|]. simpl.
  destruct (0 <=? Y) eqn:E4; [lia|].
  exists false. split; [done|]. split; [done|lia].
Qed.

Lemma hits_spec X Y :
  (Z.to_nat BOARD_HEIGHT ≤ length bd)%nat →
  ∃ b, hits bd X Y = Some b ∧ (b = true ↔ blocked bd X Y).
Proof.
  unfold blocked, filled, cellAt, hits, BOARD_HEIGHT, BOARD_WIDTH. intros Hlen.
  destruct (X <? 0) eqn:E1; simpl.
  { exists true. split; [done|]. split; [lia|done]. }
  destruct (10 <=? X) eqn:E2; simpl.
  { exists true. split; [done|]. split; [lia|done]. }
  destruct (20 <=? Y) eqn:E3; simpl.
  { exists true. split; [done|]. split; [lia|done]. }
  destruct (0 <=? Y) eqn:E4.
  - destruct (Y <? 0) eqn:E5; [lia|].
    destruct (lookup_lt_is_Some_2 bd (Z.to_nat Y)) as [row Hrow]; [lia|].
    rewrite Hrow. simpl. exists (truthy (get row X)). split; [done|].
    split; [intros H; right; right; right; split; [lia|done]|].
    intros [?|[?|[?|[_ H]]]]; try lia. done.
  - exists false. split; [done|]. split; [done|]. lia.
Qed.

(** The inner loop finds a truthy cell of the row that is blocked. *)
Lemma collidesRow_spec (ok : Z → Z → Prop) y row :
  (∀ i v, row !! i = Some v → truthy v = true → decides bd ok (py p0 + y)) →
  ∀ x0, ∃ b, collidesRow bd p0 y row x0 = Some b ∧
    (b = true ↔ ∃ (i : nat) v, row !! i = Some v ∧ truthy v = true ∧
                    ok (px p0 + (x0 + Z.of_nat i)) (py p0 + y)).
Proof.
  induction row as [|v rest IH]; intros Hhits x0; simpl.
  { exists false. split; [done|]. split; [done|].
    intros (i & w & Hi & _). by rewrite lookup_nil in Hi. }
  destruct (IH (λ i w Hi Hw, Hhits (S i) w Hi Hw) (x0 + 1))
    as (br & Hbr & Hiff).
  assert (Hshift : ∀ i : nat, x0 + 1 + Z.of_nat i = x0 + Z.of_nat (S i)) by lia.
  assert (Htail : br = true ↔
            ∃ (i : nat) w, (v :: rest) !! S i = Some w ∧ truthy w = true ∧
               ok (px p0 + (x0 + Z.of_nat (S i))) (py p0 + y)).
  { rewrite Hiff. split; intros (i & w & Hi & Hw & Hok); exists i, w;
      (split; [done|]); (split; [done|]);
      [by rewrite <- Hshift | by rewrite Hshift]. }
  clear Hiff IH.
  destruct (truthy v) eqn:Hv.
  - destruct (Hhits 0%nat v eq_refl Hv (px p0 + x0)) as (b & Hb & Hbiff).
    rewrite Hb. simpl. destruct b.
    + exists true. split; [done|]. split; [|done]. intros _.
      exists 0%nat, v. replace (x0 + Z.of_nat 0) with x0 by lia.
      split; [done|]. split; [done|]. by apply Hbiff.
    + exists br. split; [done|]. rewrite Htail. split.
      { intros (i & w & H). by exists (S i), w. }
      intros (i & w & Hi & Hw & Hok). destruct i as [|i]; [|by eauto].
      simpl in Hi. injection Hi as <-.
      replace (x0 + Z.of_nat 0) with x0 in Hok by lia.
      apply Hbiff in Hok. done.
  - exists br. split; [done|]. rewrite Htail. split.
    { intros (i & w & H). by exists (S i), w. }
    intros (i & w & Hi & Hw & Hok). destruct i as [|i]; [|by eauto].
    simpl in Hi. injection Hi as <-. congruence.
Qed.

(** The outer loop finds an occupied cell of the mask that is blocked. *)
Lemma collidesRows_spec (ok : Z → Z → Prop) rows :
  ∀ y0,
  (∀ x y, occupied rows x y → decides bd ok (py p0 + (y0 + Z.of_nat y))) →
  ∃ b, collidesRows bd p0 rows y0 = Some b ∧
    (b = true ↔ ∃ x y : nat, occupied rows x y ∧
                    ok (px p0 + Z.of_nat x) (py p0 + (y0 + Z.of_nat y))).
Proof.
  induction rows as [|row rest IH]; intros y0 Hhits; simpl.
  { exists false. split; [done|]. split; [done|].
    intros (x & y & (r & w & Hr & _) & _). by rewrite lookup_nil in Hr. }
  assert (Hshift : ∀ y : nat, y0 + 1 + Z.of_nat y = y0 + Z.of_nat (S y)) by lia.
  destruct (IH (y0 + 1)) as (br & Hbr & Hiff).
  { intros x y (r & w & Hr & Hx & Hw). rewrite Hshift.
    apply (Hhits x (S y)). by exists r, w. }
  destruct (collidesRow_spec ok y0 row) with (x0 := 0) as (b & Hb & Hbiff).
  { intros i w Hi Hw.
    replace y0 with (y0 + Z.of_nat 0) by lia.
    apply (Hhits i 0%nat). by exists row, w. }
  rewrite Hb. simpl. destruct b.
  - exists true. split; [done|]. split; [|done]. intros _.
    destruct Hbiff as [Hex _]. destruct (Hex eq_refl) as (i & w & Hi & Hw & Hok).
    exists i, 0%nat. split; [by exists row, w|].
    by replace (y0 + Z.of_nat 0) with y0 by lia.
  - exists br. split; [done|]. rewrite Hiff. split.
    + intros (x & y & (r & w & Hr & Hx & Hw) & Hok). exists x, (S y).
      split; [by exists r, w|]. by rewrite <- Hshift.
    + intros (x & y & (r & w & Hr & Hx & Hw) & Hok). destruct y as [|y].
      * simpl in Hr. injection Hr as <-.
        replace (y0 + Z.of_nat 0) with y0 in Hok by lia.
        destruct Hbiff as [_ Hfalse]. discriminate Hfalse. by exists x, w.
      * exists x, y. split; [by exists r, w|]. by rewrite Hshift.
Qed.

End Collision.

(** On a board of at least [BOARD_HEIGHT] rows the query raises no error
    and answers whether some occupied cell is blocked. *)
Lemma isColliding_blocked bd p p0 :
  (Z.to_nat BOARD_HEIGHT ≤ length bd)%nat →
  ∃ b, isColliding bd p p0 = Some b ∧
       (b = true ↔ ∃ x y : nat, occupied (shape p) x y ∧
                      blocked bd (px p0 + Z.of_nat x) (py p0 + Z.of_nat y)).
Proof.
  intros Hlen. unfold isColliding.
  destruct (collidesRows_spec bd p0 (blocked bd) (shape p)) with (y0 := 0)
    as (b & Hb & Hiff).
  { intros x y _ X. by apply hits_spec. }
  exists b. split; [done|]. rewrite Hiff.
  split; intros (x & y & Ho & Hk); exists x, y; (split; [done|]);
    by replace (0 + Z.of_nat y) with (Z.of_nat y) in * by lia.
Qed.

(** A mask whose occupied cells are all above the top row is tested
    against the horizontal bounds only, whatever the board is. *)
Lemma isColliding_above bd p p0 :
  (∀ x y : nat, occupied (shape p) x y → py p0 + Z.of_nat y < 0) →
  ∃ b, isColliding bd p p0 = Some b ∧
       (b = true ↔ ∃ x y : nat, occupied (shape p) x y ∧
                      outsideColumns (px p0 + Z.of_nat x)).
Proof.
  intros Habove. unfold isColliding.
  destruct (collidesRows_spec bd p0 (λ X _, outsideColumns X) (shape p))
    with (y0 := 0) as (b & Hb & Hiff).
  { intros x y Ho X. apply hits_above. specialize (Habove x y Ho). lia. }
  exists b. by split.
Qed.

(** ** Reading lists and grids *)

Lemma get_cons v rest k :
  get (v :: rest) k = if k =? 0 then v else get rest (k - 1).
Proof.
  unfold get, js_nth. destruct (k <? 0) eqn:E1.
  { destruct (k =? 0) eqn:E2; [lia|]. destruct (k - 1 <? 0) eqn:E3; [done|lia]. }
  destruct (k =? 0) eqn:E2.
  { assert (k = 0) as -> by lia. done. }
  destruct (k - 1 <? 0) eqn:E3; [lia|].
  replace (Z.to_nat k) with (S (Z.to_nat (k - 1))) by lia. done.
Qed.

Lemma cellAt_cons row rest X k :
  cellAt (row :: rest) X k = if k =? 0 then get row X else cellAt rest X (k - 1).
Proof.
  unfold cellAt. destruct (k <? 0) eqn:E1.
  { destruct (k =? 0) eqn:E2; [lia|]. destruct (k - 1 <? 0) eqn:E3; [done|lia]. }
  destruct (k =? 0) eqn:E2.
  { assert (k = 0) as -> by lia. done. }
  destruct (k - 1 <? 0) eqn:E3; [lia|].
  replace (Z.to_nat k) with (S (Z.to_nat (k - 1))) by lia. done.
Qed.

Lemma cellAt_nil X k : cellAt [] X k = VUndef.
Proof. unfold cellAt. by destruct (k <? 0). Qed.

Lemma get_lookup row (i : nat) v :
  row !! i = Some v → get row (Z.of_nat i) = v.
Proof.
  intros H. unfold get, js_nth. destruct (Z.of_nat i <? 0) eqn:E; [zb; lia|].
  by rewrite Nat2Z.id, H.
Qed.

Lemma cellAt_lookup sh (x y : nat) row v :
  sh !! y = Some row → row !! x = Some v →
  cellAt sh (Z.of_nat x) (Z.of_nat y) = v.
Proof.
  intros Hr Hv. unfold cellAt. destruct (Z.of_nat y <? 0) eqn:E; [zb; lia|].
  rewrite Nat2Z.id, Hr. by apply get_lookup.
Qed.

(** The boolean reading of the mask agrees with [occupied]. *)
Lemma occupied_cellAt sh (x y : nat) :
  occupied sh x y ↔ truthy (cellAt sh (Z.of_nat x) (Z.of_nat y)) = true.
Proof.
  split.
  - intros (row & v & Hr & Hv & Ht). by rewrite (cellAt_lookup _ _ _ _ _ Hr Hv).
  - unfold cellAt, get, js_nth.
    destruct (Z.of_nat y <? 0) eqn:E1; [done|]. rewrite Nat2Z.id.
    destruct (sh !! y) as [row|] eqn:Hr; [|done].
    destruct (Z.of_nat x <? 0) eqn:E2; [done|]. rewrite Nat2Z.id.
    destruct (row !! x) as [v|] eqn:Hv; [|done]. simpl. intros Ht.
    by exists row, v.
Qed.

Lemma truthy_cellAt_nonneg sh X Y :
  truthy (cellAt sh X Y) = true → 0 ≤ X ∧ 0 ≤ Y.
Proof.
  unfold cellAt, get. destruct (Y <? 0) eqn:E1; [done|].
  destruct (sh !! Z.to_nat Y); [|done].
  destruct (X <? 0) eqn:E2; [done|]. lia.
Qed.

Lemma occupiedAt_occupied sh p0 X Y :
  occupiedAt sh p0 X Y = true ↔
  ∃ x y : nat, occupied sh x y ∧ X = px p0 + Z.of_nat x ∧ Y = py p0 + Z.of_nat y.
Proof.
  unfold occupiedAt. split.
  - intros H. destruct (truthy_cellAt_nonneg _ _ _ H) as [Hx Hy].
    exists (Z.to_nat (X - px p0)), (Z.to_nat (Y - py p0)).
    split; [|lia]. apply occupied_cellAt. by rewrite !Z2Nat.id by lia.
  - intros (x & y & Ho & -> & ->). apply occupied_cellAt in Ho.
    by replace (px p0 + Z.of_nat x - px p0) with (Z.of_nat x) by lia;
       replace (py p0 + Z.of_nat y - py p0) with (Z.of_nat y) by lia.
Qed.

(** ** Dimensions *)

Lemma sameDims_refl bd : sameDims bd bd.
Proof. done. Qed.

Lemma sameDims_trans a b c : sameDims a b → sameDims b c → sameDims a c.
Proof. unfold sameDims. congruence. Qed.

Lemma sameDims_lookup bd bd' n row :
  sameDims bd bd' → bd !! n = Some row →
  ∃ row', bd' !! n = Some row' ∧ length row' = length row.
Proof.
  unfold sameDims. intros Hd Hr.
  assert (H : map length bd' !! n = Some (length row)).
  { rewrite <- Hd. change (map length bd) with (length <$> bd).
    by rewrite list_lookup_fmap, Hr. }
  change (map length bd') with (length <$> bd') in H.
  rewrite list_lookup_fmap in H. destruct (bd' !! n) as [row'|]; [|done].
  exists row'. simpl in H. split; [done|congruence].
Qed.

Lemma inRange_sameDims bd bd' X Y :
  sameDims bd bd' → inRange bd X Y → inRange bd' X Y.
Proof.
  intros Hd (Hy & row & Hr & Hx).
  destruct (sameDims_lookup _ _ _ _ Hd Hr) as (row' & Hr' & Hlen).
  split; [done|]. exists row'. split; [done|lia].
Qed.

Lemma wellSized_length bd : wellSized bd → length bd = Z.to_nat BOARD_HEIGHT.
Proof.
  unfold wellSized. intros H.
  rewrite <- (length_map length bd), H. apply length_replicate.
Qed.

Lemma wellSized_inRange bd X Y :
  wellSized bd → 0 ≤ X < BOARD_WIDTH → 0 ≤ Y < BOARD_HEIGHT → inRange bd X Y.
Proof.
  unfold wellSized, BOARD_WIDTH, BOARD_HEIGHT. intros Hw Hx Hy. split; [lia|].
  assert (H : map length bd !! Z.to_nat Y = Some (Z.to_nat 10)).
  { rewrite Hw. apply lookup_replicate_2. lia. }
  change (map length bd) with (length <$> bd) in H.
  rewrite list_lookup_fmap in H. destruct (bd !! Z.to_nat Y) as [row|]; [|done].
  exists row. simpl in H. split; [done|]. injection H as H. lia.
Qed.

Lemma wellSized_sameDims bd bd' : wellSized bd → sameDims bd bd' → wellSized bd'.
Proof. unfold wellSized, sameDims. congruence. Qed.

Lemma wellSized_createBoard : wellSized createBoard.
Proof. reflexivity. Qed.

(** ** Painting *)

Lemma get_insert row (n : nat) v X :
  (n < length row)%nat →
  get (<[n := v]> row) X = if X =? Z.of_nat n then v else get row X.
Proof.
  intros Hn. unfold get, js_nth. destruct (X <? 0) eqn:E1.
  { destruct (X =? Z.of_nat n) eqn:E2; [zb; lia|done]. }
  destruct (X =? Z.of_nat n) eqn:E2; zb.
  - subst X. by rewrite Nat2Z.id, list_lookup_insert_eq.
  - rewrite list_lookup_insert_ne; [done|lia].
Qed.

(** A write inside the grid changes one cell and no dimension. *)
Lemma writeCell_spec bd X Y c :
  inRange bd X Y →
  ∃ bd', writeCell bd Y X c = Some bd' ∧ sameDims bd bd' ∧
    ∀ X' Y', cellAt bd' X' Y' =
             if (Y' =? Y) && (X' =? X) then VStr c else cellAt bd X' Y'.
Proof.
  intros (Hy & row & Hr & Hx). unfold writeCell. rewrite Hr. simpl.
  eexists. split; [done|].
  assert (Hset : js_set row X (VStr c) = <[Z.to_nat X := VStr c]> row).
  { unfold js_set. destruct (X <? 0) eqn:E1; [zb; lia|].
    destruct (Nat.ltb_spec (Z.to_nat X) (length row)); [done|lia]. }
  rewrite Hset. split.
  - unfold sameDims. change (map length) with (fmap (M := list) (length (A := value))).
    rewrite list_fmap_insert, length_insert. symmetry. apply list_insert_id.
    by rewrite list_lookup_fmap, Hr.
  - intros X' Y'. unfold cellAt. destruct (Y' <? 0) eqn:E1.
    { destruct (Y' =? Y) eqn:E2; [zb; lia|done]. }
    destruct (Y' =? Y) eqn:E2; zb; simpl.
    + subst Y'. rewrite list_lookup_insert_eq by (by eapply lookup_lt_Some).
      rewrite Hr, get_insert by lia.
      destruct (X' =? X) eqn:E3, (X' =? Z.of_nat (Z.to_nat X)) eqn:E4; zb; (done || lia).
    + rewrite list_lookup_insert_ne; [done|lia].
Qed.

Lemma paintRow_spec c p0 y row :
  ∀ x0 bd,
  (∀ (i : nat) v, row !! i = Some v → truthy v = true → 0 ≤ py p0 + y →
     inRange bd (px p0 + x0 + Z.of_nat i) (py p0 + y)) →
  ∃ M, paintRow c p0 y row x0 bd = Some M ∧ sameDims bd M ∧
    ∀ X Y, cellAt M X Y =
           if (Y =? py p0 + y) && (0 <=? Y) && truthy (get row (X - px p0 - x0))
           then VStr c else cellAt bd X Y.
Proof.
  induction row as [|v rest IH]; intros x0 bd Hin; simpl.
  { exists bd. split; [done|]. split; [done|]. intros X Y.
    unfold get, js_nth. rewrite andb_comm.
    by destruct (X - px p0 - x0 <? 0). }
  assert (Hhead : ∃ bd', (if truthy v && (0 <=? py p0 + y)
                          then writeCell bd (py p0 + y) (px p0 + x0) c
                          else Some bd) = Some bd' ∧ sameDims bd bd' ∧
            ∀ X Y, cellAt bd' X Y =
                   if (Y =? py p0 + y) && (0 <=? Y) && (X =? px p0 + x0) && truthy v
                   then VStr c else cellAt bd X Y).
  { destruct (truthy v) eqn:Hv; simpl.
    - destruct (0 <=? py p0 + y) eqn:Hy; zb.
      + destruct (writeCell_spec bd (px p0 + x0) (py p0 + y) c) as (bd' & Hw & Hd & Hc).
        { specialize (Hin 0%nat v eq_refl Hv Hy).
          by replace (px p0 + x0 + Z.of_nat 0) with (px p0 + x0) in Hin by lia. }
        exists bd'. split; [done|]. split; [done|]. intros X Y. rewrite Hc.
        destruct (Y =? py p0 + y) eqn:E1; [|done]. zb. subst Y.
        destruct (0 <=? py p0 + y) eqn:E2; [|zb; lia]. simpl.
        by rewrite andb_true_r.
      + exists bd. split; [done|]. split; [done|]. intros X Y.
        destruct (Y =? py p0 + y) eqn:E1; [|done]. zb. subst Y.
        destruct (0 <=? py p0 + y) eqn:E2; [zb; lia|done].
    - exists bd. split; [done|]. split; [done|]. intros X Y.
      by rewrite andb_false_r. }
  destruct Hhead as (bd' & -> & Hd & Hc). simpl.
  destruct (IH (x0 + 1) bd') as (M & HM & HdM & HcM).
  { intros i w Hi Hw Hy. apply (inRange_sameDims bd); [done|].
    replace (px p0 + (x0 + 1) + Z.of_nat i) with (px p0 + x0 + Z.of_nat (S i)) by lia.
    by apply (Hin (S i) w). }
  exists M. split; [done|]. split; [by eapply sameDims_trans|].
  intros X Y. rewrite HcM, Hc, get_cons.
  replace (X - px p0 - (x0 + 1)) with (X - px p0 - x0 - 1) by lia.
  destruct (Y =? py p0 + y); [|done].
  destruct (0 <=? Y); [|done]. simpl.
  destruct (X - px p0 - x0 =? 0) eqn:E1; zb.
  - destruct (X =? px p0 + x0) eqn:E2; [|zb; lia].
    replace (X - px p0 - x0 - 1) with (-1) by lia.
    change (get rest (-1)) with VUndef. simpl. by destruct (truthy v).
  - destruct (X =? px p0 + x0) eqn:E2; [zb; lia|].
    by destruct (truthy (get rest (X - px p0 - x0 - 1))).
Qed.

Lemma paintRows_spec c p0 rows :
  ∀ y0 bd,
  (∀ x y : nat, occupied rows x y → 0 ≤ py p0 + y0 + Z.of_nat y →
     inRange bd (px p0 + Z.of_nat x) (py p0 + y0 + Z.of_nat y)) →
  ∃ M, paintRows c p0 rows y0 bd = Some M ∧ sameDims bd M ∧
    ∀ X Y, cellAt M X Y =
           if (0 <=? Y) && truthy (cellAt rows (X - px p0) (Y - py p0 - y0))
           then VStr c else cellAt bd X Y.
Proof.
  induction rows as [|row rest IH]; intros y0 bd Hin; simpl.
  { exists bd. split; [done|]. split; [done|]. intros X Y.
    rewrite cellAt_nil. simpl. by rewrite andb_false_r. }
  destruct (paintRow_spec c p0 y0 row 0 bd) as (bd' & Hp & Hd & Hc).
  { intros i v Hi Hv Hy.
    replace (px p0 + 0 + Z.of_nat i) with (px p0 + Z.of_nat i) by lia.
    assert (Hz : py p0 + y0 = py p0 + y0 + Z.of_nat 0) by lia.
    rewrite Hz. apply Hin; [by exists row, v|lia]. }
  rewrite Hp. simpl.
  destruct (IH (y0 + 1) bd') as (M & HM & HdM & HcM).
  { intros x y (r & v & Hr & Hx & Hv) Hy. apply (inRange_sameDims bd); [done|].
    replace (py p0 + (y0 + 1) + Z.of_nat y) with (py p0 + y0 + Z.of_nat (S y)) in * by lia.
    apply Hin; [by exists r, v|done]. }
  exists M. split; [done|]. split; [by eapply sameDims_trans|].
  intros X Y. rewrite HcM, Hc, cellAt_cons.
  replace (Y - py p0 - (y0 + 1)) with (Y - py p0 - y0 - 1) by lia.
  replace (X - px p0 - 0) with (X - px p0) by lia.
  destruct (0 <=? Y); [|by destruct (Y =? py p0 + y0)]. simpl.
  destruct (Y - py p0 - y0 =? 0) eqn:E1; zb.
  - destruct (Y =? py p0 + y0) eqn:E2; [|zb; lia].
    replace (Y - py p0 - y0 - 1) with (-1) by lia.
    change (cellAt rest (X - px p0) (-1)) with VUndef. done.
  - destruct (Y =? py p0 + y0) eqn:E2; [zb; lia|]. simpl.
    by destruct (truthy (cellAt rest (X - px p0) (Y - py p0 - y0 - 1))).
Qed.

(** Painting a piece whose cells of rows [Y >= 0] are all cells of the
    grid raises no error, keeps the dimensions, and sets exactly the
    occupied cells of those rows to the colour. *)
Lemma paint_spec p p0 bd :
  (∀ x y : nat, occupied (shape p) x y → 0 ≤ py p0 + Z.of_nat y →
     inRange bd (px p0 + Z.of_nat x) (py p0 + Z.of_nat y)) →
  ∃ M, paint p p0 bd = Some M ∧ sameDims bd M ∧
    ∀ X Y, cellAt M X Y =
           if (0 <=? Y) && occupiedAt (shape p) p0 X Y
           then VStr (color p) else cellAt bd X Y.
Proof.
  intros Hin. unfold paint, occupiedAt.
  destruct (paintRows_spec (color p) p0 (shape p) 0 bd) as (M & HM & Hd & Hc).
  { intros x y Ho Hy.
    replace (py p0 + 0 + Z.of_nat y) with (py p0 + Z.of_nat y) in * by lia. auto. }
  exists M. split; [done|]. split; [done|]. intros X Y. rewrite Hc.
  by replace (Y - py p0 - 0) with (Y - py p0) by lia.
Qed.

(** ** Completed rows *)

Section IndexedRows.

Let complete (ir : nat * list value) : bool := rowComplete (snd ir).

Lemma reduce_completed (l : list (nat * list value)) acc :
  fold_left (λ acc ir, if rowComplete (snd ir) then acc ++ [fst ir] else acc) l acc
  = acc ++ map fst (List.filter complete l).
Proof.
  revert acc. induction l as [|ir l IH]; intros acc; simpl.
  { by rewrite app_nil_r. }
  rewrite IH. unfold complete at 2. destruct (rowComplete (snd ir)); [|done].
  by rewrite <- app_assoc.
Qed.

Lemma fst_inj_of_NoDup (l : list (nat * list value)) a b :
  NoDup (map fst l) → In a l → In b l → fst a = fst b → a = b.
Proof.
  induction l as [|ir l IH]; [done|]. simpl. intros Hnd Ha Hb Hab.
  apply NoDup_cons in Hnd as [Hnotin Hnd].
  destruct Ha as [->|Ha], Hb as [->|Hb]; [done| | |by apply IH].
  - exfalso. apply Hnotin. apply list_elem_of_In. rewrite Hab. by apply in_map.
  - exfalso. apply Hnotin. apply list_elem_of_In. rewrite <- Hab. by apply in_map.
Qed.

Lemma includes_completed (l : list (nat * list value)) ir :
  NoDup (map fst l) → In ir l →
  includes (map fst (List.filter complete l)) (fst ir) = complete ir.
Proof.
  intros Hnd Hin. unfold includes. destruct (complete ir) eqn:Hc.
  - apply existsb_exists. exists (fst ir). split; [|apply Nat.eqb_refl].
    apply in_map, filter_In. done.
  - apply not_true_is_false. intros (i & Hi & Heq)%existsb_exists.
    apply Nat.eqb_eq in Heq. apply in_map_iff in Hi as (ir' & Hfst & Hir').
    apply filter_In in Hir' as [Hir' Hc'].
    assert (ir' = ir) as -> by (apply (fst_inj_of_NoDup l); [done..|congruence]).
    congruence.
Qed.

Lemma filter_snd (P : list value → bool) (l : list (nat * list value)) :
  map snd (List.filter (λ ir, P (snd ir)) l) = List.filter P (map snd l).
Proof.
  induction l as [|ir l IH]; [done|]. simpl.
  destruct (P (snd ir)); simpl; by rewrite IH.
Qed.

End IndexedRows.

Lemma indexed_fst bd : map fst (indexed bd) = seq 0 (length bd).
Proof.
  unfold indexed. change (map fst) with (fmap (M := list) (@fst nat (list value))).
  rewrite fmap_imap, <- (list_fmap_id (seq 0 (length bd))), <- (imap_seq_0 bd id).
  by apply imap_ext.
Qed.

Lemma indexed_snd bd : map snd (indexed bd) = bd.
Proof.
  unfold indexed. change (map snd) with (fmap (M := list) (@snd nat (list value))).
  rewrite fmap_imap. transitivity (id <$> bd); [|apply list_fmap_id].
  rewrite <- (imap_const id bd). by apply imap_ext.
Qed.

(** The indices collected by [reduce] are those of the complete rows. *)
Lemma completedRows_filter bd :
  completedRows bd =
  map fst (List.filter (λ ir, rowComplete (snd ir)) (indexed bd)).
Proof. unfold completedRows. by rewrite reduce_completed. Qed.

Lemma completedRows_length bd : length (completedRows bd) = countComplete bd.
Proof.
  rewrite completedRows_filter, length_map. unfold countComplete.
  rewrite <- (length_map snd), (filter_snd rowComplete). by rewrite indexed_snd.
Qed.

(** Filtering by index keeps the rows that are not complete. *)
Lemma filteredBoard_filter bd :
  filteredBoard (completedRows bd) bd =
  List.filter (λ row, negb (rowComplete row)) bd.
Proof.
  unfold filteredBoard. rewrite completedRows_filter.
  rewrite (List.filter_ext_in _ (λ ir, negb (rowComplete (snd ir)))).
  - rewrite (filter_snd (λ row, negb (rowComplete row))). by rewrite indexed_snd.
  - intros ir Hin. f_equal. apply includes_completed; [|done].
    rewrite indexed_fst. apply NoDup_seq.
Qed.

Lemma filter_none_complete bd :
  countComplete bd = 0%nat →
  List.filter (λ row, negb (rowComplete row)) bd = bd.
Proof.
  unfold countComplete. induction bd as [|row bd IH]; [done|]. simpl.
  destruct (rowComplete row); [done|]. simpl. intros H. by rewrite IH.
Qed.

Lemma filter_split_length bd :
  (countComplete bd + length (List.filter (λ row, negb (rowComplete row)) bd)
   = length bd)%nat.
Proof.
  unfold countComplete. induction bd as [|row bd IH]; [done|]. simpl.
  destruct (rowComplete row); simpl; lia.
Qed.

(** Lines 93-106 compute [clearSpec] and add 100 per cleared row. *)
Lemma clearLines_spec bd sc :
  clearLines bd sc = (clearSpec bd, sc + 100 * Z.of_nat (countComplete bd)).
Proof.
  unfold clearLines, clearSpec.
  rewrite completedRows_length, filteredBoard_filter.
  destruct (Nat.ltb_spec 0 (countComplete bd)) as [Hpos|Hzero].
  - f_equal. lia.
  - assert (Hk : countComplete bd = 0%nat) by lia.
    rewrite Hk, filter_none_complete by done. simpl. f_equal. lia.
Qed.

Lemma clearSpec_length bd : length (clearSpec bd) = length bd.
Proof.
  unfold clearSpec. rewrite length_app, length_replicate.
  apply filter_split_length.
Qed.

Lemma clearSpec_widths bd :
  Forall (λ row, length row = Z.to_nat BOARD_WIDTH) bd →
  Forall (λ row, length row = Z.to_nat BOARD_WIDTH) (clearSpec bd).
Proof.
  intros Hw. unfold clearSpec. apply Forall_app. split.
  - apply Forall_replicate. reflexivity.
  - apply Forall_forall. intros row Hin%list_elem_of_In%filter_In.
    rewrite Forall_forall in Hw. apply Hw, list_elem_of_In, Hin.
Qed.

Lemma wellSized_widths bd :
  wellSized bd ↔
  length bd = Z.to_nat BOARD_HEIGHT ∧
  Forall (λ row, length row = Z.to_nat BOARD_WIDTH) bd.
Proof.
  unfold wellSized. generalize (Z.to_nat BOARD_HEIGHT) as n.
  generalize (Z.to_nat BOARD_WIDTH) as w. intros w.
  induction bd as [|row bd IH]; intros [|n]; simpl.
  - split; [by split|done].
  - split; [done|]. by intros [? _].
  - split; [done|]. by intros [? _].
  - rewrite Forall_cons. split.
    + intros [= Hr Hbd]. apply IH in Hbd as [? ?]. split; [lia|done].
    + intros [Hlen [Hr Hbd]]. f_equal; [done|]. apply IH. split; [lia|done].
Qed.

Lemma wellSized_clearSpec bd : wellSized bd → wellSized (clearSpec bd).
Proof.
  rewrite !wellSized_widths. intros [Hlen Hw]. split.
  - by rewrite clearSpec_length.
  - by apply clearSpec_widths.
Qed.

(** ** Rectangular masks and the rotation *)

Lemma rect_length r c sh : rect r c sh → length sh = r.
Proof.
  unfold rect. intros H. rewrite <- (length_map length sh), H.
  apply length_replicate.
Qed.

Lemma rect_lookup r c sh i :
  rect r c sh → (i < r)%nat → ∃ row, sh !! i = Some row ∧ length row = c.
Proof.
  unfold rect. intros H Hi.
  assert (Hl : map length sh !! i = Some c).
  { rewrite H. by apply lookup_replicate_2. }
  change (map length sh) with (length <$> sh) in Hl.
  rewrite list_lookup_fmap in Hl. destruct (sh !! i) as [row|]; [|done].
  exists row. simpl in Hl. split; congruence.
Qed.

Lemma rect_intro r c sh :
  length sh = r → (∀ i row, sh !! i = Some row → length row = c) → rect r c sh.
Proof.
  unfold rect. revert r. induction sh as [|row sh IH]; intros r Hlen Hrows;
    simpl in Hlen; subst r; [done|]. simpl. f_equal.
  - by apply (Hrows 0%nat).
  - apply IH; [done|]. intros i row' Hi. by apply (Hrows (S i)).
Qed.

Lemma rect_entry r c sh i j :
  rect r c sh → (i < r)%nat → (j < c)%nat → ∃ v, entry sh i j = Some v.
Proof.
  intros Hr Hi Hj. destruct (rect_lookup _ _ _ _ Hr Hi) as (row & Hrow & Hlen).
  unfold entry. rewrite Hrow. simpl. apply lookup_lt_is_Some_2. lia.
Qed.

(** Two rectangular masks of the same dimensions with the same entries
    are equal. *)
Lemma rect_ext r c m m' :
  rect r c m → rect r c m' →
  (∀ i j, (i < r)%nat → (j < c)%nat → entry m i j = entry m' i j) → m = m'.
Proof.
  intros Hm Hm' Hent. apply list_eq. intros i.
  destruct (Nat.lt_ge_cases i r) as [Hi|Hi].
  - destruct (rect_lookup _ _ _ _ Hm Hi) as (row & Hrow & Hlen).
    destruct (rect_lookup _ _ _ _ Hm' Hi) as (row' & Hrow' & Hlen').
    rewrite Hrow, Hrow'. f_equal. apply list_eq. intros j.
    destruct (Nat.lt_ge_cases j c) as [Hj|Hj].
    + specialize (Hent i j Hi Hj). unfold entry in Hent.
      by rewrite Hrow, Hrow' in Hent.
    + rewrite !lookup_ge_None_2; [done|lia..].
  - rewrite !lookup_ge_None_2; [done|..].
    + by rewrite (rect_length _ _ _ Hm').
    + by rewrite (rect_length _ _ _ Hm).
Qed.

(** Lines 136-138 on a rectangular mask with at least one row: the result
    has the dimensions swapped, and its entry [(i, j)] is the entry
    [(r - 1 - j, i)] of the mask. *)
Lemma rotateShape_entry r c sh :
  rect r c sh → (0 < r)%nat →
  ∃ sh', rotateShape sh = Some sh' ∧ rect c r sh' ∧
    ∀ i j, (i < c)%nat → (j < r)%nat →
      entry sh' i j = entry sh (r - 1 - j) i.
Proof.
  intros Hr Hpos.
  destruct (rect_lookup _ _ _ _ Hr Hpos) as (row0 & Hrow0 & Hlen0).
  destruct sh as [|row0' rest]; [done|]. injection Hrow0 as ->.
  unfold rotateShape. eexists. split; [done|].
  set (sh := row0 :: rest) in *.
  assert (Hr' : length sh = r) by by eapply rect_length.
  clearbody sh. split.
  - apply rect_intro; [by rewrite length_imap|].
    intros i row [v [_ ->]]%list_lookup_imap_Some.
    by rewrite length_reverse, length_map.
  - intros i j Hi Hj. unfold entry. rewrite list_lookup_imap.
    destruct (lookup_lt_is_Some_2 row0 i) as [v0 Hv0]; [lia|].
    rewrite Hv0. simpl. rewrite reverse_lookup by (rewrite length_map; lia).
    rewrite length_map, Hr'.
    change (map (λ row, js_nth row i) sh) with ((λ row, js_nth row i) <$> sh).
    rewrite list_lookup_fmap.
    replace (r - S j)%nat with (r - 1 - j)%nat by lia.
    destruct (rect_lookup r c sh (r - 1 - j) Hr) as (row & Hrow & Hlen); [lia|].
    rewrite Hrow. simpl. unfold js_nth.
    destruct (lookup_lt_is_Some_2 row i) as [v Hv]; [lia|]. by rewrite Hv.
Qed.

Lemma transpose_rect r c sh : rect r c sh → rect c r (transpose c sh).
Proof.
  revert r. induction sh as [|row rest IH]; intros r Hr.
  - apply rect_length in Hr as <-. simpl. apply rect_intro.
    + apply length_replicate.
    + by intros i row [-> _]%lookup_replicate.
  - destruct r as [|r]; [done|]. injection Hr as Hrow Hrest.
    specialize (IH r Hrest). simpl. apply rect_intro.
    + rewrite length_zip_with, (rect_length _ _ _ IH). lia.
    + intros i col (v & col' & -> & Hv & Hcol)%lookup_zip_with_Some. simpl.
      destruct (rect_lookup c r (transpose c rest) i IH) as (col'' & Hc & Hl).
      { rewrite <- Hrow. by eapply lookup_lt_Some. }
      assert (col'' = col') by congruence. subst col''. lia.
Qed.

Lemma transpose_entry r c sh i j :
  rect r c sh → (i < c)%nat → (j < r)%nat →
  entry (transpose c sh) i j = entry sh j i.
Proof.
  revert r j. induction sh as [|row rest IH]; intros r j Hr Hi Hj.
  { apply rect_length in Hr. simpl in Hr. lia. }
  destruct r as [|r]; [done|]. pose proof Hr as Hr0. injection Hr as Hrow Hrest.
  pose proof (transpose_rect _ _ _ Hrest) as Ht.
  destruct (rect_lookup c r (transpose c rest) i Ht Hi) as (col & Hcol & Hlen).
  destruct (lookup_lt_is_Some_2 row i) as [v Hv]; [lia|].
  unfold entry. simpl. rewrite lookup_zip_with, Hv, Hcol. simpl.
  destruct j as [|j]; simpl; [done|].
  specialize (IH r j Hrest Hi). unfold entry in IH. rewrite Hcol in IH.
  simpl in IH. apply IH. lia.
Qed.

Lemma rotateSpec_rect r c sh : rect r c sh → rect c r (rotateSpec c sh).
Proof.
  intros Hr. pose proof (transpose_rect _ _ _ Hr) as Ht. unfold rotateSpec.
  apply rect_intro.
  - by rewrite length_map, (rect_length _ _ _ Ht).
  - intros i row Hi. change (map reverse) with (fmap (M := list) (@reverse value)) in Hi.
    rewrite list_lookup_fmap in Hi.
    destruct (transpose c sh !! i) as [col|] eqn:Hcol; [|done].
    injection Hi as <-. rewrite length_reverse.
    destruct (rect_lookup c r (transpose c sh) i Ht) as (col' & Hc & Hl).
    { rewrite <- (rect_length _ _ _ Ht). by eapply lookup_lt_Some. }
    congruence.
Qed.

Lemma rotateSpec_entry r c sh i j :
  rect r c sh → (i < c)%nat → (j < r)%nat →
  entry (rotateSpec c sh) i j = entry sh (r - 1 - j) i.
Proof.
  intros Hr Hi Hj. pose proof (transpose_rect _ _ _ Hr) as Ht.
  rewrite <- (transpose_entry r c sh i (r - 1 - j) Hr Hi) by lia.
  unfold entry, rotateSpec.
  change (map reverse) with (fmap (M := list) (@reverse value)).
  rewrite list_lookup_fmap.
  destruct (rect_lookup c r (transpose c sh) i Ht Hi) as (col & Hcol & Hlen).
  rewrite Hcol. simpl. rewrite reverse_lookup by lia. f_equal. lia.
Qed.

(** The code computes the transpose with every row reversed. *)
Lemma rotateShape_rotateSpec r c sh :
  rect r c sh → (0 < r)%nat → rotateShape sh = Some (rotateSpec c sh).
Proof.
  intros Hr Hpos.
  destruct (rotateShape_entry r c sh Hr Hpos) as (sh' & -> & Hr' & Hent).
  f_equal. apply (rect_ext c r); [done|by apply rotateSpec_rect|].
  intros i j Hi Hj. rewrite Hent by done. symmetry. by apply rotateSpec_entry.
Qed.

(** Four rotations of a rectangular mask with at least one row and one
    column give the mask back. *)
Lemma rotateN_four r c sh :
  rect r c sh → (0 < r)%nat → (0 < c)%nat → rotateN 4 sh = Some sh.
Proof.
  intros Hr Hrpos Hcpos. simpl.
  destruct (rotateShape_entry r c sh Hr Hrpos) as (s1 & -> & Hr1 & He1). simpl.
  destruct (rotateShape_entry c r s1 Hr1 Hcpos) as (s2 & -> & Hr2 & He2). simpl.
  destruct (rotateShape_entry r c s2 Hr2 Hrpos) as (s3 & -> & Hr3 & He3). simpl.
  destruct (rotateShape_entry c r s3 Hr3 Hcpos) as (s4 & -> & Hr4 & He4). simpl.
  f_equal. apply (rect_ext r c); [done..|]. intros i j Hi Hj.
  rewrite He4, He3, He2, He1 by lia. f_equal; lia.
Qed.

(** ** What a negative answer of isColliding means *)

Lemma isColliding_total bd p p0 :
  wellSized bd → ∃ b, isColliding bd p p0 = Some b.
Proof.
  intros Hw. destruct (isColliding_blocked bd p p0) as (b & Hb & _).
  { by rewrite (wellSized_length _ Hw). }
  by exists b.
Qed.

Lemma notColliding_cells bd p p0 :
  wellSized bd → isColliding bd p p0 = Some false →
  ∀ x y : nat, occupied (shape p) x y →
    0 ≤ px p0 + Z.of_nat x < BOARD_WIDTH ∧ py p0 + Z.of_nat y < BOARD_HEIGHT ∧
    (0 ≤ py p0 + Z.of_nat y →
     filled bd (px p0 + Z.of_nat x) (py p0 + Z.of_nat y) = false).
Proof.
  intros Hw Hc x y Ho. destruct (isColliding_blocked bd p p0) as (b & Hb & Hiff).
  { by rewrite (wellSized_length _ Hw). }
  assert (b = false) as -> by congruence.
  assert (Hnot : ¬ blocked bd (px p0 + Z.of_nat x) (py p0 + Z.of_nat y)).
  { intros Hbl. destruct Hiff as [_ Hiff]. discriminate Hiff. by exists x, y. }
  unfold blocked in Hnot.
  split; [lia|]. split; [lia|]. intros Hy.
  destruct (filled bd _ _) eqn:Hf; [|done]. exfalso. apply Hnot. auto.
Qed.

Lemma filled_createBoard X Y : filled createBoard X Y = false.
Proof.
  unfold filled, cellAt. destruct (Y <? 0); [done|].
  destruct (createBoard !! Z.to_nat Y) as [row|] eqn:Hrow; [|done].
  apply lookup_replicate in Hrow as [-> _].
  unfold get, js_nth. destruct (X <? 0); [done|].
  destruct (emptyRow !! Z.to_nat X) as [v|] eqn:Hv; [|done].
  by apply lookup_replicate in Hv as [-> _].
Qed.

(** [withinWalls] in coordinates. *)
Lemma withinWalls_cells p p0 :
  withinWalls p p0 ↔
  ∀ x y : nat, occupied (shape p) x y →
    0 ≤ px p0 + Z.of_nat x < BOARD_WIDTH ∧ py p0 + Z.of_nat y < BOARD_HEIGHT.
Proof.
  unfold withinWalls. split.
  - intros Hc x y Ho.
    destruct (notColliding_cells createBoard p p0 wellSized_createBoard Hc x y Ho)
      as (? & ? & _). done.
  - intros Hcells.
    destruct (isColliding_blocked createBoard p p0) as (b & Hb & Hiff); [done|].
    rewrite Hb. f_equal. destruct b; [|done]. destruct Hiff as [Hiff _].
    destruct (Hiff eq_refl) as (x & y & Ho & Hbl). specialize (Hcells x y Ho).
    unfold blocked in Hbl. rewrite filled_createBoard in Hbl.
    destruct Hbl as [?|[?|[?|[_ ?]]]]; (lia || done).
Qed.

Lemma notColliding_withinWalls bd p p0 :
  wellSized bd → isColliding bd p p0 = Some false → withinWalls p p0.
Proof.
  intros Hw Hc. apply withinWalls_cells. intros x y Ho.
  destruct (notColliding_cells bd p p0 Hw Hc x y Ho) as (? & ? & _). done.
Qed.

(** ** The templates *)

Lemma templates_cases p :
  In p templates →
  p ∈ [ mkPiece [[VNum 1; VNum 1; VNum 1; VNum 1]] "#00f0f0";
        mkPiece [[VNum 1; VNum 0; VNum 0]; [VNum 1; VNum 1; VNum 1]] "#0000f0";
        mkPiece [[VNum 0; VNum 0; VNum 1]; [VNum 1; VNum 1; VNum 1]] "#f0a000";
        mkPiece [[VNum 1; VNum 1]; [VNum 1; VNum 1]] "#f0f000";
        mkPiece [[VNum 0; VNum 1; VNum 1]; [VNum 1; VNum 1; VNum 0]] "#00f000";
        mkPiece [[VNum 0; VNum 1; VNum 0]; [VNum 1; VNum 1; VNum 1]] "#a000f0";
        mkPiece [[VNum 1; VNum 1; VNum 0]; [VNum 0; VNum 1; VNum 1]] "#f00000" ].
Proof. intros H. by apply list_elem_of_In. Qed.

Ltac each_template H :=
  apply templates_cases in H;
  repeat (apply elem_of_cons in H as [->|H]);
  [..|by apply elem_of_nil in H].

Lemma templates_withinWalls p : In p templates → withinWalls p spawnPosition.
Proof. intros H. each_template H; reflexivity. Qed.

Lemma templates_shapeOK p : In p templates → shapeOK p.
Proof.
  intros H. each_template H;
    [exists 1%nat, 4%nat | exists 2%nat, 3%nat | exists 2%nat, 3%nat
    | exists 2%nat, 2%nat | exists 2%nat, 3%nat | exists 2%nat, 3%nat
    | exists 2%nat, 3%nat]; (split; [lia|]); (split; [lia|]); reflexivity.
Qed.

Lemma templates_pieceOK p : In p templates → pieceOK p.
Proof.
  intros H. split; [by apply templates_shapeOK|]. each_template H; done.
Qed.

Lemma lookupKey_In k t p : lookupKey k t = Some p → In p (map snd t).
Proof.
  induction t as [|[k' p'] t IH]; [done|]. simpl.
  destruct (String.eqb k k'); [intros [= ->]; by left|]. intros H. right. auto.
Qed.

Lemma getRandomTetromino_templates r p :
  getRandomTetromino r = Some p → In p templates.
Proof.
  unfold getRandomTetromino.
  destruct (_ <? 0); [done|]. destruct (_ !! _); [|done]. apply lookupKey_In.
Qed.

(** With [Math.random()] in [0, 1) the index is one of the seven keys. *)
Lemma getRandomTetromino_Some (r : Q) :
  (0 <= r)%Q → (r < 1)%Q → ∃ p, getRandomTetromino r = Some p.
Proof.
  intros H0 H1. unfold getRandomTetromino.
  set (i := Qfloor _).
  assert (Hi : 0 ≤ i < 7).
  { subst i. simpl length. split.
    - change 0 with (Qfloor (inject_Z 0)). apply Qfloor_resp_le.
      apply Qmult_le_0_compat; [done|]. by unfold Qle.
    - apply Z.lt_nge. intros Hge.
      assert (Hq : (inject_Z 7 <= r * inject_Z 7)%Q).
      { eapply Qle_trans; [|apply Qfloor_le]. by rewrite <- Zle_Qle. }
      assert (Hlt : (r * inject_Z 7 < 1 * inject_Z 7)%Q).
      { apply Qmult_lt_compat_r; [reflexivity|done]. }
      apply (Qlt_irrefl (inject_Z 7)). eapply Qle_lt_trans; [exact Hq|].
      eapply Qlt_le_trans; [exact Hlt|]. rewrite Qmult_1_l. apply Qle_refl. }
  clearbody i. destruct (i <? 0) eqn:E; [zb; lia|].
  assert (Hcase : i = 0 ∨ i = 1 ∨ i = 2 ∨ i = 3 ∨ i = 4 ∨ i = 5 ∨ i = 6) by lia.
  destruct Hcase as [->|[->|[->|[->|[->|[->| ->]]]]]]; by eexists.
Qed.

(** ** The callbacks, case by case *)

Lemma moveDown_free s p :
  currentPiece s = Some p →
  isColliding (board s) p (down (position s)) = Some false →
  moveDown s = Some (withPosition s (down (position s))).
Proof. unfold moveDown, down, withPosition. intros -> Hc. by rewrite Hc. Qed.

Lemma moveDown_gameOver s p :
  currentPiece s = Some p →
  isColliding (board s) p (down (position s)) = Some true →
  py (position s) < 1 →
  moveDown s = Some (withGameOver s).
Proof.
  unfold moveDown, down, withGameOver. intros Hp Hc Hy. rewrite Hp, Hc. simpl.
  destruct (py (position s) <? 1) eqn:E; [done|zb; lia].
Qed.

Lemma moveDown_lock s p :
  currentPiece s = Some p →
  isColliding (board s) p (down (position s)) = Some true →
  1 ≤ py (position s) →
  moveDown s = mergePieceToBoard s.
Proof.
  unfold moveDown, down. intros -> Hc Hy. rewrite Hc. simpl.
  destruct (py (position s) <? 1) eqn:E; [zb; lia|done].
Qed.

Lemma moveHorizontally_free dir s p :
  currentPiece s = Some p →
  isColliding (board s) p (sideways dir (position s)) = Some false →
  moveHorizontally dir s = Some (withPosition s (sideways dir (position s))).
Proof.
  unfold moveHorizontally, sideways, withPosition. intros -> Hc. by rewrite Hc.
Qed.

Lemma moveHorizontally_blocked dir s p :
  currentPiece s = Some p →
  isColliding (board s) p (sideways dir (position s)) = Some true →
  moveHorizontally dir s = Some s.
Proof. unfold moveHorizontally, sideways. intros -> Hc. by rewrite Hc. Qed.

(** A lock of a piece that lies within the walls: the painted board, and
    the state that [mergePieceToBoard] sets. *)
Lemma mergePieceToBoard_spec s p :
  currentPiece s = Some p →
  wellSized (board s) →
  withinWalls p (position s) →
  ∃ M, paint p (position s) (board s) = Some M ∧ wellSized M ∧
       (∀ X Y, cellAt M X Y =
               if (0 <=? Y) && occupiedAt (shape p) (position s) X Y
               then VStr (color p) else cellAt (board s) X Y) ∧
       mergePieceToBoard s = Some (locked s M).
Proof.
  intros Hp Hw Hfit.
  destruct (paint_spec p (position s) (board s)) as (M & HM & Hd & Hc).
  { intros x y Ho Hy. rewrite withinWalls_cells in Hfit.
    destruct (Hfit x y Ho). by apply wellSized_inRange. }
  exists M. split; [done|]. split; [by eapply wellSized_sameDims|].
  split; [done|]. unfold mergePieceToBoard. rewrite Hp, HM. simpl.
  by rewrite clearLines_spec.
Qed.

(** ** The cells of the board *)

Lemma cellsOK_cellAt bd :
  cellsOK bd ↔ ∀ X Y, inRange bd X Y → cellOK (cellAt bd X Y).
Proof.
  unfold cellsOK. split.
  - intros Hok X Y (Hy & row & Hrow & Hx).
    destruct (lookup_lt_is_Some_2 row (Z.to_nat X)) as [v Hv]; [lia|].
    rewrite <- (Z2Nat.id X), <- (Z2Nat.id Y) by lia.
    rewrite (cellAt_lookup _ _ _ _ _ Hrow Hv).
    rewrite Forall_lookup in Hok. specialize (Hok _ _ Hrow).
    rewrite Forall_lookup in Hok. by apply (Hok _ _ Hv).
  - intros Hcell. apply Forall_lookup. intros y row Hrow.
    apply Forall_lookup. intros x v Hv.
    rewrite <- (cellAt_lookup _ _ _ _ _ Hrow Hv). apply Hcell.
    split; [lia|]. exists row. rewrite Nat2Z.id. split; [done|].
    apply lookup_lt_Some in Hv. lia.
Qed.

Lemma cellsOK_createBoard : cellsOK createBoard.
Proof.
  apply Forall_replicate, Forall_replicate. by left.
Qed.

(** Painting a coloured piece keeps the cells well formed. *)
Lemma paint_cellsOK bd p p0 M :
  wellSized bd → cellsOK bd → withinWalls p p0 → color p ≠ EmptyString →
  paint p p0 bd = Some M → cellsOK M.
Proof.
  intros Hw Hok Hfit Hcol HM.
  destruct (paint_spec p p0 bd) as (M' & HM' & Hd & Hc).
  { intros x y Ho Hy. rewrite withinWalls_cells in Hfit.
    destruct (Hfit x y Ho). by apply wellSized_inRange. }
  assert (M' = M) as -> by congruence.
  apply cellsOK_cellAt. intros X Y Hin. rewrite Hc.
  destruct (_ && _); [right; by exists (color p)|].
  rewrite cellsOK_cellAt in Hok. apply Hok.
  apply (inRange_sameDims M); [|done]. unfold sameDims in *. congruence.
Qed.

Lemma clearSpec_cellsOK bd : cellsOK bd → cellsOK (clearSpec bd).
Proof.
  unfold cellsOK, clearSpec. intros Hok. apply Forall_app. split.
  - apply Forall_replicate, Forall_replicate. by left.
  - apply Forall_forall. intros row Hin%list_elem_of_In%filter_In.
    rewrite Forall_forall in Hok. apply Hok, list_elem_of_In, Hin.
Qed.

(** On well-formed cells [cell !== 0] says that the cell is filled. *)
Lemma cellOK_strict_ne_zero v : cellOK v → strict_ne_zero v = truthy v.
Proof.
  intros [->|(c & -> & Hc)]; [done|]. simpl.
  destruct c; [done|reflexivity].
Qed.

Lemma rowComplete_filled row :
  Forall cellOK row → rowComplete row = forallb truthy row.
Proof.
  unfold rowComplete. induction 1 as [|v row Hv _ IH]; [done|]. simpl.
  by rewrite IH, cellOK_strict_ne_zero.
Qed.

(** ** The invariant of runs *)

Lemma inv_initialState : inv initialState.
Proof.
  split; [reflexivity|]. split; [apply cellsOK_createBoard|]. by intros p.
Qed.

Lemma inv_withPosition s p p0 :
  inv s → currentPiece s = Some p →
  isColliding (board s) p p0 = Some false → inv (withPosition s p0).
Proof.
  intros (Hw & Hcells & Hp) Hcur Hc. split; [done|]. split; [done|].
  simpl. intros q Hq.
  assert (q = p) as -> by congruence.
  destruct (Hp p Hcur) as [Hshape _]. split; [done|]. by left.
Qed.

Lemma inv_withGameOver s : inv s → inv (withGameOver s).
Proof. intros (Hw & Hcells & Hp). split; [done|]. by split. Qed.

Lemma inv_locked s M : wellSized M → cellsOK M → inv (locked s M).
Proof.
  intros Hw Hcells. split; [by apply wellSized_clearSpec|].
  split; [by apply clearSpec_cellsOK|]. by intros p.
Qed.

(** A piece that has left the spawn row does not collide where it is. *)
Lemma pieceInv_below s p :
  pieceInv s p → 1 ≤ py (position s) →
  isColliding (board s) p (position s) = Some false.
Proof.
  intros [_ [Hc|[Hpos _]]] Hy; [done|]. rewrite Hpos in Hy. simpl in Hy. lia.
Qed.

Lemma pieceInv_withinWalls s p :
  wellSized (board s) → pieceInv s p → withinWalls p (position s).
Proof.
  intros Hw [_ [Hc|[-> Hin]]].
  - by eapply notColliding_withinWalls.
  - by apply templates_withinWalls.
Qed.

Lemma moveDown_inv s : inv s → ∃ s', moveDown s = Some s' ∧ inv s'.
Proof.
  intros Hinv. pose proof Hinv as (Hw & Hcells & Hp).
  destruct (currentPiece s) as [p|] eqn:Hcur.
  - destruct (isColliding_total (board s) p (down (position s)) Hw) as [[|] Hc].
    + destruct (Z.lt_ge_cases (py (position s)) 1) as [Hy|Hy].
      * rewrite (moveDown_gameOver s p) by done. eexists. split; [done|].
        by apply inv_withGameOver.
      * rewrite (moveDown_lock s p) by done.
        assert (Hfit : withinWalls p (position s))
          by (apply pieceInv_withinWalls; auto).
        destruct (mergePieceToBoard_spec s p Hcur Hw Hfit) as (M & HM & HwM & _ & ->).
        eexists. split; [done|]. apply inv_locked; [done|].
        destruct (Hp p eq_refl) as [[_ Hcol] _].
        by apply (paint_cellsOK (board s) p (position s)).
    + rewrite (moveDown_free s p) by done. eexists. split; [done|].
      by apply (inv_withPosition s p).
  - exists s. unfold moveDown. by rewrite Hcur.
Qed.

Lemma moveHorizontally_inv dir s :
  inv s → ∃ s', moveHorizontally dir s = Some s' ∧ inv s'.
Proof.
  intros Hinv. pose proof Hinv as (Hw & Hcells & Hp).
  destruct (currentPiece s) as [p|] eqn:Hcur.
  - destruct (isColliding_total (board s) p (sideways dir (position s)) Hw) as [[|] Hc].
    + rewrite (moveHorizontally_blocked dir s p) by done. by exists s.
    + rewrite (moveHorizontally_free dir s p) by done. eexists. split; [done|].
      by apply (inv_withPosition s p).
  - exists s. unfold moveHorizontally. by rewrite Hcur.
Qed.

Lemma rotatePiece_inv s : inv s → ∃ s', rotatePiece s = Some s' ∧ inv s'.
Proof.
  intros Hinv. pose proof Hinv as (Hw & Hcells & Hp). unfold rotatePiece.
  destruct (currentPiece s) as [p|] eqn:Hcur; [|by exists s].
  destruct (Hp p eq_refl) as [[(r & c & Hr & Hc & Hrect) Hcolor] _].
  destruct (rotateShape_entry r c (shape p) Hrect Hr) as (sh' & -> & Hrect' & _).
  simpl.
  destruct (isColliding_total (board s) {| shape := sh'; color := color p |}
              (position s) Hw) as [[|] Hcol]; rewrite Hcol; simpl.
  - by exists s.
  - eexists. split; [done|]. split; [done|]. split; [done|].
    simpl. intros q [= <-]. split; [|by left].
    split; [by exists c, r|done].
Qed.

Lemma spawnEffect_inv r s : inv s → inv (spawnEffect r s).
Proof.
  intros Hinv. pose proof Hinv as (Hw & Hcells & Hp). unfold spawnEffect.
  destruct (gameOver s); [done|].
  destruct (currentPiece s) as [p|] eqn:Hcur; [done|].
  split; [done|]. split; [done|].
  simpl. intros p Hr. apply getRandomTetromino_templates in Hr.
  split; [by apply templates_pieceOK|]. by right.
Qed.

(** No event raises an error in a state that satisfies the invariant, and
    the invariant holds afterwards. *)
Lemma step_inv e s : inv s → ∃ s', step e s = Some s' ∧ inv s'.
Proof.
  intros Hinv. destruct e as [r| |k|]; simpl.
  - eexists. split; [done|]. by apply spawnEffect_inv.
  - unfold tick. destruct (gameOver s); [by exists s|]. by apply moveDown_inv.
  - unfold handleKeyPress. destruct (gameOver s); [by exists s|].
    destruct (String.eqb k "ArrowLeft"); [by apply moveHorizontally_inv|].
    destruct (String.eqb k "ArrowRight"); [by apply moveHorizontally_inv|].
    destruct (String.eqb k "ArrowDown"); [by apply moveDown_inv|].
    destruct (String.eqb k "ArrowUp"); [by apply rotatePiece_inv|].
    by exists s.
  - eexists. split; [done|]. apply inv_initialState.
Qed.

Lemma reachable_inv s : reachable s → inv s.
Proof.
  induction 1 as [|e s s' _ IH _ Hstep]; [apply inv_initialState|].
  destruct (step_inv e s IH) as (s'' & Hs & Hinv). congruence.
Qed.

(** A run of valid events from a reachable state ends in a reachable state. *)
Lemma run_reachable es : ∀ s s',
  reachable s → Forall validEvent es → run es s = Some s' → reachable s'.
Proof.
  induction es as [|e es IH]; intros s s' Hs Hv Hrun; simpl in Hrun.
  { by injection Hrun as <-. }
  apply Forall_cons in Hv as [He Hv].
  destruct (step e s) as [s1|] eqn:Hstep; [|done]. simpl in Hrun.
  apply (IH s1); [|done..]. by eapply reachable_step.
Qed.

(** ** Complete rows and filled rows *)

Lemma cellOKb_cellOK v : cellOKb v = true → cellOK v.
Proof.
  destruct v as [n|c|]; simpl; [| |done].
  - intros Hn. zb. subst n. by left.
  - intros Hc. right. exists c. split; [done|]. intros ->. done.
Qed.

(** A grid that passes the test cell by cell has well-formed cells. *)
Lemma cellsOK_check bd : forallb (forallb cellOKb) bd = true → cellsOK bd.
Proof.
  unfold cellsOK. intros Hb. apply Forall_forall. intros row Hrow.
  apply Forall_forall. intros v Hv.
  rewrite forallb_forall in Hb. specialize (Hb row (proj1 (list_elem_of_In _ _) Hrow)).
  rewrite forallb_forall in Hb. apply cellOKb_cellOK, Hb.
  by apply list_elem_of_In.
Qed.

(** On well-formed cells the code's test [cell !== 0] on every cell says
    that every cell is filled. *)
Lemma filter_complete_filled bd :
  cellsOK bd → List.filter rowComplete bd = List.filter rowFilled bd.
Proof.
  unfold cellsOK. intros Hok. apply List.filter_ext_in. intros row Hin.
  rewrite Forall_forall in Hok. apply rowComplete_filled, Hok.
  by apply list_elem_of_In.
Qed.

Lemma countComplete_filled bd : cellsOK bd → countComplete bd = countFilledRows bd.
Proof.
  intros Hok. unfold countComplete, countFilledRows.
  by rewrite filter_complete_filled.
Qed.

Lemma clearSpec_filled bd :
  cellsOK bd →
  clearSpec bd = replicate (countFilledRows bd) emptyRow ++
                 List.filter (λ row, negb (rowFilled row)) bd.
Proof.
  intros Hok. unfold clearSpec. rewrite (countComplete_filled bd Hok). f_equal.
  unfold cellsOK in Hok. apply List.filter_ext_in. intros row Hin. f_equal.
  rewrite Forall_forall in Hok. apply rowComplete_filled, Hok.
  by apply list_elem_of_In.
Qed.

(** ** Runs raise no error *)

(** In every reachable state the board has 20 rows of 10 well-formed
    cells, and an active piece has a rectangular mask, a colour, and lies
    within the walls. *)
Corollary reachable_wellFormed s :
  reachable s →
  wellSized (board s) ∧ cellsOK (board s) ∧
  ∀ p, currentPiece s = Some p → pieceOK p ∧ withinWalls p (position s).
Proof.
  intros (Hw & Hcells & Hp)%reachable_inv. split; [done|]. split; [done|].
  intros p Hcur. specialize (Hp p Hcur). split; [by destruct Hp|].
  by apply pieceInv_withinWalls.
Qed.

(** No event raises a [TypeError] in a reachable state. *)
Corollary reachable_step_total s e :
  reachable s → ∃ s', step e s = Some s'.
Proof.
  intros Hinv%reachable_inv. destruct (step_inv e s Hinv) as (s' & Hs & _).
  by exists s'.
Qed.

(** On the boards of a run, a row is complete exactly when all its cells
    are filled. *)
Corollary reachable_rowComplete s row :
  reachable s → In row (board s) →
  rowComplete row = forallb truthy row.
Proof.
  intros (_ & Hcells & _)%reachable_inv Hin. apply rowComplete_filled.
  unfold cellsOK in Hcells. rewrite Forall_forall in Hcells.
  by apply Hcells, list_elem_of_In.
Qed.

(** A mask without rows, or without columns, cannot be rotated four
    times: [shape[0]] is [undefined] at the first or at the second
    rotation. *)
Remark rotate_degenerate :
  rotateN 4 [] = None ∧ rotateN 4 [[]; []] = None.
Proof. by split. Qed.

(** * The claims of the specification *)

(** ** Collision query *)

(** C1.  On a board of (at least) [BOARD_HEIGHT] rows, [isColliding]
    returns true if and only if some occupied mask cell, at its absolute
    coordinates [(pos.x + x, pos.y + y)], has x < 0, x >= width,
    y >= height, or y >= 0 with the grid cell there filled.  Occupied cells
    with y < 0 are not tested against the grid: when all of them are above
    the top, the answer is that of the horizontal bounds alone, on any
    board whatever. *)
Theorem isColliding_correct bd p p0 :
  (Z.to_nat BOARD_HEIGHT ≤ length bd)%nat →
  (∃ b, isColliding bd p p0 = Some b ∧
        (b = true ↔
         ∃ x y : nat, occupied (shape p) x y ∧
           let X := px p0 + Z.of_nat x in
           let Y := py p0 + Z.of_nat y in
           X < 0 ∨ BOARD_WIDTH ≤ X ∨ BOARD_HEIGHT ≤ Y ∨
           (0 ≤ Y ∧ filled bd X Y = true))) ∧
  ((∀ x y : nat, occupied (shape p) x y → py p0 + Z.of_nat y < 0) →
   ∀ bd', ∃ b, isColliding bd' p p0 = Some b ∧
        (b = true ↔
         ∃ x y : nat, occupied (shape p) x y ∧
           (px p0 + Z.of_nat x < 0 ∨ BOARD_WIDTH ≤ px p0 + Z.of_nat x))).
Proof.
  intros Hlen. split.
  - exact (isColliding_blocked bd p p0 Hlen).
  - intros Habove bd'. exact (isColliding_above bd' p p0 Habove).
Qed.

Lemma isColliding_correct_witness :
  (Z.to_nat BOARD_HEIGHT ≤ length blockBoard)%nat ∧
  ∃ b, isColliding blockBoard pieceO {| px := 4; py := 17 |} = Some b ∧
       (b = true ↔
        ∃ x y : nat, occupied (shape pieceO) x y ∧
          let X := 4 + Z.of_nat x in
          let Y := 17 + Z.of_nat y in
          X < 0 ∨ BOARD_WIDTH ≤ X ∨ BOARD_HEIGHT ≤ Y ∨
          (0 ≤ Y ∧ filled blockBoard X Y = true)).
Proof.
  split; [vm_compute; lia|].
  apply (isColliding_correct blockBoard pieceO {| px := 4; py := 17 |}).
  vm_compute; lia.
Defined.

(** ** Gravity tick *)

(** C2.  In a state with an active piece that lies within the walls of a
    20x10 board whose cells are 0 or a colour, when the tick finds that
    one row down collides and the piece is at y >= 1, the tick paints the
    piece on the grid where it is (the painted grid [M] has the dimensions
    of the board, the piece's colour on every occupied cell of a row
    y >= 0, and the board's content elsewhere), removes the rows of [M]
    all of whose cells are filled, with as many empty rows put on top,
    adds 100 per removed row to the score, and leaves no active piece, so
    that the spawn effect then creates one. *)
Theorem tick_lock s p :
  currentPiece s = Some p →
  gameOver s = false →
  wellSized (board s) →
  cellsOK (board s) →
  color p ≠ EmptyString →
  withinWalls p (position s) →
  isColliding (board s) p (down (position s)) = Some true →
  1 ≤ py (position s) →
  ∃ M s',
    sameDims (board s) M ∧
    (∀ X Y, cellAt M X Y =
            if (0 <=? Y) && occupiedAt (shape p) (position s) X Y
            then VStr (color p) else cellAt (board s) X Y) ∧
    tick s = Some s' ∧
    board s' = replicate (countFilledRows M) emptyRow ++
               List.filter (λ row, negb (rowFilled row)) M ∧
    score s' = score s + 100 * Z.of_nat (countFilledRows M) ∧
    currentPiece s' = None ∧
    position s' = position s ∧
    gameOver s' = false ∧
    ∀ r, (0 <= r)%Q → (r < 1)%Q →
         ∃ q, currentPiece (spawnEffect r s') = Some q ∧ In q templates.
Proof.
  intros Hp Hgo Hw Hcells Hcol Hfit Hc Hy.
  destruct (paint_spec p (position s) (board s)) as (M & HM & Hd & Hcell).
  { intros x y Ho Hy'. rewrite withinWalls_cells in Hfit.
    destruct (Hfit x y Ho). by apply wellSized_inRange. }
  destruct (mergePieceToBoard_spec s p Hp Hw Hfit) as (M' & HM' & _ & _ & Hmerge).
  assert (M' = M) as -> by congruence.
  pose proof (paint_cellsOK (board s) p (position s) M Hw Hcells Hfit Hcol HM)
    as HokM.
  exists M, (locked s M). split; [done|]. split; [done|]. split.
  { unfold tick. rewrite Hgo. by rewrite (moveDown_lock s p). }
  split; [apply (clearSpec_filled M HokM)|].
  split; [simpl; by rewrite (countComplete_filled M HokM)|].
  split; [done|]. split; [done|].
  split; [done|]. intros r H0 H1.
  destruct (getRandomTetromino_Some r H0 H1) as [q Hq].
  exists q. unfold spawnEffect. simpl. rewrite Hgo. simpl.
  split; [done|]. by eapply getRandomTetromino_templates.
Qed.

Lemma tick_lock_witness :
  ∃ M s',
    sameDims (board scenarioGap) M ∧
    (∀ X Y, cellAt M X Y =
            if (0 <=? Y) && occupiedAt (shape pieceO) (position scenarioGap) X Y
            then VStr (color pieceO) else cellAt (board scenarioGap) X Y) ∧
    tick scenarioGap = Some s' ∧
    board s' = replicate (countFilledRows M) emptyRow ++
               List.filter (λ row, negb (rowFilled row)) M ∧
    score s' = score scenarioGap + 100 * Z.of_nat (countFilledRows M) ∧
    currentPiece s' = None ∧
    position s' = position scenarioGap ∧
    gameOver s' = false ∧
    ∀ r, (0 <= r)%Q → (r < 1)%Q →
         ∃ q, currentPiece (spawnEffect r s') = Some q ∧ In q templates.
Proof.
  apply (tick_lock scenarioGap pieceO);
    [reflexivity | reflexivity | reflexivity
    | apply cellsOK_check; reflexivity | discriminate
    | reflexivity | reflexivity | simpl; lia].
Defined.

(** C3.  For every grid of width 10 whose cells are 0 or a colour, with
    exactly [k] rows all of whose cells are filled, anywhere, the
    line-clear step (lines 93-106) gives a grid of the same dimensions
    that consists of [k] empty rows followed by the other rows in their
    original order, and a score increased by exactly 100 * k; this is the
    board and the score that a lock sets. *)
Theorem lineClear_correct (M : list (list value)) (sc : Z) (h k : nat) :
  rect h (Z.to_nat BOARD_WIDTH) M →
  cellsOK M →
  countFilledRows M = k →
  clearLines M sc =
    (replicate k emptyRow ++ List.filter (λ row, negb (rowFilled row)) M,
     sc + 100 * Z.of_nat k) ∧
  rect h (Z.to_nat BOARD_WIDTH) (fst (clearLines M sc)) ∧
  ∀ s p, currentPiece s = Some p → paint p (position s) (board s) = Some M →
         score s = sc →
    ∃ s', mergePieceToBoard s = Some s' ∧
          board s' = replicate k emptyRow ++
                     List.filter (λ row, negb (rowFilled row)) M ∧
          score s' = sc + 100 * Z.of_nat k.
Proof.
  intros Hrect Hok Hk.
  assert (Hclear : clearLines M sc =
            (replicate k emptyRow ++ List.filter (λ row, negb (rowFilled row)) M,
             sc + 100 * Z.of_nat k)).
  { rewrite clearLines_spec, (clearSpec_filled M Hok),
      (countComplete_filled M Hok), Hk. done. }
  split; [done|]. split.
  - rewrite clearLines_spec. simpl. apply rect_intro.
    + by rewrite clearSpec_length, (rect_length _ _ _ Hrect).
    + intros i row Hi. apply list_elem_of_lookup_2 in Hi. unfold clearSpec in Hi.
      apply elem_of_app in Hi as [Hi|Hi].
      * by apply elem_of_replicate in Hi as [-> _].
      * apply list_elem_of_In, filter_In in Hi as [Hi _].
        apply list_elem_of_In, list_elem_of_lookup in Hi as [j Hj].
        destruct (rect_lookup _ _ _ j Hrect) as (row' & Hrow' & Hlen).
        { rewrite <- (rect_length _ _ _ Hrect). by eapply lookup_lt_Some. }
        congruence.
  - intros s p Hp HM Hsc. unfold mergePieceToBoard. rewrite Hp, HM. simpl.
    rewrite Hsc, Hclear. by eexists.
Qed.

Lemma lineClear_correct_witness :
  clearLines [emptyRow; blockRow; replicate 10 (VStr "#f0f000"); blockRow;
              replicate 10 (VStr "#00f0f0")] 300 =
    (replicate 2 emptyRow ++
     List.filter (λ row, negb (rowFilled row))
       [emptyRow; blockRow; replicate 10 (VStr "#f0f000"); blockRow;
        replicate 10 (VStr "#00f0f0")],
     300 + 100 * Z.of_nat 2).
Proof.
  apply (lineClear_correct
           [emptyRow; blockRow; replicate 10 (VStr "#f0f000"); blockRow;
            replicate 10 (VStr "#00f0f0")] 300 5 2);
    [reflexivity | apply cellsOK_check; reflexivity | reflexivity].
Defined.

(** C4.  In a state with an active piece, when the tick finds that one
    row down collides and the piece is at y < 1, the tick sets the
    game-over flag and merges nothing: the grid, the score, the piece and
    its position are unchanged.  The same holds of [moveDown] itself. *)
Theorem tick_gameOver s p :
  currentPiece s = Some p →
  isColliding (board s) p (down (position s)) = Some true →
  py (position s) < 1 →
  moveDown s = Some (withGameOver s) ∧
  ∃ s', tick s = Some s' ∧
        gameOver s' = true ∧ board s' = board s ∧ score s' = score s ∧
        currentPiece s' = Some p ∧ position s' = position s.
Proof.
  intros Hp Hc Hy. split; [by apply (moveDown_gameOver s p)|].
  unfold tick. destruct (gameOver s) eqn:Hgo.
  - by exists s.
  - rewrite (moveDown_gameOver s p) by done. by eexists.
Qed.

Lemma tick_gameOver_witness :
  moveDown scenarioTop = Some (withGameOver scenarioTop) ∧
  ∃ s', tick scenarioTop = Some s' ∧
        gameOver s' = true ∧ board s' = board scenarioTop ∧
        score s' = score scenarioTop ∧
        currentPiece s' = Some pieceO ∧ position s' = position scenarioTop.
Proof.
  apply (tick_gameOver scenarioTop pieceO);
    [reflexivity | vm_compute; reflexivity | simpl; lia].
Defined.

(** ** The active piece in the states of a run *)

Lemma overlapRun_valid : Forall validEvent overlapRun.
Proof.
  unfold overlapRun.
  repeat first [ apply Forall_cons; split; [by vm_compute|]
               | apply Forall_nil_2 ].
Qed.


(** ** Game over *)

(** C6.  While the game-over flag is true, a firing of the interval and
    every key press (left, right, down, up, or any other key) leave the
    whole state as it is, and so does the spawn effect; only the reset
    changes it. *)
Theorem gameOver_blocks s :
  gameOver s = true →
  tick s = Some s ∧
  (∀ k, handleKeyPress k s = Some s) ∧
  (∀ r, spawnEffect r s = s) ∧
  (∀ e, e ≠ Reset → step e s = Some s).
Proof.
  intros Hgo.
  assert (Ht : tick s = Some s) by (unfold tick; by rewrite Hgo).
  assert (Hk : ∀ k, handleKeyPress k s = Some s)
    by (intros k; unfold handleKeyPress; by rewrite Hgo).
  assert (Hs : ∀ r, spawnEffect r s = s)
    by (intros r; unfold spawnEffect; by rewrite Hgo).
  repeat split; [done..|].
  intros [r| |k|] He; simpl; [by rewrite Hs|done|done|done].
Qed.

Lemma gameOver_blocks_witness :
  tick (withGameOver scenarioTop) = Some (withGameOver scenarioTop) ∧
  (∀ k, handleKeyPress k (withGameOver scenarioTop) = Some (withGameOver scenarioTop)) ∧
  (∀ r, spawnEffect r (withGameOver scenarioTop) = withGameOver scenarioTop) ∧
  (∀ e, e ≠ Reset → step e (withGameOver scenarioTop) = Some (withGameOver scenarioTop)).
Proof. apply (gameOver_blocks (withGameOver scenarioTop)). reflexivity. Defined.

(** ** Rotation *)

(** C7.  In a state with an active piece whose mask is rectangular ([r]
    rows, [c] columns, [r >= 1]) on a board of 20 rows, [rotatePiece]
    raises no error; the rotated mask is the transpose with every row
    reversed, has [c] rows and [r] columns, and its entry [(i, j)] is the
    entry [(r - 1 - j, i)] of the mask (a quarter turn clockwise); it
    replaces the mask exactly
    when it does not collide at the unchanged position, and otherwise the
    state is unchanged.  The position is the same in both cases: no other
    offset is tried.  The up-arrow key does this while the game is not
    over. *)
Theorem rotatePiece_correct s p (r c : nat) :
  currentPiece s = Some p →
  wellSized (board s) →
  rect r c (shape p) →
  (0 < r)%nat →
  let rotated := {| shape := rotateSpec c (shape p); color := color p |} in
  rotateShape (shape p) = Some (shape rotated) ∧
  rect c r (shape rotated) ∧
  (∀ i j, (i < c)%nat → (j < r)%nat →
     entry (shape rotated) i j = entry (shape p) (r - 1 - j) i) ∧
  ∃ b, isColliding (board s) rotated (position s) = Some b ∧
       rotatePiece s = Some (if b then s else withPiece s rotated) ∧
       (gameOver s = false → handleKeyPress "ArrowUp" s = rotatePiece s).
Proof.
  intros Hp Hw Hrect Hr rotated.
  pose proof (rotateShape_rotateSpec r c (shape p) Hrect Hr) as Hrot.
  split; [done|]. split; [by apply rotateSpec_rect|].
  split; [intros i j Hi Hj; by apply rotateSpec_entry|].
  destruct (isColliding_total (board s) rotated (position s) Hw) as [b Hb].
  exists b. split; [done|]. split.
  - unfold rotatePiece. rewrite Hp, Hrot. simpl. fold rotated. rewrite Hb. simpl.
    by destruct b.
  - intros Hgo. unfold handleKeyPress. by rewrite Hgo.
Qed.

Lemma rotatePiece_correct_witness :
  let s := withPiece scenarioStart pieceI in
  let rotated := {| shape := rotateSpec 4 (shape pieceI); color := color pieceI |} in
  rotateShape (shape pieceI) = Some (shape rotated) ∧
  rect 4 1 (shape rotated) ∧
  (∀ i j, (i < 4)%nat → (j < 1)%nat →
     entry (shape rotated) i j = entry (shape pieceI) (1 - 1 - j) i) ∧
  ∃ b, isColliding (board s) rotated (position s) = Some b ∧
       rotatePiece s = Some (if b then s else withPiece s rotated) ∧
       (gameOver s = false → handleKeyPress "ArrowUp" s = rotatePiece s).
Proof.
  apply (rotatePiece_correct (withPiece scenarioStart pieceI) pieceI 1 4);
    [reflexivity | reflexivity | reflexivity | lia].
Defined.

(** C10.  For every rectangular mask with at least one row and one
    column, four rotations in succession raise no error and give the mask
    back. *)
Theorem rotate_four_times (r c : nat) (sh : list (list value)) :
  rect r c sh → (0 < r)%nat → (0 < c)%nat →
  rotateN 4 sh = Some sh.
Proof. apply rotateN_four. Qed.

Lemma rotate_four_times_witness :
  rotateN 4 [[VNum 1; VNum 0; VNum 0]; [VNum 1; VNum 1; VNum 1]] =
  Some [[VNum 1; VNum 0; VNum 0]; [VNum 1; VNum 1; VNum 1]].
Proof.
  apply (rotate_four_times 2 3); [reflexivity | lia | lia].
Defined.

(** ** Spawning *)

(** C8, as stated, fails for the [I] template: the spawn column is the
    constant [floor(BOARD_WIDTH / 2) - 1 = 4] whatever the shape, so the
    four-wide [I] piece occupies columns 4-7, with four free columns on
    its left and two on its right. *)
Lemma spawn_I_not_centred :
  ¬ (∀ s r, currentPiece s = None → gameOver s = false →
       (0 <= r)%Q → (r < 1)%Q →
       ∃ p, currentPiece (spawnEffect r s) = Some p ∧ In p templates ∧
            py (position (spawnEffect r s)) = 0 ∧
            centred (px (position (spawnEffect r s))) (maskWidth (shape p))).
Proof.
  intros Hclaim.
  destruct (Hclaim initialState 0%Q) as (p & Hp & _ & _ & Hcentred);
    [reflexivity | reflexivity | by vm_compute | by vm_compute |].
  injection Hp as <-. vm_compute in Hcentred. by apply Hcentred.
Qed.

(** C8, amended.  When no active piece exists and the game is not over,
    the spawn effect creates one piece, a template, at column
    [floor(BOARD_WIDTH / 2) - 1 = 4] and row 0 whatever the shape, and a
    second run of the effect creates no other; at that column the piece is
    horizontally centred for every template but [I]. *)
Theorem spawnEffect_correct s r :
  currentPiece s = None →
  gameOver s = false →
  (0 <= r)%Q → (r < 1)%Q →
  ∃ p, In p templates ∧
       spawnEffect r s =
         {| board := board s; currentPiece := Some p;
            position := {| px := 4; py := 0 |};
            gameOver := false; score := score s |} ∧
       (∀ r', spawnEffect r' (spawnEffect r s) = spawnEffect r s) ∧
       (centred 4 (maskWidth (shape p)) ↔ p ≠ pieceI).
Proof.
  intros Hnone Hgo H0 H1.
  destruct (getRandomTetromino_Some r H0 H1) as [p Hp].
  pose proof (getRandomTetromino_templates r p Hp) as Hin.
  exists p. split; [done|].
  assert (Hs : spawnEffect r s =
               {| board := board s; currentPiece := Some p;
                  position := {| px := 4; py := 0 |};
                  gameOver := false; score := score s |}).
  { unfold spawnEffect. by rewrite Hgo, Hnone, Hp. }
  split; [done|]. split.
  { intros r'. rewrite Hs. reflexivity. }
  clear -Hin. each_template Hin; unfold centred; simpl; split;
    (done || lia || (intros _; lia) || (intros H; exfalso; by apply H)).
Qed.

Lemma spawnEffect_correct_witness :
  ∃ p, In p templates ∧
       spawnEffect (3 # 7) initialState =
         {| board := board initialState; currentPiece := Some p;
            position := {| px := 4; py := 0 |};
            gameOver := false; score := score initialState |} ∧
       (∀ r', spawnEffect r' (spawnEffect (3 # 7) initialState)
              = spawnEffect (3 # 7) initialState) ∧
       (centred 4 (maskWidth (shape p)) ↔ p ≠ pieceI).
Proof.
  apply (spawnEffect_correct initialState (3 # 7));
    [reflexivity | reflexivity | by vm_compute | by vm_compute].
Defined.

(** ** The scenario of the [O] piece on an empty board *)

(** C9, as stated, fails: eighteen ticks take the piece from y = 0 to
    y = 18, where it rests, but they do not merge it; the grid is still
    empty and the piece still active. *)
Lemma eighteen_ticks_do_not_merge :
  ¬ (∃ s, ticks 18 scenarioStart = Some s ∧
          currentPiece s = None ∧ score s = 0 ∧ board s = blockBoard).
Proof.
  intros (s & Hticks & Hnone & _).
  vm_compute in Hticks. injection Hticks as <-. discriminate Hnone.
Qed.

(** C9, amended.  From an empty 10x20 board with an [O] piece at x = 4,
    y = 0, eighteen ticks bring the piece to rest at y = 18 (rows 18-19),
    still active on a still empty grid, the rendered board showing the 2x2
    block at rows 18-19, columns 4-5; the nineteenth tick merges it:
    afterwards no piece is active, the score is 0, and the grid holds
    exactly that block. *)
Theorem scenario_O_piece :
  ticks 18 scenarioStart = Some scenarioRest ∧
  board scenarioRest = createBoard ∧
  displayBoard scenarioRest = Some blockBoard ∧
  ticks 19 scenarioStart =
    Some {| board := blockBoard;
            currentPiece := None;
            position := {| px := 4; py := 18 |};
            gameOver := false;
            score := 0 |} ∧
  (∀ X Y, filled blockBoard X Y = true ↔ (4 ≤ X ≤ 5 ∧ 18 ≤ Y ≤ 19)).
Proof.
  split; [by vm_compute|]. split; [done|]. split; [by vm_compute|].
  split; [by vm_compute|].
  intros X Y. split.
  - intros Hf. unfold filled in Hf.
    destruct (truthy_cellAt_nonneg _ _ _ Hf) as [HX HY].
    destruct (Z.le_gt_cases 20 Y) as [Hbig|Hy].
    { unfold cellAt in Hf. destruct (Y <? 0); [done|].
      rewrite lookup_ge_None_2 in Hf; [done|]. simpl. lia. }
    destruct (Z.le_gt_cases 10 X) as [Hbig|Hx].
    { unfold cellAt in Hf. destruct (Y <? 0); [done|].
      destruct (blockBoard !! Z.to_nat Y) as [row|] eqn:Hrow; [|done].
      assert (Hlen : length row = 10%nat).
      { apply list_elem_of_lookup_2 in Hrow.
        repeat (apply elem_of_cons in Hrow as [->|Hrow]; [reflexivity|]).
        by apply elem_of_nil in Hrow. }
      unfold get, js_nth in Hf. destruct (X <? 0); [done|].
      rewrite lookup_ge_None_2 in Hf; [done|]. lia. }
    assert (HXc : ∃ x : nat, X = Z.of_nat x ∧ (x < 10)%nat)
      by (exists (Z.to_nat X); lia).
    assert (HYc : ∃ y : nat, Y = Z.of_nat y ∧ (y < 20)%nat)
      by (exists (Z.to_nat Y); lia).
    destruct HXc as (x & -> & Hx'), HYc as (y & -> & Hy').
    clear HX HY Hx Hy.
    do 20 (destruct y as [|y]; [do 10 (destruct x as [|x];
             [vm_compute in Hf; (discriminate Hf || lia)|]); lia|]).
    lia.
  - intros [HX HY].
    assert (HXc : X = 4 ∨ X = 5) by lia. assert (HYc : Y = 18 ∨ Y = 19) by lia.
    destruct HXc as [-> | ->], HYc as [-> | ->]; reflexivity.
Qed.

(** * Further properties of the code *)

(** ** Every result of an event is one of the transitions *)

Lemma mergePieceToBoard_locked s p M :
  currentPiece s = Some p → paint p (position s) (board s) = Some M →
  mergePieceToBoard s = Some (locked s M).
Proof.
  intros Hp HM. unfold mergePieceToBoard. rewrite Hp, HM. simpl.
  by rewrite clearLines_spec.
Qed.

Lemma state_eta s :
  {| board := board s; currentPiece := currentPiece s; position := position s;
     gameOver := gameOver s; score := score s |} = s.
Proof. by destruct s. Qed.

Lemma moveDown_fires e s s' :
  gravity e → target e (position s) = Some (down (position s)) →
  gameOver s = false → moveDown s = Some s' → fires e s s'.
Proof.
  intros Hg Ht Hgo Hmove.
  assert (Hne : e ≠ Reset) by (destruct Hg as [-> | ->]; done).
  unfold moveDown in Hmove. destruct (currentPiece s) as [p|] eqn:Hp.
  2:{ injection Hmove as <-. by apply fires_idle. }
  fold (down (position s)) in Hmove.
  destruct (isColliding (board s) p (down (position s))) as [[|]|] eqn:Hc;
    simpl in Hmove; [| |done].
  - destruct (py (position s) <? 1) eqn:Hy; zb.
    + injection Hmove as <-. rewrite <- Hp. by apply (fires_over e s p).
    + destruct (paint p (position s) (board s)) as [M|] eqn:HM.
      * rewrite (mergePieceToBoard_locked s p M Hp HM) in Hmove.
        injection Hmove as <-. by apply (fires_lock e s p M).
      * unfold mergePieceToBoard in Hmove. by rewrite Hp, HM in Hmove.
  - injection Hmove as <-. rewrite <- Hp.
    by apply (fires_shift e s p (down (position s))).
Qed.

Lemma moveHorizontally_fires e dir s s' :
  e ≠ Reset → target e (position s) = Some (sideways dir (position s)) →
  gameOver s = false → moveHorizontally dir s = Some s' → fires e s s'.
Proof.
  intros Hne Ht Hgo Hmove.
  unfold moveHorizontally in Hmove. destruct (currentPiece s) as [p|] eqn:Hp.
  2:{ injection Hmove as <-. by apply fires_idle. }
  fold (sideways dir (position s)) in Hmove.
  destruct (isColliding (board s) p (sideways dir (position s))) as [[|]|] eqn:Hc;
    simpl in Hmove; [| |done].
  - injection Hmove as <-. by apply fires_idle.
  - injection Hmove as <-. rewrite <- Hp.
    by apply (fires_shift e s p (sideways dir (position s))).
Qed.

Lemma rotatePiece_fires s s' :
  gameOver s = false → rotatePiece s = Some s' → fires (Key "ArrowUp") s s'.
Proof.
  intros Hgo Hrot. unfold rotatePiece in Hrot.
  destruct (currentPiece s) as [p|] eqn:Hp.
  2:{ injection Hrot as <-. by apply fires_idle. }
  destruct (rotateShape (shape p)) as [sh|] eqn:Hsh; [|done]. simpl in Hrot.
  destruct (isColliding (board s) _ (position s)) as [[|]|] eqn:Hc;
    simpl in Hrot; [| |done].
  - injection Hrot as <-. by apply fires_idle.
  - injection Hrot as <-. by apply (fires_rotate s p sh).
Qed.

Lemma step_fires e s s' : step e s = Some s' → fires e s s'.
Proof.
  destruct e as [r| |k|]; simpl.
  - intros [= <-]. unfold spawnEffect.
    destruct (gameOver s) eqn:Hgo; [by apply fires_idle|].
    destruct (currentPiece s) eqn:Hp; [by apply fires_idle|].
    rewrite <- Hgo. by apply (fires_spawn r s).
  - unfold tick. destruct (gameOver s) eqn:Hgo.
    + intros [= <-]. by apply fires_idle.
    + apply moveDown_fires; [by left|done..].
  - unfold handleKeyPress. destruct (gameOver s) eqn:Hgo.
    { intros [= <-]. by apply fires_idle. }
    destruct (String.eqb k "ArrowLeft") eqn:E1.
    { apply moveHorizontally_fires; [done| |done]. simpl. by rewrite E1. }
    destruct (String.eqb k "ArrowRight") eqn:E2.
    { apply moveHorizontally_fires; [done| |done]. simpl. by rewrite E1, E2. }
    destruct (String.eqb k "ArrowDown") eqn:E3.
    { apply String.eqb_eq in E3 as ->. apply moveDown_fires; [by right|done..]. }
    destruct (String.eqb k "ArrowUp") eqn:E4.
    { apply String.eqb_eq in E4 as ->. by apply rotatePiece_fires. }
    intros [= <-]. by apply fires_idle.
  - intros [= <-]. apply fires_reset.
Qed.

(** Invariants of runs are proved transition by transition. *)
Lemma reachable_fires_ind (P : state → Prop) :
  P initialState →
  (∀ e s s', reachable s → P s → fires e s s' → P s') →
  ∀ s, reachable s → P s.
Proof.
  intros Hinit Hstep s Hreach.
  induction Hreach as [|e s s' Hreach IH _ Hs]; [done|].
  apply (Hstep e s s'); [done|done|by apply step_fires].
Qed.

(** ** Score, board and game-over flag, event by event *)

Lemma fires_score e s s' :
  fires e s s' → e ≠ Reset →
  ∃ k : nat, score s' = score s + 100 * Z.of_nat k.
Proof.
  intros Hf Hne.
  destruct Hf as [e s _|s|r s _ _|e s p p0 _ _ _ _|s p sh _ _ _ _
                 |e s p _ _ _ _ _|e s p M _ _ _ _ _ _];
    try (exists 0%nat; simpl; lia); [done|].
  exists (countComplete M). reflexivity.
Qed.

Lemma fires_frame e s s' :
  fires e s s' → e ≠ Reset → ¬ gravity e →
  board s' = board s ∧ score s' = score s ∧ gameOver s' = gameOver s.
Proof.
  intros Hf Hne Hng.
  destruct Hf as [e s _|s|r s _ _|e s p p0 _ _ _ _|s p sh _ _ _ _
                 |e s p Hg _ _ _ _|e s p M Hg _ _ _ _ _]; done.
Qed.

Lemma fires_gameOver e s s' :
  fires e s s' → gameOver s = false → gameOver s' = true →
  gravity e ∧ s' = withGameOver s ∧
  ∃ p, currentPiece s = Some p ∧ py (position s) < 1 ∧
       isColliding (board s) p (down (position s)) = Some true.
Proof.
  intros Hf Hgo Hgo'.
  destruct Hf as [e s _|s|r s _ _|e s p p0 _ _ _ _|s p sh _ _ _ _
                 |e s p Hg _ Hp Hc Hy|e s p M Hg _ _ _ _ _];
    simpl in Hgo'; try congruence.
  split; [done|]. split; [done|]. by exists p.
Qed.

(** X1.  No event but the reset lowers the score: an event adds a
    multiple of 100 to it (zero, unless it locks a piece). *)
Theorem score_never_decreases e s s' :
  step e s = Some s' → e ≠ Reset →
  ∃ k : nat, score s' = score s + 100 * Z.of_nat k.
Proof. intros Hs. apply fires_score. by apply step_fires. Qed.

Lemma score_never_decreases_witness :
  ∃ k : nat, score (locked scenarioRest blockBoard)
             = score scenarioRest + 100 * Z.of_nat k.
Proof.
  apply (score_never_decreases Tick scenarioRest (locked scenarioRest blockBoard));
    [by vm_compute | done].
Defined.

(** X2.  The spawn effect and every key but the down arrow leave the
    board, the score and the game-over flag as they are: the board and the
    score change only when [moveDown] locks a piece (or on reset), and the
    flag is set only by [moveDown]. *)
Theorem only_gravity_changes_board e s s' :
  step e s = Some s' → e ≠ Reset → e ≠ Tick → e ≠ Key "ArrowDown" →
  board s' = board s ∧ score s' = score s ∧ gameOver s' = gameOver s.
Proof.
  intros Hs Hne Ht Hd. apply (fires_frame e); [by apply step_fires|done|].
  by intros [?|?].
Qed.

Lemma only_gravity_changes_board_witness :
  board (withPosition scenarioRest {| px := 3; py := 18 |}) = board scenarioRest ∧
  score (withPosition scenarioRest {| px := 3; py := 18 |}) = score scenarioRest ∧
  gameOver (withPosition scenarioRest {| px := 3; py := 18 |}) = gameOver scenarioRest.
Proof.
  apply (only_gravity_changes_board (Key "ArrowLeft") scenarioRest
           (withPosition scenarioRest {| px := 3; py := 18 |}));
    [by vm_compute | done | done | done].
Defined.

(** X3.  The game-over flag is raised by nothing but [moveDown] (a tick
    or the down arrow), and only when the piece is at y < 1 and the row
    below it is blocked; nothing else of the state changes then. *)
Theorem gameOver_raised_only_by_moveDown e s s' :
  step e s = Some s' → gameOver s = false → gameOver s' = true →
  (e = Tick ∨ e = Key "ArrowDown") ∧ s' = withGameOver s ∧
  ∃ p, currentPiece s = Some p ∧ py (position s) < 1 ∧
       isColliding (board s) p (down (position s)) = Some true.
Proof. intros Hs. apply fires_gameOver. by apply step_fires. Qed.

Lemma gameOver_raised_only_by_moveDown_witness :
  (Key "ArrowDown" = Tick ∨ Key "ArrowDown" = Key "ArrowDown") ∧
  withGameOver scenarioTop = withGameOver scenarioTop ∧
  ∃ p, currentPiece scenarioTop = Some p ∧ py (position scenarioTop) < 1 ∧
       isColliding (board scenarioTop) p (down (position scenarioTop)) = Some true.
Proof.
  apply (gameOver_raised_only_by_moveDown (Key "ArrowDown") scenarioTop
           (withGameOver scenarioTop)); [by vm_compute | done | done].
Defined.

(** ** The active piece is a template in one of its orientations *)

Ltac explicit_orientations :=
  let l := eval vm_compute in orientations in change orientations with l.

Ltac each_orientation tac :=
  explicit_orientations;
  repeat (apply Forall_cons; split; [tac|]); apply Forall_nil_2.

Ltac pick_member := vm_compute; repeat (first [left; reflexivity | right]).

Lemma templates_orientations : Forall (λ p, In p orientations) templates.
Proof. repeat (apply Forall_cons; split; [pick_member|]). apply Forall_nil_2. Qed.

(** A further turn of an orientation is an orientation. *)
Lemma orientations_rotate :
  Forall (λ p, ∀ sh, rotateShape (shape p) = Some sh →
               In {| shape := sh; color := color p |} orientations)
         orientations.
Proof.
  each_orientation ltac:(intros sh Hsh; vm_compute in Hsh;
                         injection Hsh as <-; pick_member).
Qed.

Lemma orientations_facts :
  Forall (λ p, cellCount (shape p) = 4%nat ∧
               (length (shape p) ≤ 4)%nat ∧
               In (color p) (map color templates) ∧
               (∃ x y : nat, occupied (shape p) x y))
         orientations.
Proof.
  each_orientation ltac:(
    split; [reflexivity|]; split; [simpl; lia|]; split;
    [pick_member|];
    first [ by exists 0%nat, 0%nat; eexists _, _
          | by exists 1%nat, 0%nat; eexists _, _
          | by exists 2%nat, 0%nat; eexists _, _ ]).
Qed.

Lemma reachable_orientation s p :
  reachable s → currentPiece s = Some p → In p orientations.
Proof.
  intros Hreach. revert p.
  induction Hreach as [|e s s' Hreach IH Hf] using reachable_fires_ind;
    [done|]. intros q.
  destruct Hf as [e s _|s|r s _ _|e s p p0 _ Hp _ _|s p sh _ Hp Hsh _
                 |e s p _ _ Hp _ _|e s p M _ _ _ _ _ _]; simpl.
  - apply IH.
  - done.
  - intros Hq. apply getRandomTetromino_templates in Hq.
    pose proof templates_orientations as Ht. rewrite Forall_forall in Ht.
    by apply Ht, list_elem_of_In.
  - apply IH.
  - intros [= <-]. pose proof orientations_rotate as Hr.
    rewrite Forall_forall in Hr. apply (Hr p); [|done].
    by apply list_elem_of_In, IH.
  - apply IH.
  - done.
Qed.

(** ** The board in the states of a run *)

Lemma cellsAll_cellAt (P : value → Prop) bd :
  Forall (Forall P) bd ↔ ∀ X Y, inRange bd X Y → P (cellAt bd X Y).
Proof.
  split.
  - intros Hok X Y (Hy & row & Hrow & Hx).
    destruct (lookup_lt_is_Some_2 row (Z.to_nat X)) as [v Hv]; [lia|].
    rewrite <- (Z2Nat.id X), <- (Z2Nat.id Y) by lia.
    rewrite (cellAt_lookup _ _ _ _ _ Hrow Hv).
    rewrite Forall_lookup in Hok. specialize (Hok _ _ Hrow).
    rewrite Forall_lookup in Hok. by apply (Hok _ _ Hv).
  - intros Hcell. apply Forall_lookup. intros y row Hrow.
    apply Forall_lookup. intros x v Hv.
    rewrite <- (cellAt_lookup _ _ _ _ _ Hrow Hv). apply Hcell.
    split; [lia|]. exists row. rewrite Nat2Z.id. split; [done|].
    apply lookup_lt_Some in Hv. lia.
Qed.

Lemma paint_within p p0 bd :
  wellSized bd → withinWalls p p0 →
  ∃ M, paint p p0 bd = Some M ∧ sameDims bd M ∧
    ∀ X Y, cellAt M X Y =
           if (0 <=? Y) && occupiedAt (shape p) p0 X Y
           then VStr (color p) else cellAt bd X Y.
Proof.
  intros Hw Hfit. apply paint_spec. intros x y Ho Hy.
  rewrite withinWalls_cells in Hfit. destruct (Hfit x y Ho).
  by apply wellSized_inRange.
Qed.

Lemma paint_cellsAll (P : value → Prop) bd p p0 M :
  wellSized bd → Forall (Forall P) bd → withinWalls p p0 →
  P (VStr (color p)) → paint p p0 bd = Some M → Forall (Forall P) M.
Proof.
  intros Hw Hok Hfit Hcol HM.
  destruct (paint_within p p0 bd Hw Hfit) as (M' & HM' & Hd & Hc).
  assert (M' = M) as -> by congruence.
  apply cellsAll_cellAt. intros X Y Hin. rewrite Hc.
  destruct (_ && _); [done|].
  rewrite cellsAll_cellAt in Hok. apply Hok.
  apply (inRange_sameDims M); [|done]. unfold sameDims in *. congruence.
Qed.

Lemma clearSpec_cellsAll (P : value → Prop) bd :
  P (VNum 0) → Forall (Forall P) bd → Forall (Forall P) (clearSpec bd).
Proof.
  unfold clearSpec. intros H0 Hok. apply Forall_app. split.
  - by apply Forall_replicate, Forall_replicate.
  - apply Forall_forall. intros row Hin%list_elem_of_In%filter_In.
    rewrite Forall_forall in Hok. apply Hok, list_elem_of_In, Hin.
Qed.

Lemma filter_complete_incomplete bd :
  List.filter rowComplete (List.filter (λ row, negb (rowComplete row)) bd) = [].
Proof.
  induction bd as [|row bd IH]; [done|]. simpl.
  destruct (rowComplete row) eqn:Hr; simpl; [done|]. by rewrite Hr.
Qed.

(** After the line clear no row is complete. *)
Lemma countComplete_clearSpec bd : countComplete (clearSpec bd) = 0%nat.
Proof.
  unfold countComplete at 1, clearSpec. rewrite List.filter_app, length_app.
  rewrite filter_complete_incomplete. simpl.
  induction (countComplete bd) as [|k IH]; [done|]. simpl. apply IH.
Qed.

Lemma filled_emptyRow X : truthy (get emptyRow X) = false.
Proof.
  unfold get, js_nth. destruct (X <? 0); [done|].
  destruct (emptyRow !! Z.to_nat X) as [v|] eqn:Hv; [|done].
  by apply lookup_replicate in Hv as [-> _].
Qed.

(** The top row of a cleared board is empty when that of the board was. *)
Lemma clearSpec_top bd :
  (∀ X, filled bd X 0 = false) → ∀ X, filled (clearSpec bd) X 0 = false.
Proof.
  intros Htop X. unfold clearSpec.
  destruct (countComplete bd) as [|k] eqn:Hk.
  - rewrite filter_none_complete by done. apply Htop.
  - unfold filled, cellAt. simpl. apply filled_emptyRow.
Qed.

(** A piece at [y >= 1] paints nothing on the top row. *)
Lemma paint_top p p0 bd M :
  wellSized bd → withinWalls p p0 → 1 ≤ py p0 →
  paint p p0 bd = Some M →
  (∀ X, filled bd X 0 = false) → ∀ X, filled M X 0 = false.
Proof.
  intros Hw Hfit Hy HM Htop X.
  destruct (paint_within p p0 bd Hw Hfit) as (M' & HM' & _ & Hc).
  assert (M' = M) as -> by congruence.
  unfold filled. rewrite Hc. unfold occupiedAt, cellAt at 1.
  destruct (0 - py p0 <? 0) eqn:E; [|zb; lia]. simpl. apply Htop.
Qed.

Lemma templateCell_colour p :
  In p orientations → templateCell (VStr (color p)).
Proof.
  intros Hin. pose proof orientations_facts as Hf. rewrite Forall_forall in Hf.
  destruct (Hf p) as (_ & _ & Hc & _); [by apply list_elem_of_In|].
  right. by exists (color p).
Qed.

Lemma reachable_board s :
  reachable s →
  0 ≤ py (position s) ∧
  (∀ X, filled (board s) X 0 = false) ∧
  countComplete (board s) = 0%nat ∧
  Forall (Forall templateCell) (board s).
Proof.
  induction 1 as [|e s s' Hreach IH Hf] using reachable_fires_ind.
  { split; [done|]. split; [intros X; apply filled_createBoard|]. split; [done|].
    apply Forall_replicate, Forall_replicate. by left. }
  destruct IH as (Hy & Htop & Hnone & Hcol).
  destruct (reachable_inv s Hreach) as (Hw & _ & Hinv).
  destruct Hf as [e s _|s|r s _ _|e s p p0 _ Hp Ht _|s p sh _ Hp Hsh _
                 |e s p _ _ Hp _ _|e s p M _ _ Hp _ Hy1 HM]; simpl; try done.
  - split; [done|]. split; [intros X; apply filled_createBoard|]. split; [done|].
    apply Forall_replicate, Forall_replicate. by left.
  - split; [|done]. destruct e as [r| |k|]; simpl in Ht; try done.
    + injection Ht as <-. simpl. lia.
    + repeat case_match; try done; injection Ht as <-; simpl; lia.
  - assert (Hfit : withinWalls p (position s))
      by (apply pieceInv_withinWalls; auto).
    split; [done|]. split.
    { apply clearSpec_top. by apply (paint_top p (position s) (board s)). }
    split; [apply countComplete_clearSpec|].
    apply clearSpec_cellsAll; [by left|].
    apply (paint_cellsAll _ (board s) p (position s)); try done.
    apply templateCell_colour. by apply (reachable_orientation s).
Qed.

(** Game over in a run: a piece is stuck on the spawn row. *)
Lemma reachable_gameOver s :
  reachable s → gameOver s = true →
  ∃ p, currentPiece s = Some p ∧ py (position s) = 0 ∧
       isColliding (board s) p (down (position s)) = Some true.
Proof.
  induction 1 as [|e s s' Hreach IH Hf] using reachable_fires_ind; [done|].
  destruct (reachable_board s Hreach) as (Hy & _).
  destruct Hf as [e s _|s|r s Hgo _|e s p p0 Hgo _ _ _|s p sh Hgo _ _ _
                 |e s p _ _ Hp Hc Hy1|e s p M _ Hgo _ _ _ _]; simpl;
    try done; try congruence.
  intros _. exists p. split; [done|]. split; [lia|done].
Qed.

(** ** Counting filled cells *)

Lemma filledCount_cons row bd :
  filledCount (row :: bd) = (length (List.filter truthy row) + filledCount bd)%nat.
Proof. unfold filledCount. simpl. by rewrite List.filter_app, length_app. Qed.

Lemma filter_truthy_insert (l : list value) n old v :
  l !! n = Some old → truthy old = false → truthy v = true →
  length (List.filter truthy (<[n := v]> l)) = S (length (List.filter truthy l)).
Proof.
  revert n. induction l as [|w l IH]; intros [|n] Hn Hold Hv; try done; simpl.
  - injection Hn as ->. by rewrite Hold, Hv.
  - destruct (truthy w); simpl; by rewrite (IH n).
Qed.

Lemma filledCount_insert bd n row row' :
  bd !! n = Some row →
  length (List.filter truthy row') = S (length (List.filter truthy row)) →
  filledCount (<[n := row']> bd) = S (filledCount bd).
Proof.
  revert n. induction bd as [|r bd IH]; intros [|n] Hn Hlen; try done.
  - injection Hn as ->. simpl. rewrite !filledCount_cons. lia.
  - simpl. rewrite !filledCount_cons, (IH n) by done. lia.
Qed.

(** Writing a colour on an empty cell of the grid fills one more cell. *)
Lemma writeCell_count bd X Y c bd' :
  inRange bd X Y → filled bd X Y = false → c ≠ EmptyString →
  writeCell bd Y X c = Some bd' → filledCount bd' = S (filledCount bd).
Proof.
  intros (Hy & row & Hrow & Hx) Hempty Hc. unfold writeCell. rewrite Hrow.
  simpl. intros [= <-]. apply (filledCount_insert _ _ row); [done|].
  unfold js_set. destruct (X <? 0) eqn:E1; [zb; lia|].
  destruct (Nat.ltb_spec (Z.to_nat X) (length row)); [|lia].
  destruct (lookup_lt_is_Some_2 row (Z.to_nat X)) as [old Hold]; [done|].
  apply (filter_truthy_insert _ _ old); [done| |by destruct c].
  unfold filled, cellAt in Hempty. destruct (Y <? 0) eqn:E2; [zb; lia|].
  rewrite Hrow in Hempty. unfold get, js_nth in Hempty.
  by rewrite E1, Hold in Hempty.
Qed.

Lemma paintRow_count c p0 y row :
  c ≠ EmptyString → 0 ≤ py p0 + y →
  ∀ x0 bd M,
  (∀ (i : nat) v, row !! i = Some v → truthy v = true →
     inRange bd (px p0 + x0 + Z.of_nat i) (py p0 + y) ∧
     filled bd (px p0 + x0 + Z.of_nat i) (py p0 + y) = false) →
  paintRow c p0 y row x0 bd = Some M →
  filledCount M = (filledCount bd + length (List.filter truthy row))%nat.
Proof.
  intros Hc Hy. induction row as [|v rest IH]; intros x0 bd M Hin; simpl.
  { intros [= <-]. lia. }
  destruct (0 <=? py p0 + y) eqn:E; [|zb; lia]. rewrite andb_true_r.
  destruct (truthy v) eqn:Hv; simpl.
  - destruct (Hin 0%nat v eq_refl Hv) as [Hrange Hempty].
    replace (px p0 + x0 + Z.of_nat 0) with (px p0 + x0) in * by lia.
    destruct (writeCell_spec bd (px p0 + x0) (py p0 + y) c Hrange)
      as (bd' & Hw & Hd & Hcell).
    rewrite Hw. simpl. intros HM.
    rewrite (IH (x0 + 1) bd' M); [| |done].
    + rewrite (writeCell_count bd _ _ c bd') by done. lia.
    + intros i w Hi Hw'.
      replace (px p0 + (x0 + 1) + Z.of_nat i)
        with (px p0 + x0 + Z.of_nat (S i)) by lia.
      destruct (Hin (S i) w Hi Hw') as [Hr He]. split.
      * by apply (inRange_sameDims bd).
      * unfold filled. rewrite Hcell.
        destruct (py p0 + y =? py p0 + y) eqn:E1; [|zb; lia].
        destruct (px p0 + x0 + Z.of_nat (S i) =? px p0 + x0) eqn:E2; [zb; lia|].
        exact He.
  - intros HM. apply (IH (x0 + 1) bd M); [|done].
    intros i w Hi Hw'.
    replace (px p0 + (x0 + 1) + Z.of_nat i)
      with (px p0 + x0 + Z.of_nat (S i)) by lia.
    by apply (Hin (S i) w).
Qed.

Lemma cellCount_cons row rest :
  cellCount (row :: rest) = (length (List.filter truthy row) + cellCount rest)%nat.
Proof. unfold cellCount. simpl. by rewrite List.filter_app, length_app. Qed.

Lemma paintRows_count c p0 rows :
  c ≠ EmptyString →
  ∀ y0 bd M, 0 ≤ py p0 + y0 →
  (∀ x y : nat, occupied rows x y →
     inRange bd (px p0 + Z.of_nat x) (py p0 + y0 + Z.of_nat y) ∧
     filled bd (px p0 + Z.of_nat x) (py p0 + y0 + Z.of_nat y) = false) →
  paintRows c p0 rows y0 bd = Some M →
  filledCount M = (filledCount bd + cellCount rows)%nat.
Proof.
  intros Hc. induction rows as [|row rest IH]; intros y0 bd M Hy Hin; simpl.
  { intros [= <-]. unfold cellCount. simpl. lia. }
  assert (Hrow : ∀ (i : nat) v, row !! i = Some v → truthy v = true →
            inRange bd (px p0 + 0 + Z.of_nat i) (py p0 + y0) ∧
            filled bd (px p0 + 0 + Z.of_nat i) (py p0 + y0) = false).
  { intros i v Hi Hv.
    replace (px p0 + 0 + Z.of_nat i) with (px p0 + Z.of_nat i) by lia.
    assert (Hz : py p0 + y0 = py p0 + y0 + Z.of_nat 0) by lia.
    rewrite Hz. apply Hin. by exists row, v. }
  destruct (paintRow_spec c p0 y0 row 0 bd) as (bd' & Hp & Hd & Hcell).
  { intros i v Hi Hv _. by destruct (Hrow i v Hi Hv). }
  rewrite Hp. simpl. intros HM. rewrite cellCount_cons.
  rewrite (IH (y0 + 1) bd' M); [|lia| |done].
  - rewrite (paintRow_count c p0 y0 row Hc Hy 0 bd bd' Hrow Hp). lia.
  - intros x y (r & v & Hr & Hx & Hv).
    replace (py p0 + (y0 + 1) + Z.of_nat y)
      with (py p0 + y0 + Z.of_nat (S y)) by lia.
    destruct (Hin x (S y)) as [Hrange Hempty]; [by exists r, v|]. split.
    + by apply (inRange_sameDims bd).
    + unfold filled. rewrite Hcell.
      destruct (py p0 + y0 + Z.of_nat (S y) =? py p0 + y0) eqn:E; [zb; lia|].
      exact Hempty.
Qed.

(** Painting a piece that lies within the walls on empty cells fills as
    many cells as the mask has. *)
Lemma paint_count p p0 bd M :
  wellSized bd → color p ≠ EmptyString → 0 ≤ py p0 →
  isColliding bd p p0 = Some false →
  paint p p0 bd = Some M →
  filledCount M = (filledCount bd + cellCount (shape p))%nat.
Proof.
  intros Hw Hc Hy Hfree HM.
  apply (paintRows_count (color p) p0 (shape p) Hc 0 bd M); [lia| |done].
  intros x y Ho.
  destruct (notColliding_cells bd p p0 Hw Hfree x y Ho) as (Hx & Hy' & Hempty).
  replace (py p0 + 0 + Z.of_nat y) with (py p0 + Z.of_nat y) by lia.
  split; [apply wellSized_inRange; [done|done|lia]|]. apply Hempty. lia.
Qed.

Lemma filter_forallb (l : list value) :
  forallb truthy l = true → List.filter truthy l = l.
Proof.
  induction l as [|v l IH]; [done|]. simpl.
  destruct (truthy v); [|done]. simpl. intros H. by rewrite IH.
Qed.

Lemma filledCount_emptyRows k bd :
  filledCount (replicate k emptyRow ++ bd) = filledCount bd.
Proof.
  induction k as [|k IH]; [done|]. simpl. by rewrite filledCount_cons, IH.
Qed.

(** A line clear removes ten filled cells per complete row. *)
Lemma clearSpec_count bd :
  wellSized bd → cellsOK bd →
  filledCount bd = (10 * countComplete bd + filledCount (clearSpec bd))%nat.
Proof.
  intros [_ Hw]%wellSized_widths Hok. unfold clearSpec.
  rewrite filledCount_emptyRows. unfold countComplete, cellsOK in *.
  induction bd as [|row bd IH]; [done|].
  apply Forall_cons in Hw as [Hlen Hw]. apply Forall_cons in Hok as [Hrow Hok].
  specialize (IH Hw Hok). simpl. rewrite filledCount_cons.
  destruct (rowComplete row) eqn:Hc; simpl.
  - rewrite rowComplete_filled in Hc by done.
    change (Z.to_nat BOARD_WIDTH) with 10%nat in Hlen.
    rewrite (filter_forallb row Hc), Hlen. lia.
  - rewrite filledCount_cons. lia.
Qed.

(** ** A lock completes rows among those of the piece only *)

Lemma filter_window (P : list value → bool) (l : list (list value)) :
  ∀ a r : nat,
  (∀ i row, l !! i = Some row → P row = true → (a ≤ i < a + r)%nat) →
  (length (List.filter P l) ≤ r)%nat.
Proof.
  induction l as [|x l IH]; intros a r H; simpl; [lia|].
  destruct a as [|a].
  - assert (Hl : (length (List.filter P l) ≤ r - 1)%nat).
    { apply (IH 0%nat). intros i row Hi HP. specialize (H (S i) row Hi HP). lia. }
    destruct (P x) eqn:HP; [|lia]. specialize (H 0%nat x eq_refl HP). simpl. lia.
  - destruct (P x) eqn:HP.
    { specialize (H 0%nat x eq_refl HP). lia. }
    apply (IH a). intros i row Hi HP'. specialize (H (S i) row Hi HP'). lia.
Qed.

Lemma countComplete_none bd row :
  countComplete bd = 0%nat → In row bd → rowComplete row = false.
Proof.
  unfold countComplete. intros Hk Hin.
  destruct (rowComplete row) eqn:Hc; [|done].
  assert (Hf : In row (List.filter rowComplete bd)) by by apply filter_In.
  destruct (List.filter rowComplete bd); [done|discriminate].
Qed.

(** The rows that the mask does not reach are the rows of the board. *)
Lemma paint_other_rows p p0 bd M (i : nat) :
  wellSized bd → withinWalls p p0 → paint p p0 bd = Some M →
  (Z.of_nat i < py p0 ∨ py p0 + Z.of_nat (length (shape p)) ≤ Z.of_nat i) →
  M !! i = bd !! i.
Proof.
  intros Hw Hfit HM Hout.
  destruct (paint_within p p0 bd Hw Hfit) as (M' & HM' & Hd & Hc).
  assert (M' = M) as -> by congruence.
  destruct (bd !! i) as [row|] eqn:Hrow.
  2:{ apply lookup_ge_None. apply lookup_ge_None in Hrow.
      rewrite <- (length_map length M), <- Hd, length_map. done. }
  destruct (sameDims_lookup bd M i row Hd Hrow) as (row' & Hrow' & Hlen).
  rewrite Hrow'. f_equal. apply list_eq. intros x.
  destruct (row !! x) as [v|] eqn:Hv.
  - destruct (lookup_lt_is_Some_2 row' x) as [v' Hv'].
    { rewrite Hlen. by eapply lookup_lt_Some. }
    rewrite Hv'. f_equal.
    rewrite <- (cellAt_lookup M x i row' v' Hrow' Hv').
    rewrite <- (cellAt_lookup bd x i row v Hrow Hv). rewrite Hc.
    assert (Hocc : occupiedAt (shape p) p0 (Z.of_nat x) (Z.of_nat i) = false).
    { unfold occupiedAt, cellAt.
      destruct (Z.of_nat i - py p0 <? 0) eqn:E; [done|]. zb.
      rewrite lookup_ge_None_2; [done|]. lia. }
    by rewrite Hocc, andb_false_r.
  - apply lookup_ge_None. apply lookup_ge_None in Hv. lia.
Qed.

Lemma lock_complete_rows p p0 bd M :
  wellSized bd → withinWalls p p0 → 0 ≤ py p0 →
  countComplete bd = 0%nat → paint p p0 bd = Some M →
  (countComplete M ≤ length (shape p))%nat.
Proof.
  intros Hw Hfit Hy Hnone HM. unfold countComplete.
  apply (filter_window rowComplete M (Z.to_nat (py p0))).
  intros i row Hi Hc.
  destruct (Z.lt_ge_cases (Z.of_nat i) (py p0)) as [Hlow|Hlow];
    [|destruct (Z.lt_ge_cases (Z.of_nat i) (py p0 + Z.of_nat (length (shape p))))
        as [Hhigh|Hhigh]; [lia|]];
    exfalso;
    (rewrite (paint_other_rows p p0 bd M i Hw Hfit HM) in Hi by auto;
     apply list_elem_of_lookup_2, list_elem_of_In in Hi;
     by rewrite (countComplete_none bd row Hnone Hi) in Hc).
Qed.

(** What a lock does to the counts: on a board without a filled row, a
    piece painted on free cells fills as many cells as its mask has, and
    completes rows among those of the mask only. *)
Lemma lock_counts bd p p0 M :
  wellSized bd → cellsOK bd → countFilledRows bd = 0%nat →
  color p ≠ EmptyString → isColliding bd p p0 = Some false → 0 ≤ py p0 →
  paint p p0 bd = Some M →
  cellsOK M ∧
  (countFilledRows M ≤ length (shape p))%nat ∧
  (filledCount (clearSpec M) + 10 * countFilledRows M
   = filledCount bd + cellCount (shape p))%nat.
Proof.
  intros Hw Hcells Hnone Hcol Hfree Hy HM.
  pose proof (notColliding_withinWalls bd p p0 Hw Hfree) as Hfit.
  assert (HwM : wellSized M).
  { destruct (paint_within p p0 bd Hw Hfit) as (M' & HM' & Hd & _).
    assert (M' = M) as -> by congruence. by eapply wellSized_sameDims. }
  pose proof (paint_cellsOK bd p p0 M Hw Hcells Hfit Hcol HM) as HokM.
  rewrite <- (countComplete_filled bd Hcells) in Hnone.
  rewrite <- (countComplete_filled M HokM).
  split; [done|]. split.
  - by apply (lock_complete_rows p p0 bd M).
  - pose proof (paint_count p p0 bd M Hw Hcol Hy Hfree HM).
    pose proof (clearSpec_count M HwM HokM). lia.
Qed.

(** ** States of the scenarios that runs reach *)

Lemma scenarioStart_reachable : reachable scenarioStart.
Proof.
  apply (reachable_step (Spawn (3 # 7)) initialState);
    [apply reachable_init | by vm_compute | reflexivity].
Qed.

Lemma scenarioRest_reachable : reachable scenarioRest.
Proof.
  apply (run_reachable (replicate 18 Tick) scenarioStart);
    [apply scenarioStart_reachable | by apply Forall_replicate | by vm_compute].
Qed.

Lemma stuckState_reachable : reachable stuckState.
Proof.
  apply (run_reachable (overlapRun ++ [Tick]) initialState);
    [apply reachable_init | | by vm_compute].
  apply Forall_app. split; [apply overlapRun_valid|].
  by apply Forall_cons.
Qed.

(** ** Invariants of runs *)

(** X4.  Take a state whose board has 20 rows of 10 cells, each 0 or a
    non-empty colour string, and no filled row, and whose active piece
    has a non-empty colour and collides with nothing where it is.  An
    event other than the reset either leaves board and score as they are,
    or locks the piece: then no piece is active, the rows cleared are at
    most as many as the mask has rows, the score grows by 100 per cleared
    row, and the number of filled cells grows by the occupied cells of
    the mask less ten per cleared row. *)
Theorem lock_adds_piece_cells e s s' p :
  wellSized (board s) → cellsOK (board s) →
  countFilledRows (board s) = 0%nat →
  currentPiece s = Some p → color p ≠ EmptyString →
  isColliding (board s) p (position s) = Some false →
  e ≠ Reset → step e s = Some s' →
  (board s' = board s ∧ score s' = score s) ∨
  (currentPiece s' = None ∧
   ∃ k : nat, (k ≤ length (shape p))%nat ∧
     score s' = score s + 100 * Z.of_nat k ∧
     (filledCount (board s') + 10 * k
      = filledCount (board s) + cellCount (shape p))%nat).
Proof.
  intros Hw Hcells Hnone Hp Hcol Hfree Hne Hstep. apply step_fires in Hstep.
  destruct Hstep as [e s _|s|r s _ _|e s q p0 _ _ _ _|s q sh _ _ _ _
                    |e s q _ _ _ _ _|e s q M _ _ Hq _ Hy HM];
    try (left; split; reflexivity); try done.
  right. split; [done|].
  assert (q = p) as -> by congruence.
  destruct (lock_counts (board s) p (position s) M Hw Hcells Hnone Hcol Hfree
              ltac:(lia) HM) as (HokM & Hk & Hcount).
  exists (countFilledRows M). split; [done|]. simpl.
  by rewrite (countComplete_filled M HokM).
Qed.

Lemma lock_adds_piece_cells_witness :
  (board scenarioCleared = board scenarioGap ∧
   score scenarioCleared = score scenarioGap) ∨
  (currentPiece scenarioCleared = None ∧
   ∃ k : nat, (k ≤ length (shape pieceO))%nat ∧
     score scenarioCleared = score scenarioGap + 100 * Z.of_nat k ∧
     (filledCount (board scenarioCleared) + 10 * k
      = filledCount (board scenarioGap) + cellCount (shape pieceO))%nat).
Proof.
  apply (lock_adds_piece_cells Tick scenarioGap scenarioCleared pieceO);
    [reflexivity | apply cellsOK_check; reflexivity | reflexivity | reflexivity
    | discriminate | reflexivity | discriminate | reflexivity].
Defined.

(** X5.  In every state of a run the position has y >= 0 and the top row
    of the board holds no filled cell: a piece locks at y >= 1 only. *)
Theorem top_row_stays_empty s :
  reachable s →
  0 ≤ py (position s) ∧ ∀ X, filled (board s) X 0 = false.
Proof.
  intros Hreach. destruct (reachable_board s Hreach) as (Hy & Htop & _).
  by split.
Qed.

Lemma top_row_stays_empty_witness :
  0 ≤ py (position stuckState) ∧ ∀ X, filled (board stuckState) X 0 = false.
Proof. apply (top_row_stays_empty stuckState). apply stuckState_reachable. Defined.

(** X6.  No board of a run keeps a complete row: every row has a cell
    that is not filled. *)
Theorem no_complete_row_remains s row :
  reachable s → In row (board s) →
  rowComplete row = false ∧ ∃ v, In v row ∧ truthy v = false.
Proof.
  intros Hreach Hin. destruct (reachable_board s Hreach) as (_ & _ & Hnone & _).
  pose proof (countComplete_none (board s) row Hnone Hin) as Hc.
  split; [done|]. destruct (reachable_inv s Hreach) as (_ & Hcells & _).
  unfold cellsOK in Hcells. rewrite Forall_forall in Hcells.
  rewrite rowComplete_filled in Hc by (by apply Hcells, list_elem_of_In).
  clear -Hc. induction row as [|v row IH]; [done|]. simpl in Hc.
  destruct (truthy v) eqn:Hv.
  - destruct (IH Hc) as (w & Hw & Hwf). exists w. split; [by right|done].
  - exists v. split; [by left|done].
Qed.

Lemma no_complete_row_remains_witness :
  rowComplete blockRow = false ∧ ∃ v, In v blockRow ∧ truthy v = false.
Proof.
  apply (no_complete_row_remains stuckState blockRow);
    [apply stuckState_reachable | vm_compute; tauto].
Defined.

(** X7.  In every state of a run each cell of the board is the number 0
    or the colour of one of the seven templates, and so is the colour of
    the active piece. *)
Theorem cells_hold_template_colours s :
  reachable s →
  Forall (Forall templateCell) (board s) ∧
  ∀ p, currentPiece s = Some p → In (color p) (map color templates).
Proof.
  intros Hreach. destruct (reachable_board s Hreach) as (_ & _ & _ & Hcol).
  split; [done|]. intros p Hp.
  pose proof (reachable_orientation s p Hreach Hp) as Hor.
  pose proof orientations_facts as Hf. rewrite Forall_forall in Hf.
  by destruct (Hf p) as (_ & _ & Hc & _); [by apply list_elem_of_In|].
Qed.

Lemma cells_hold_template_colours_witness :
  Forall (Forall templateCell) (board stuckState) ∧
  ∀ p, currentPiece stuckState = Some p → In (color p) (map color templates).
Proof.
  apply (cells_hold_template_colours stuckState). apply stuckState_reachable.
Defined.

(** X8.  The active piece of a state of a run is a template turned zero
    to three times by the rotation, with the template's colour; its mask
    has exactly four occupied cells and at most four rows. *)
Theorem active_piece_is_tetromino s p :
  reachable s → currentPiece s = Some p →
  (∃ q n, In q templates ∧ (n < 4)%nat ∧
          rotateN n (shape q) = Some (shape p) ∧ color p = color q) ∧
  cellCount (shape p) = 4%nat ∧ (length (shape p) ≤ 4)%nat.
Proof.
  intros Hreach Hp. pose proof (reachable_orientation s p Hreach Hp) as Hor.
  split.
  - unfold orientations in Hor. apply in_flat_map in Hor as (q & Hq & Hin).
    apply list_elem_of_In, list_elem_of_omap in Hin as (n & Hn & Hrot).
    destruct (rotateN n (shape q)) as [sh|] eqn:Hsh; [|done].
    injection Hrot as <-. exists q, n. split; [done|]. split; [|done].
    repeat (apply elem_of_cons in Hn as [->|Hn]; [lia|]).
    by apply elem_of_nil in Hn.
  - pose proof orientations_facts as Hf. rewrite Forall_forall in Hf.
    by destruct (Hf p) as (? & ? & _); [by apply list_elem_of_In|].
Qed.

Lemma active_piece_is_tetromino_witness :
  (∃ q n, In q templates ∧ (n < 4)%nat ∧
          rotateN n (shape q) = Some (shape pieceO) ∧ color pieceO = color q) ∧
  cellCount (shape pieceO) = 4%nat ∧ (length (shape pieceO) ≤ 4)%nat.
Proof.
  apply (active_piece_is_tetromino scenarioRest pieceO);
    [apply scenarioRest_reachable | reflexivity].
Defined.

(** X10.  In a state whose board has 20 rows of 10 cells and whose active
    piece, if there is one, has a mask with at least one row and has
    every occupied cell between the walls and above the floor, no event
    and no render raises a [TypeError]: every read of [board[newY]] and
    of [shape[0]] finds an array. *)
Theorem no_error_within_walls s :
  wellSized (board s) →
  (∀ p, currentPiece s = Some p →
        shape p ≠ [] ∧ withinWalls p (position s)) →
  (∀ e, is_Some (step e s)) ∧ is_Some (renderBoard s).
Proof.
  intros Hw Hpiece.
  assert (Hdown : is_Some (moveDown s)).
  { destruct (currentPiece s) as [p|] eqn:Hp;
      [|unfold moveDown; rewrite Hp; by eexists].
    destruct (Hpiece p eq_refl) as [_ Hfit].
    destruct (isColliding_total (board s) p (down (position s)) Hw) as [[|] Hc];
      [|rewrite (moveDown_free s p Hp Hc); by eexists].
    destruct (Z.lt_ge_cases (py (position s)) 1) as [Hy|Hy];
      [rewrite (moveDown_gameOver s p Hp Hc Hy); by eexists|].
    rewrite (moveDown_lock s p Hp Hc Hy).
    destruct (mergePieceToBoard_spec s p Hp Hw Hfit) as (M & _ & _ & _ & ->).
    by eexists. }
  assert (Hside : ∀ dir, is_Some (moveHorizontally dir s)).
  { intros dir. unfold moveHorizontally.
    destruct (currentPiece s) as [p|]; [|by eexists].
    destruct (isColliding_total (board s) p
                {| px := px (position s) + dir; py := py (position s) |} Hw)
      as [[|] ->]; by eexists. }
  assert (Hturn : is_Some (rotatePiece s)).
  { unfold rotatePiece. destruct (currentPiece s) as [p|] eqn:Hp; [|by eexists].
    destruct (Hpiece p eq_refl) as [Hne _].
    destruct (shape p) as [|row0 rest] eqn:Hsh; [done|]. simpl.
    match goal with
    | |- context [isColliding (board s) ?q (position s)] =>
        destruct (isColliding_total (board s) q (position s) Hw) as [[|] ->]
    end; by eexists. }
  split.
  - intros [r| |k|]; simpl; [by eexists| | |by eexists].
    + unfold tick. destruct (gameOver s); [by eexists|done].
    + unfold handleKeyPress. destruct (gameOver s); [by eexists|].
      destruct (String.eqb k "ArrowLeft"); [done|].
      destruct (String.eqb k "ArrowRight"); [done|].
      destruct (String.eqb k "ArrowDown"); [done|].
      destruct (String.eqb k "ArrowUp"); [done|]. by eexists.
  - unfold renderBoard, displayBoard.
    destruct (currentPiece s) as [p|] eqn:Hp; [|by eexists].
    destruct (Hpiece p eq_refl) as [_ Hfit].
    destruct (paint_within p (position s) (board s) Hw Hfit) as (M & -> & _).
    by eexists.
Qed.

Lemma no_error_within_walls_witness :
  (∀ e, is_Some (step e scenarioGap)) ∧ is_Some (renderBoard scenarioGap).
Proof.
  apply (no_error_within_walls scenarioGap); [reflexivity|].
  intros p [= <-]. split; [discriminate|reflexivity].
Defined.

(** ** Horizontal moves *)

(** X11.  In a state with an active piece on a board of 20 rows,
    [moveHorizontally] raises no error; it changes the column by [dir]
    when no occupied cell of the piece, shifted by [dir], is blocked, and
    changes nothing otherwise.  Board, piece, row, score and flag are the
    same in both cases. *)
Theorem moveHorizontally_correct dir s p :
  currentPiece s = Some p →
  (Z.to_nat BOARD_HEIGHT ≤ length (board s))%nat →
  ∃ b, moveHorizontally dir s =
         Some (if b : bool then s
               else withPosition s {| px := px (position s) + dir;
                                      py := py (position s) |}) ∧
       (b = true ↔
        ∃ x y : nat, occupied (shape p) x y ∧
          blocked (board s) (px (position s) + dir + Z.of_nat x)
                            (py (position s) + Z.of_nat y)).
Proof.
  intros Hp Hlen.
  destruct (isColliding_blocked (board s) p (sideways dir (position s)) Hlen)
    as (b & Hb & Hiff).
  exists b. split; [|done]. destruct b.
  - by apply (moveHorizontally_blocked dir s p).
  - by apply (moveHorizontally_free dir s p).
Qed.

Lemma moveHorizontally_correct_witness :
  ∃ b, moveHorizontally 1 scenarioRest =
         Some (if b : bool then scenarioRest
               else withPosition scenarioRest
                      {| px := px (position scenarioRest) + 1;
                         py := py (position scenarioRest) |}) ∧
       (b = true ↔
        ∃ x y : nat, occupied (shape pieceO) x y ∧
          blocked (board scenarioRest)
                  (px (position scenarioRest) + 1 + Z.of_nat x)
                  (py (position scenarioRest) + Z.of_nat y)).
Proof.
  apply (moveHorizontally_correct 1 scenarioRest pieceO);
    [reflexivity | vm_compute; lia].
Defined.

(** X12.  A horizontal move that succeeds is undone by the opposite move:
    when the piece collides neither where it is nor one column further in
    direction [dir], moving by [dir] and then by [-dir] gives the state
    back. *)
Theorem moveHorizontally_round_trip dir s p :
  currentPiece s = Some p →
  isColliding (board s) p (position s) = Some false →
  isColliding (board s) p (sideways dir (position s)) = Some false →
  moveHorizontally dir s ≫= moveHorizontally (- dir) = Some s.
Proof.
  intros Hp Hhere Hthere.
  rewrite (moveHorizontally_free dir s p Hp Hthere). simpl.
  assert (Hback : sideways (- dir) (sideways dir (position s)) = position s).
  { unfold sideways. simpl. destruct (position s) as [x y]. simpl. f_equal. lia. }
  rewrite (moveHorizontally_free (- dir) _ p); simpl; rewrite ?Hback; try done.
  unfold withPosition. simpl. by rewrite state_eta.
Qed.

Lemma moveHorizontally_round_trip_witness :
  moveHorizontally (-1) scenarioRest ≫= moveHorizontally (- -1) = Some scenarioRest.
Proof.
  apply (moveHorizontally_round_trip (-1) scenarioRest pieceO); reflexivity.
Defined.

(** ** Falling *)

Lemma ticks_S n s : ticks (S n) s = tick s ≫= ticks n.
Proof. done. Qed.

Lemma falls_within m :
  ∀ s p, reachable s → gameOver s = false → currentPiece s = Some p →
    BOARD_HEIGHT - py (position s) ≤ Z.of_nat m →
    ∃ (n : nat) s', (n ≤ m)%nat ∧ ticks n s = Some s' ∧ reachable s' ∧
                    (currentPiece s' = None ∨ gameOver s' = true).
Proof.
  induction m as [|m IH]; intros s p Hreach Hgo Hp Hm.
  { exfalso. destruct (reachable_inv s Hreach) as (Hw & _ & Hinv).
    pose proof (pieceInv_withinWalls s p Hw (Hinv p Hp)) as Hfit.
    rewrite withinWalls_cells in Hfit.
    pose proof (reachable_orientation s p Hreach Hp) as Hor.
    pose proof orientations_facts as Hf. rewrite Forall_forall in Hf.
    destruct (Hf p) as (_ & _ & _ & x & y & Ho); [by apply list_elem_of_In|].
    destruct (Hfit x y Ho). lia. }
  destruct (reachable_inv s Hreach) as (Hw & _ & _).
  assert (Htick : tick s = moveDown s) by (unfold tick; by rewrite Hgo).
  destruct (isColliding_total (board s) p (down (position s)) Hw) as [[|] Hc].
  - destruct (step_inv Tick s (reachable_inv s Hreach)) as (s' & Hs & _).
    exists 1%nat, s'. split; [lia|]. simpl in Hs. rewrite ticks_S, Hs. simpl.
    split; [done|]. split; [by apply (reachable_step Tick s)|].
    rewrite Htick in Hs.
    destruct (Z.lt_ge_cases (py (position s)) 1) as [Hy|Hy].
    + rewrite (moveDown_gameOver s p Hp Hc Hy) in Hs. injection Hs as <-. by right.
    + rewrite (moveDown_lock s p Hp Hc Hy) in Hs. left.
      unfold mergePieceToBoard in Hs. rewrite Hp in Hs.
      destruct (paint p (position s) (board s)); [|done].
      by injection Hs as <-.
  - pose proof (moveDown_free s p Hp Hc) as Hs. rewrite <- Htick in Hs.
    destruct (IH (withPosition s (down (position s))) p) as (n & s' & Hn & Ht & Hr & Hend).
    + by apply (reachable_step Tick s).
    + done.
    + done.
    + simpl. lia.
    + exists (S n), s'. split; [lia|]. rewrite ticks_S, Hs. by simpl.
Qed.

(** X13.  A piece comes to rest: from a state of a run with an active
    piece and the game not over, at most 20 firings of the interval lead,
    without error, to a state in which the piece is locked (no piece is
    active) or the game is over. *)
Theorem piece_comes_to_rest s p :
  reachable s → gameOver s = false → currentPiece s = Some p →
  ∃ (n : nat) s', (n ≤ 20)%nat ∧ ticks n s = Some s' ∧
                  (currentPiece s' = None ∨ gameOver s' = true).
Proof.
  intros Hreach Hgo Hp.
  destruct (reachable_board s Hreach) as (Hy & _).
  destruct (falls_within 20 s p Hreach Hgo Hp) as (n & s' & Hn & Ht & _ & Hend).
  { unfold BOARD_HEIGHT. lia. }
  by exists n, s'.
Qed.

Lemma piece_comes_to_rest_witness :
  ∃ (n : nat) s', (n ≤ 20)%nat ∧ ticks n scenarioStart = Some s' ∧
                  (currentPiece s' = None ∨ gameOver s' = true).
Proof.
  apply (piece_comes_to_rest scenarioStart pieceO);
    [apply scenarioStart_reachable | reflexivity | reflexivity].
Defined.

(** ** The line clear *)

(** X15.  After the line clear (lines 93-106) no row of the grid is
    complete, so that a second clear changes neither the grid nor the
    score. *)
Theorem clearLines_idempotent (bd : list (list value)) (sc sc' : Z) :
  countComplete (fst (clearLines bd sc)) = 0%nat ∧
  clearLines (fst (clearLines bd sc)) sc' = (fst (clearLines bd sc), sc').
Proof.
  rewrite (clearLines_spec bd sc). simpl.
  pose proof (countComplete_clearSpec bd) as Hk. split; [done|].
  rewrite clearLines_spec. unfold clearSpec at 1. rewrite Hk. simpl.
  rewrite filter_none_complete by done. f_equal. lia.
Qed.

(** ** Collision and the content of the board *)

(** X16.  The collision query sees of the board only which cells are
    filled, and filling more cells never frees a position: if every filled
    cell of [bd] is filled in [bd'], a piece that collides on [bd] collides
    on [bd']. *)
Theorem isColliding_monotone bd bd' p p0 :
  (Z.to_nat BOARD_HEIGHT ≤ length bd)%nat →
  (Z.to_nat BOARD_HEIGHT ≤ length bd')%nat →
  (∀ X Y, filled bd X Y = true → filled bd' X Y = true) →
  isColliding bd p p0 = Some true → isColliding bd' p p0 = Some true.
Proof.
  intros Hlen Hlen' Hsub Hc.
  destruct (isColliding_blocked bd p p0 Hlen) as (b & Hb & Hiff).
  destruct (isColliding_blocked bd' p p0 Hlen') as (b' & Hb' & Hiff').
  rewrite Hb'. f_equal. apply Hiff'.
  assert (b = true) as -> by congruence.
  destruct Hiff as [Hex _]. destruct (Hex eq_refl) as (x & y & Ho & Hbl).
  exists x, y. split; [done|]. unfold blocked in *.
  destruct Hbl as [?|[?|[?|[? Hf]]]]; auto.
  right. right. right. split; [done|]. by apply Hsub.
Qed.

Lemma filled_blockBoard X Y :
  filled blockBoard X Y = true → 4 ≤ X ≤ 5 ∧ 18 ≤ Y ≤ 19.
Proof.
  intros Hf. unfold filled in Hf.
  destruct (truthy_cellAt_nonneg _ _ _ Hf) as [HX HY].
  destruct (Z.le_gt_cases 20 Y) as [Hbig|Hy].
  { unfold cellAt in Hf. destruct (Y <? 0); [done|].
    rewrite lookup_ge_None_2 in Hf; [done|]. simpl. lia. }
  destruct (Z.le_gt_cases 10 X) as [Hbig|Hx].
  { unfold cellAt in Hf. destruct (Y <? 0); [done|].
    destruct (blockBoard !! Z.to_nat Y) as [row|] eqn:Hrow; [|done].
    assert (Hlen : length row = 10%nat).
    { apply list_elem_of_lookup_2 in Hrow.
      repeat (apply elem_of_cons in Hrow as [->|Hrow]; [reflexivity|]).
      by apply elem_of_nil in Hrow. }
    unfold get, js_nth in Hf. destruct (X <? 0); [done|].
    rewrite lookup_ge_None_2 in Hf; [done|]. lia. }
  assert (HXc : ∃ x : nat, X = Z.of_nat x ∧ (x < 10)%nat)
    by (exists (Z.to_nat X); lia).
  assert (HYc : ∃ y : nat, Y = Z.of_nat y ∧ (y < 20)%nat)
    by (exists (Z.to_nat Y); lia).
  destruct HXc as (x & -> & Hx'), HYc as (y & -> & Hy').
  clear HX HY Hx Hy.
  do 20 (destruct y as [|y]; [do 10 (destruct x as [|x];
           [vm_compute in Hf; (discriminate Hf || lia)|]); lia|]).
  lia.
Qed.

Lemma isColliding_monotone_witness :
  isColliding crowdedBoard pieceO {| px := 4; py := 17 |} = Some true.
Proof.
  apply (isColliding_monotone blockBoard crowdedBoard pieceO {| px := 4; py := 17 |});
    [vm_compute; lia | vm_compute; lia | | reflexivity].
  intros X Y Hf. destruct (filled_blockBoard X Y Hf) as [HX HY].
  assert (HXc : X = 4 ∨ X = 5) by lia. assert (HYc : Y = 18 ∨ Y = 19) by lia.
  destruct HXc as [-> | ->], HYc as [-> | ->]; reflexivity.
Defined.

(** X17.  On the board that [createBoard] returns no cell is filled, and
    a piece collides exactly when one of its occupied cells is outside the
    columns [0, 10) or at or below row 20. *)
Theorem createBoard_empty p p0 :
  wellSized createBoard ∧
  (∀ X Y, filled createBoard X Y = false) ∧
  ∃ b, isColliding createBoard p p0 = Some b ∧
       (b = true ↔
        ∃ x y : nat, occupied (shape p) x y ∧
          (px p0 + Z.of_nat x < 0 ∨ BOARD_WIDTH ≤ px p0 + Z.of_nat x ∨
           BOARD_HEIGHT ≤ py p0 + Z.of_nat y)).
Proof.
  split; [reflexivity|]. split; [apply filled_createBoard|].
  destruct (isColliding_blocked createBoard p p0) as (b & Hb & Hiff); [done|].
  exists b. split; [done|]. rewrite Hiff.
  split; intros (x & y & Ho & Hbl); exists x, y; (split; [done|]);
    unfold blocked in *.
  - rewrite filled_createBoard in Hbl. destruct Hbl as [?|[?|[?|[_ ?]]]]; auto.
    done.
  - destruct Hbl as [?|[?|?]]; auto.
Qed.

(** ** Half turns *)

(** X18.  Two rotations of a rectangular mask of [r >= 1] rows and
    [c >= 1] columns give a mask of the same dimensions turned by a half
    turn: its entry [(i, j)] is the entry [(r - 1 - i, c - 1 - j)] of the
    mask. *)
Theorem rotate_twice (r c : nat) (sh : list (list value)) :
  rect r c sh → (0 < r)%nat → (0 < c)%nat →
  ∃ sh2, rotateN 2 sh = Some sh2 ∧ rect r c sh2 ∧
    ∀ i j, (i < r)%nat → (j < c)%nat →
      entry sh2 i j = entry sh (r - 1 - i) (c - 1 - j).
Proof.
  intros Hr Hrpos Hcpos. simpl.
  destruct (rotateShape_entry r c sh Hr Hrpos) as (s1 & -> & Hr1 & He1). simpl.
  destruct (rotateShape_entry c r s1 Hr1 Hcpos) as (s2 & -> & Hr2 & He2). simpl.
  exists s2. split; [done|]. split; [done|]. intros i j Hi Hj.
  rewrite He2, He1 by lia. f_equal.
Qed.

Lemma rotate_twice_witness :
  ∃ sh2, rotateN 2 (shape pieceI) = Some sh2 ∧ rect 1 4 sh2 ∧
    ∀ i j, (i < 1)%nat → (j < 4)%nat →
      entry sh2 i j = entry (shape pieceI) (1 - 1 - i) (4 - 1 - j).
Proof. apply (rotate_twice 1 4 (shape pieceI)); [reflexivity | lia | lia]. Defined.

(** ** Reset *)

Lemma run_app es1 es2 s :
  run (es1 ++ es2) s = run es1 s ≫= run es2.
Proof.
  revert s. induction es1 as [|e es1 IH]; intros s; simpl; [done|].
  destruct (step e s) as [s1|]; simpl; [apply IH|done].
Qed.

(** X19.  The five setters of [resetGame] (lines 210-214) put back the
    five initial values of lines 42-46, whatever the state and whatever
    other setter calls of the same render came before them; so the reset
    forgets what came before it: a run that contains a reset ends where
    the part after the reset ends from the initial state, provided the
    part before it raises no error. *)
Theorem reset_forgets :
  (∀ s, resetGame s = initialState) ∧
  (∀ us s, applyUpdates (us ++ resetCalls) s = initialState) ∧
  (∀ es1 es2 s s1, run es1 s = Some s1 →
     run (es1 ++ Reset :: es2) s = run es2 initialState).
Proof.
  split; [reflexivity|]. split.
  - intros us s. unfold applyUpdates. by rewrite foldl_app.
  - intros es1 es2 s s1 H1. rewrite run_app, H1. reflexivity.
Qed.

Lemma reset_forgets_witness :
  run (replicate 18 Tick ++ Reset :: [Spawn (3 # 7)]) scenarioStart
  = run [Spawn (3 # 7)] initialState.
Proof.
  destruct reset_forgets as (_ & _ & Hrun).
  apply (Hrun (replicate 18 Tick) [Spawn (3 # 7)] scenarioStart scenarioRest).
  by vm_compute.
Defined.

(** ** The rendered board *)

Lemma allKeys_NoDup : NoDup allKeys.
Proof. apply (bool_decide_unpack _). by vm_compute. Qed.

Lemma templateCell_background v :
  templateCell v →
  ∃ c, cellBackground v = VStr c ∧ In c ("#333"%string :: map color templates) ∧
       (truthy v = true → v = VStr c).
Proof.
  intros [->|(c & Hc & ->)].
  - exists "#333"%string. split; [done|]. split; [by left|done].
  - exists c. split; [|split; [by right|done]].
    simpl in Hc. repeat (destruct Hc as [<-|Hc]; [reflexivity|]). done.
Qed.

(** What [displayBoard] holds in a state of a run. *)
Lemma reachable_displayBoard s :
  reachable s →
  ∃ shown, displayBoard s = Some shown ∧ wellSized shown ∧
    ∀ X Y, cellAt shown X Y =
           match pieceColourAt s X Y with
           | Some c => VStr c
           | None => cellAt (board s) X Y
           end.
Proof.
  intros Hreach. destruct (reachable_inv s Hreach) as (Hw & _ & Hinv).
  unfold displayBoard, pieceColourAt.
  destruct (currentPiece s) as [p|] eqn:Hp; [|by exists (board s)].
  pose proof (pieceInv_withinWalls s p Hw (Hinv p eq_refl)) as Hfit.
  destruct (paint_within p (position s) (board s) Hw Hfit) as (M & HM & Hd & Hc).
  exists M. split; [done|]. split; [by eapply wellSized_sameDims|].
  intros X Y. rewrite Hc. by destruct (_ && _).
Qed.

Lemma wellSized_lookup bd (y : nat) row :
  wellSized bd → bd !! y = Some row → (y < 20)%nat ∧ length row = 10%nat.
Proof.
  intros Hw Hrow. pose proof (wellSized_length bd Hw) as Hlen.
  apply wellSized_widths in Hw as [_ Hall]. rewrite Forall_lookup in Hall.
  split; [|by apply (Hall y row)].
  apply lookup_lt_Some in Hrow. unfold BOARD_HEIGHT in Hlen. lia.
Qed.

Lemma render_keys (F : nat → nat → value → cellDiv) bd :
  wellSized bd → (∀ y x v, key (F y x v) = cellKey y x) →
  map key (concat (imap (λ y row, imap (F y) row) bd)) = allKeys.
Proof.
  intros Hw HF. rewrite concat_map. unfold allKeys. f_equal.
  apply list_eq. intros y.
  change (map (map key)) with (fmap (M := list) (map key)).
  rewrite !list_lookup_fmap, list_lookup_imap.
  destruct (bd !! y) as [row|] eqn:Hrow.
  - destruct (wellSized_lookup bd y row Hw Hrow) as [Hy Hlen].
    rewrite lookup_seq_lt by done.
    change (Some (key <$> imap (F y) row) = Some (cellKey y <$> seq 0 10)).
    f_equal. rewrite fmap_imap.
    rewrite <- Hlen, <- (imap_seq_0 row (cellKey y)).
    apply imap_ext. intros x v _. simpl. apply HF.
  - apply lookup_ge_None in Hrow. rewrite (wellSized_length bd Hw) in Hrow.
    rewrite lookup_ge_None_2; [done|]. rewrite length_seq.
    unfold BOARD_HEIGHT in Hrow. lia.
Qed.

(** What [displayBoard] holds when the piece lies within the walls. *)
Lemma displayBoard_within s :
  wellSized (board s) →
  (∀ p, currentPiece s = Some p → withinWalls p (position s)) →
  ∃ shown, displayBoard s = Some shown ∧ wellSized shown ∧
    ∀ X Y, cellAt shown X Y =
           match pieceColourAt s X Y with
           | Some c => VStr c
           | None => cellAt (board s) X Y
           end.
Proof.
  intros Hw Hfits. unfold displayBoard, pieceColourAt.
  destruct (currentPiece s) as [p|] eqn:Hp; [|by exists (board s)].
  destruct (paint_within p (position s) (board s) Hw (Hfits p eq_refl))
    as (M & HM & Hd & Hc).
  exists M. split; [done|]. split; [by eapply wellSized_sameDims|].
  intros X Y. rewrite Hc. by destruct (_ && _).
Qed.

Lemma scenarioGap_templateCells : Forall (Forall templateCell) (board scenarioGap).
Proof.
  apply Forall_app. split.
  { apply Forall_replicate, Forall_replicate. by left. }
  unfold blockRow, gapRow.
  repeat (first [apply List.Forall_cons | apply List.Forall_nil]);
    first [by left
          | right; eexists; split; [|reflexivity]; simpl;
            repeat (first [left; reflexivity | right])].
Qed.

(** X20.  Take a state whose board has 20 rows of 10 cells, each 0 or
    the colour of a template, and whose active piece, if there is one,
    has the colour of a template and has every occupied cell between the
    walls and above the floor.  Then [renderBoard] raises no error and
    returns 20 rows of 10 cells.  The cell of row [y], column [x] has the
    key [y-x] and, as background, the colour of the active piece where
    the piece covers it, else the colour stored in the board, else [#333]
    for an empty cell; every background is [#333] or the colour of a
    template, and no two cells have the same key. *)
Theorem renderBoard_correct s :
  wellSized (board s) →
  Forall (Forall templateCell) (board s) →
  (∀ p, currentPiece s = Some p →
        withinWalls p (position s) ∧ In (color p) (map color templates)) →
  ∃ divs, renderBoard s = Some divs ∧
    length divs = 20%nat ∧
    Forall (λ row, length row = 10%nat) divs ∧
    (∀ (x y : nat) row d, divs !! y = Some row → row !! x = Some d →
       key d = cellKey y x ∧
       backgroundColor d =
         match pieceColourAt s (Z.of_nat x) (Z.of_nat y) with
         | Some c => VStr c
         | None => cellBackground (cellAt (board s) (Z.of_nat x) (Z.of_nat y))
         end ∧
       ∃ c, backgroundColor d = VStr c ∧
            In c ("#333"%string :: map color templates)) ∧
    NoDup (map key (concat divs)).
Proof.
  intros Hwb Hcol Hpiece.
  destruct (displayBoard_within s Hwb) as (shown & Hshown & Hw & Hcell).
  { intros p Hp. by destruct (Hpiece p Hp). }
  unfold renderBoard. rewrite Hshown. simpl. eexists. split; [done|].
  split; [by rewrite length_imap, (wellSized_length shown Hw)|].
  split.
  { apply Forall_lookup. intros y row [r [Hr ->]]%list_lookup_imap_Some.
    rewrite length_imap. by destruct (wellSized_lookup shown y r Hw Hr). }
  split.
  - intros x y row d [r [Hr ->]]%list_lookup_imap_Some
                     [v [Hv ->]]%list_lookup_imap_Some. simpl.
    split; [done|].
    pose proof (cellAt_lookup shown x y r v Hr Hv) as Hat.
    rewrite Hcell in Hat.
    destruct (wellSized_lookup shown y r Hw Hr) as [Hy Hlen].
    assert (Hboard : templateCell (cellAt (board s) (Z.of_nat x) (Z.of_nat y))).
    { rewrite cellsAll_cellAt in Hcol. apply Hcol.
      apply wellSized_inRange; [done| |].
      - apply lookup_lt_Some in Hv. unfold BOARD_WIDTH. lia.
      - unfold BOARD_HEIGHT. lia. }
    unfold pieceColourAt in *.
    destruct (currentPiece s) as [p|] eqn:Hp.
    + destruct (_ && _).
      * subst v. destruct (Hpiece p eq_refl) as [_ Hin].
        assert (Hbg : cellBackground (VStr (color p)) = VStr (color p)).
        { simpl in Hin.
          repeat (destruct Hin as [<-|Hin]; [reflexivity|]). done. }
        rewrite Hbg. split; [done|]. exists (color p).
        split; [done|]. by right.
      * subst v. split; [done|].
        destruct (templateCell_background _ Hboard) as (c & Hbg & Hin & _).
        by exists c.
    + subst v. split; [done|].
      destruct (templateCell_background _ Hboard) as (c & Hbg & Hin & _).
      by exists c.
  - rewrite (render_keys (λ y x cell, {| key := cellKey y x;
                                          className := "cell";
                                          backgroundColor := cellBackground cell |})
               shown Hw) by done.
    apply allKeys_NoDup.
Qed.

Lemma renderBoard_correct_witness :
  ∃ divs, renderBoard scenarioGap = Some divs ∧
    length divs = 20%nat ∧
    Forall (λ row, length row = 10%nat) divs ∧
    (∀ (x y : nat) row d, divs !! y = Some row → row !! x = Some d →
       key d = cellKey y x ∧
       backgroundColor d =
         match pieceColourAt scenarioGap (Z.of_nat x) (Z.of_nat y) with
         | Some c => VStr c
         | None => cellBackground
                     (cellAt (board scenarioGap) (Z.of_nat x) (Z.of_nat y))
         end ∧
       ∃ c, backgroundColor d = VStr c ∧
            In c ("#333"%string :: map color templates)) ∧
    NoDup (map key (concat divs)).
Proof.
  apply (renderBoard_correct scenarioGap);
    [reflexivity | apply scenarioGap_templateCells |].
  intros p [= <-]. split; [reflexivity|]. simpl. tauto.
Defined.

(** ** Free fall and the down arrow *)

(** X21.  In every state the down arrow does what a firing of the
    interval does.  While the game is not over, a firing of the interval
    on a board of at least 20 rows with an active piece moves the piece
    one row down, and changes nothing else, exactly when no occupied cell
    of the piece, one row lower, is blocked. *)
Theorem tick_falls s :
  handleKeyPress "ArrowDown" s = tick s ∧
  ∀ p, currentPiece s = Some p → gameOver s = false →
    (Z.to_nat BOARD_HEIGHT ≤ length (board s))%nat →
    (tick s = Some (withPosition s {| px := px (position s);
                                      py := py (position s) + 1 |})
     ↔ ¬ ∃ x y : nat, occupied (shape p) x y ∧
           blocked (board s) (px (position s) + Z.of_nat x)
                             (py (position s) + 1 + Z.of_nat y)).
Proof.
  split; [unfold handleKeyPress, tick; by destruct (gameOver s)|].
  intros p Hp Hgo Hlen.
  destruct (isColliding_blocked (board s) p (down (position s)) Hlen)
    as (b & Hb & Hiff).
  assert (Htick : tick s = moveDown s) by (unfold tick; by rewrite Hgo).
  rewrite Htick. destruct b.
  - split.
    + intros Hmove. exfalso.
      destruct (Z.lt_ge_cases (py (position s)) 1) as [Hy|Hy].
      * rewrite (moveDown_gameOver s p Hp Hb Hy) in Hmove.
        apply (f_equal (fmap gameOver)) in Hmove. simpl in Hmove. congruence.
      * rewrite (moveDown_lock s p Hp Hb Hy) in Hmove.
        unfold mergePieceToBoard in Hmove. rewrite Hp in Hmove.
        destruct (paint p (position s) (board s)); [|done].
        apply (f_equal (fmap currentPiece)) in Hmove. simpl in Hmove.
        congruence.
    + intros Hnot. exfalso. apply Hnot. by apply Hiff.
  - split.
    + intros _ Hex. apply Hiff in Hex. done.
    + intros _. by apply (moveDown_free s p).
Qed.

Lemma tick_falls_witness :
  tick scenarioStart =
    Some (withPosition scenarioStart
            {| px := px (position scenarioStart);
               py := py (position scenarioStart) + 1 |})
  ↔ ¬ ∃ x y : nat, occupied (shape pieceO) x y ∧
        blocked (board scenarioStart)
                (px (position scenarioStart) + Z.of_nat x)
                (py (position scenarioStart) + 1 + Z.of_nat y).
Proof.
  destruct (tick_falls scenarioStart) as [_ Hfall].
  apply (Hfall pieceO); [reflexivity | reflexivity | vm_compute; lia].
Defined.

(** * Events handled on the same render *)

(** ** The setter calls give the callbacks back *)

Lemma mergeCalls_merge s :
  mergePieceToBoard s = us ← mergeCalls s; Some (applyUpdates us s).
Proof.
  destruct s as [b cp p0 go sc]. unfold mergePieceToBoard, mergeCalls. simpl.
  destruct cp as [p|]; [|done].
  destruct (paint p p0 b) as [M|]; [|done]. simpl. unfold clearLines.
  by destruct (0 <? length (completedRows M))%nat.
Qed.

Lemma moveDownCalls_moveDown s :
  moveDown s = us ← moveDownCalls s; Some (applyUpdates us s).
Proof.
  unfold moveDown, moveDownCalls.
  destruct (currentPiece s) as [p|] eqn:Hp; [|done].
  destruct (isColliding (board s) p _) as [[|]|]; simpl; [| |done].
  - destruct (py (position s) <? 1); [|apply mergeCalls_merge].
    simpl. by rewrite Hp.
  - by rewrite Hp.
Qed.

Lemma moveHorizontallyCalls_moveHorizontally dir s :
  moveHorizontally dir s = us ← moveHorizontallyCalls dir s; Some (applyUpdates us s).
Proof.
  unfold moveHorizontally, moveHorizontallyCalls.
  destruct (currentPiece s) as [p|] eqn:Hp; [|done].
  destruct (isColliding (board s) p _) as [[|]|]; simpl; [done| |done].
  by rewrite Hp.
Qed.

Lemma rotateCalls_rotatePiece s :
  rotatePiece s = us ← rotateCalls s; Some (applyUpdates us s).
Proof.
  unfold rotatePiece, rotateCalls.
  destruct (currentPiece s) as [p|] eqn:Hp; [|done].
  destruct (rotateShape (shape p)) as [sh|]; [|done]. simpl.
  by destruct (isColliding (board s) _ (position s)) as [[|]|].
Qed.

(** One event handled on a render of its own is [step]. *)
Lemma calls_step e s :
  step e s = us ← calls e s; Some (applyUpdates us s).
Proof.
  destruct e as [r| |k|]; simpl.
  - unfold spawnEffect, spawnCalls. destruct s as [b cp p0 go sc]. simpl.
    destruct go; [done|]. by destruct cp.
  - unfold tick. destruct (gameOver s); [done|]. apply moveDownCalls_moveDown.
  - unfold handleKeyPress, keyCalls. destruct (gameOver s); [done|].
    destruct (String.eqb k "ArrowLeft");
      [apply moveHorizontallyCalls_moveHorizontally|].
    destruct (String.eqb k "ArrowRight");
      [apply moveHorizontallyCalls_moveHorizontally|].
    destruct (String.eqb k "ArrowDown"); [apply moveDownCalls_moveDown|].
    destruct (String.eqb k "ArrowUp"); [apply rotateCalls_rotatePiece|].
    done.
  - done.
Qed.

Lemma renders_single e s s' : step e s = Some s' → renders [e] s = s'.
Proof.
  rewrite calls_step. unfold renders. simpl.
  destruct (calls e s) as [us|]; [|done]. simpl. intros [= <-].
  by rewrite app_nil_r.
Qed.

(** ** What a callback can call *)

Lemma mergeCalls_emits s p us :
  gameOver s = false → currentPiece s = Some p →
  isColliding (board s) p (down (position s)) = Some true →
  1 ≤ py (position s) →
  mergeCalls s = Some us → emits s us.
Proof.
  intros Hgo Hp Hc Hy. unfold mergeCalls. rewrite Hp.
  destruct (paint p (position s) (board s)) as [M|] eqn:HM; [|done].
  simpl. intros [= <-]. by apply (emits_lock s p M).
Qed.

Lemma moveDownCalls_emits s us :
  gameOver s = false → moveDownCalls s = Some us → emits s us.
Proof.
  intros Hgo. unfold moveDownCalls.
  destruct (currentPiece s) as [p|] eqn:Hp; [|intros [= <-]; constructor].
  fold (down (position s)).
  destruct (isColliding (board s) p (down (position s))) as [[|]|] eqn:Hc;
    simpl; [| |done].
  - destruct (py (position s) <? 1) eqn:Hy; zb.
    + intros [= <-]. by apply (emits_over s p).
    + by apply (mergeCalls_emits s p).
  - intros [= <-]. by apply (emits_fall s p).
Qed.

Lemma moveHorizontallyCalls_emits dir s us :
  gameOver s = false → moveHorizontallyCalls dir s = Some us → emits s us.
Proof.
  intros Hgo. unfold moveHorizontallyCalls.
  destruct (currentPiece s) as [p|] eqn:Hp; [|intros [= <-]; constructor].
  fold (sideways dir (position s)).
  destruct (isColliding (board s) p (sideways dir (position s))) as [[|]|] eqn:Hc;
    simpl; [| |done].
  - intros [= <-]. constructor.
  - intros [= <-]. by apply (emits_side s p dir).
Qed.

Lemma rotateCalls_emits s us :
  gameOver s = false → rotateCalls s = Some us → emits s us.
Proof.
  intros Hgo. unfold rotateCalls.
  destruct (currentPiece s) as [p|] eqn:Hp; [|intros [= <-]; constructor].
  destruct (rotateShape (shape p)) as [sh|] eqn:Hsh; [|done]. simpl.
  destruct (isColliding (board s) _ (position s)) as [[|]|] eqn:Hc;
    simpl; [| |done].
  - intros [= <-]. constructor.
  - intros [= <-]. by apply (emits_rotate s p sh).
Qed.

Lemma calls_emits e s :
  canOccur s e → emits s (default [] (calls e s)).
Proof.
  intros Hcan. destruct (calls e s) as [us|] eqn:Hus; [|constructor]. simpl.
  destruct e as [r| |k|]; simpl in *.
  - injection Hus as <-. unfold spawnCalls.
    destruct (gameOver s) eqn:Hgo; [constructor|].
    destruct (currentPiece s) eqn:Hp; [constructor|]. by apply emits_spawn.
  - destruct (gameOver s) eqn:Hgo; [injection Hus as <-; constructor|].
    by apply moveDownCalls_emits.
  - unfold keyCalls in Hus.
    destruct (gameOver s) eqn:Hgo; [injection Hus as <-; constructor|].
    destruct (String.eqb k "ArrowLeft"); [by eapply moveHorizontallyCalls_emits|].
    destruct (String.eqb k "ArrowRight"); [by eapply moveHorizontallyCalls_emits|].
    destruct (String.eqb k "ArrowDown"); [by apply moveDownCalls_emits|].
    destruct (String.eqb k "ArrowUp"); [by apply rotateCalls_emits|].
    injection Hus as <-. constructor.
  - injection Hus as <-. by apply emits_reset.
Qed.

Lemma applyUpdates_app us1 us2 s :
  applyUpdates (us1 ++ us2) s = applyUpdates us2 (applyUpdates us1 s).
Proof. unfold applyUpdates. apply foldl_app. Qed.

(** A property kept by every group of calls that an event can make on
    [s] holds after the events handled on [s]. *)
Lemma renders_inv s (I : state → Prop) es :
  Forall (canOccur s) es →
  (∀ us t, emits s us → I t → I (applyUpdates us t)) →
  I s → I (renders es s).
Proof.
  intros Hcan Hkeep. unfold renders.
  assert (Hgen : ∀ t, I t →
            I (applyUpdates (flat_map (λ e, default [] (calls e s)) es) t)).
  { induction Hcan as [|e es He _ IH]; intros t Ht; simpl; [done|].
    rewrite applyUpdates_app. apply IH, Hkeep; [|done]. by apply calls_emits. }
  apply Hgen.
Qed.

(** ** Serial runs are among these runs *)

Lemma renderBoard_displayBoard s :
  is_Some (renderBoard s) ↔ is_Some (displayBoard s).
Proof.
  unfold renderBoard. destruct (displayBoard s); simpl; [|done].
  split; by eexists.
Qed.

Lemma reachable_rendered s : reachable s → rendered s.
Proof.
  induction 1 as [|e s s' Hreach IH Hvalid Hstep]; [constructor|].
  assert (Hreset : e = Reset ∨ canOccur s e).
  { destruct e; [by right|by right|by right|by left]. }
  destruct Hreset as [->|Hcan].
  { simpl in Hstep. injection Hstep as <-. apply rendered_init. }
  rewrite <- (renders_single e s s' Hstep). apply rendered_batch; [done| |].
  - apply renderBoard_displayBoard.
    destruct (reachable_displayBoard s Hreach) as (shown & -> & _). by eexists.
  - by apply Forall_cons.
Qed.

(** ** Game over, whatever the events of a render *)

Lemma applyUpdates_reset t : applyUpdates resetCalls t = initialState.
Proof. by destruct t. Qed.

Lemma applyUpdates_lock_frame s M t :
  position (applyUpdates (lockCalls s M) t) = position t ∧
  gameOver (applyUpdates (lockCalls s M) t) = gameOver t.
Proof.
  unfold lockCalls. by destruct (0 <? length (completedRows M))%nat.
Qed.

Lemma rendered_gameOver s :
  rendered s →
  0 ≤ py (position s) ∧
  (gameOver s = true →
   ∃ p, currentPiece s = Some p ∧ py (position s) = 0).
Proof.
  induction 1 as [|es s Hr [Hy IH] _ Hcan]; [done|].
  destruct (gameOver s) eqn:Hgo.
  - (* the game is over on [s]: only the reset calls a setter *)
    assert (Hend : renders es s = s ∨ renders es s = initialState).
    { apply (renders_inv s (λ t, t = s ∨ t = initialState)); [done| |by left].
      intros us t Hem Ht. destruct Hem; try congruence; [done|].
      right. apply applyUpdates_reset. }
    destruct Hend as [-> | ->]; [|done]. rewrite Hgo. by split.
  - destruct (currentPiece s) as [p|] eqn:Hp.
    2:{ (* no piece: only the spawn effect calls setters *)
      assert (Hend : gameOver (renders es s) = false ∧
                     0 ≤ py (position (renders es s))).
      { apply (renders_inv s (λ t, gameOver t = false ∧ 0 ≤ py (position t)));
          [done| |done].
        intros us t Hem [Hg Hpy]. destruct Hem; try congruence; done. }
      destruct Hend as [Hg Hpy]. split; [done|]. congruence. }
    destruct (isColliding (board s) p (down (position s))) as [[|]|] eqn:Hc.
    + destruct (Z.lt_ge_cases (py (position s)) 1) as [Hlow|Hhigh].
      * (* the piece is stuck on the top row *)
        assert (Hend : (∃ q, currentPiece (renders es s) = Some q) ∧
                       py (position (renders es s)) = py (position s)).
        { apply (renders_inv s (λ t, (∃ q, currentPiece t = Some q) ∧
                                      py (position t) = py (position s)));
            [done| |by split; [exists p|]].
          intros us t Hem [Hq Hpy].
          destruct Hem; try congruence; try done; simpl; try lia.
          by split; [eexists|]. }
        destruct Hend as [[q Hq] Hpy]. split; [lia|]. intros _.
        exists q. split; [done|lia].
      * assert (Hend : gameOver (renders es s) = false ∧
                       0 ≤ py (position (renders es s))).
        { apply (renders_inv s (λ t, gameOver t = false ∧ 0 ≤ py (position t)));
            [done| |done].
          intros us t Hem [Hg Hpy].
          destruct Hem as [| | | | | | |q M]; try congruence; try done;
            try (by destruct (applyUpdates_lock_frame s M t) as [-> ->]);
            simpl; try lia; try (split; [done|lia]). }
        destruct Hend as [Hg Hpy]. split; [done|]. congruence.
    + assert (Hend : gameOver (renders es s) = false ∧
                     0 ≤ py (position (renders es s))).
      { apply (renders_inv s (λ t, gameOver t = false ∧ 0 ≤ py (position t)));
          [done| |done].
        intros us t Hem [Hg Hpy].
        destruct Hem as [| | | | | | |q M]; try congruence; try done;
          simpl; try lia; try (split; [done|lia]). }
      destruct Hend as [Hg Hpy]. split; [done|]. congruence.
    + assert (Hend : gameOver (renders es s) = false ∧
                     0 ≤ py (position (renders es s))).
      { apply (renders_inv s (λ t, gameOver t = false ∧ 0 ≤ py (position t)));
          [done| |done].
        intros us t Hem [Hg Hpy].
        destruct Hem as [| | | | | | |q M]; try congruence; try done;
          simpl; try lia; try (split; [done|lia]). }
      destruct Hend as [Hg Hpy]. split; [done|]. congruence.
Qed.

(** ** The active piece, event by event and in serial runs *)

Lemma fits_notColliding bd p p0 :
  wellSized bd →
  (∀ x y : nat, occupied (shape p) x y →
     0 ≤ px p0 + Z.of_nat x < BOARD_WIDTH ∧ py p0 + Z.of_nat y < BOARD_HEIGHT) →
  (∀ x y : nat, occupied (shape p) x y → 0 ≤ py p0 + Z.of_nat y →
     filled bd (px p0 + Z.of_nat x) (py p0 + Z.of_nat y) = false) →
  isColliding bd p p0 = Some false.
Proof.
  intros Hw Hin Hfree.
  destruct (isColliding_blocked bd p p0) as (b & Hb & Hiff).
  { by rewrite (wellSized_length _ Hw). }
  rewrite Hb. f_equal. destruct b; [|done]. destruct Hiff as [Hex _].
  destruct (Hex eq_refl) as (x & y & Ho & Hbl). destruct (Hin x y Ho).
  unfold blocked in Hbl. destruct Hbl as [?|[?|[?|[Hy Hf]]]]; try lia.
  by rewrite (Hfree x y Ho Hy) in Hf.
Qed.



(** ** Two events on one render can push the piece through the floor *)





(** ** A game that is over keeps its piece on the top row *)

(** X9.  Whenever the game is over, in a run in which any number of
    events is handled on each render (one event per render included), a
    piece is still active and it is on the spawn row, y = 0. *)
Theorem gameOver_keeps_piece_on_top_row s :
  rendered s → gameOver s = true →
  ∃ p, currentPiece s = Some p ∧ py (position s) = 0.
Proof. intros Hr. by destruct (rendered_gameOver s Hr). Qed.

Lemma gameOver_keeps_piece_on_top_row_witness :
  ∃ p, currentPiece stuckState = Some p ∧ py (position stuckState) = 0.
Proof.
  apply (gameOver_keeps_piece_on_top_row stuckState);
    [apply reachable_rendered, stuckState_reachable | by vm_compute].
Defined.

(** * When painting raises a TypeError *)

Lemma writeCell_None bd Y X c :
  writeCell bd Y X c = None ↔ (length bd ≤ Z.to_nat Y)%nat.
Proof.
  unfold writeCell. rewrite <- lookup_ge_None.
  by destruct (bd !! Z.to_nat Y).
Qed.

Lemma writeCell_length bd Y X c bd' :
  writeCell bd Y X c = Some bd' → length bd' = length bd.
Proof.
  unfold writeCell. destruct (bd !! Z.to_nat Y); [|done]. simpl.
  intros [= <-]. apply length_insert.
Qed.

Lemma paintRow_length c p0 y row :
  ∀ x0 bd M, paintRow c p0 y row x0 bd = Some M → length M = length bd.
Proof.
  induction row as [|v rest IH]; intros x0 bd M; simpl.
  { by intros [= <-]. }
  destruct (truthy v && (0 <=? py p0 + y)).
  - destruct (writeCell bd (py p0 + y) (px p0 + x0) c) as [bd'|] eqn:Hw; [|done].
    simpl. intros HM. rewrite (IH _ _ _ HM). by eapply writeCell_length.
  - simpl. apply IH.
Qed.

Lemma paintRow_None c p0 y row :
  ∀ x0 bd,
  paintRow c p0 y row x0 bd = None ↔
  (∃ (i : nat) v, row !! i = Some v ∧ truthy v = true) ∧
  0 ≤ py p0 + y ∧ Z.of_nat (length bd) ≤ py p0 + y.
Proof.
  induction row as [|v rest IH]; intros x0 bd; simpl.
  { split; [done|]. by intros [(i & v & Hi & _) _]. }
  destruct (truthy v && (0 <=? py p0 + y)) eqn:Hcond.
  - apply andb_true_iff in Hcond as [Hv Hy]. zb.
    destruct (writeCell bd (py p0 + y) (px p0 + x0) c) as [bd'|] eqn:Hw; simpl.
    + assert (Hlen : (Z.to_nat (py p0 + y) < length bd)%nat).
      { destruct (Nat.lt_ge_cases (Z.to_nat (py p0 + y)) (length bd)); [done|].
        apply (writeCell_None bd (py p0 + y) (px p0 + x0) c) in H. congruence. }
      rewrite IH, (writeCell_length _ _ _ _ _ Hw). split.
      * intros (_ & _ & ?). lia.
      * intros (_ & _ & ?). lia.
    + apply writeCell_None in Hw. split; [|done]. intros _.
      split; [by exists 0%nat, v|]. lia.
  - simpl. rewrite IH. split.
    + intros ((i & w & Hi & Hw) & Hy & Hlen).
      split; [by exists (S i), w|done].
    + intros ((i & w & Hi & Hw) & Hy & Hlen). split; [|done].
      destruct i as [|i]; [|by exists i, w].
      injection Hi as ->. rewrite Hw in Hcond. simpl in Hcond. zb. lia.
Qed.

Lemma paintRows_None c p0 rows :
  ∀ y0 bd,
  paintRows c p0 rows y0 bd = None ↔
  ∃ x y : nat, occupied rows x y ∧ 0 ≤ py p0 + y0 + Z.of_nat y ∧
               Z.of_nat (length bd) ≤ py p0 + y0 + Z.of_nat y.
Proof.
  induction rows as [|row rest IH]; intros y0 bd; simpl.
  { split; [done|]. by intros (x & y & (r & v & Hr & _) & _). }
  destruct (paintRow c p0 y0 row 0 bd) as [bd'|] eqn:Hrow; simpl.
  - rewrite IH, (paintRow_length _ _ _ _ _ _ _ Hrow). split.
    + intros (x & y & (r & v & Hr & Hv & Ht) & Hy & Hlen).
      exists x, (S y). split; [by exists r, v|]. lia.
    + intros (x & y & (r & v & Hr & Hv & Ht) & Hy & Hlen).
      destruct y as [|y].
      * exfalso. injection Hr as ->.
        assert (Hnone : paintRow c p0 y0 r 0 bd = None).
        { apply paintRow_None. split; [by exists x, v|]. lia. }
        congruence.
      * exists x, y. split; [by exists r, v|]. lia.
  - split; [|done]. intros _. apply paintRow_None in Hrow
      as ((i & v & Hi & Hv) & Hy & Hlen).
    exists i, 0%nat. split; [by exists row, v|]. lia.
Qed.

(** X22.  The copy loops of [renderBoard] (lines 189-195) and of
    [mergePieceToBoard] (lines 78-88) raise a [TypeError] exactly when an
    occupied cell of the active piece is in a row y >= 0 at or below the
    last row of the board, whatever its column; without an active piece,
    and with every occupied cell above the floor or above the board, they
    raise none. *)
Theorem paint_raises_below_the_board s :
  (renderBoard s = None ↔
     ∃ p (x y : nat), currentPiece s = Some p ∧ occupied (shape p) x y ∧
       0 ≤ py (position s) + Z.of_nat y ∧
       Z.of_nat (length (board s)) ≤ py (position s) + Z.of_nat y) ∧
  (mergePieceToBoard s = None ↔ renderBoard s = None).
Proof.
  assert (Hpaint : ∀ p, paint p (position s) (board s) = None ↔
            ∃ x y : nat, occupied (shape p) x y ∧
              0 ≤ py (position s) + Z.of_nat y ∧
              Z.of_nat (length (board s)) ≤ py (position s) + Z.of_nat y).
  { intros p. unfold paint. rewrite paintRows_None. split.
    - intros (x & y & Ho & Hy & Hlen). exists x, y. split; [done|]. lia.
    - intros (x & y & Ho & Hy & Hlen). exists x, y. split; [done|]. lia. }
  assert (Hrender : renderBoard s = None ↔
            ∃ p, currentPiece s = Some p ∧ paint p (position s) (board s) = None).
  { unfold renderBoard, displayBoard. destruct (currentPiece s) as [p|]; simpl.
    - destruct (paint p (position s) (board s)) eqn:E; simpl.
      + split; [done|]. intros (q & [= <-] & ?). congruence.
      + split; [|done]. intros _. by exists p.
    - split; [done|]. by intros (q & ? & _). }
  split.
  - rewrite Hrender. split.
    + intros (p & Hp & Hnone). apply Hpaint in Hnone as (x & y & Ho & Hy & Hlen).
      by exists p, x, y.
    + intros (p & x & y & Hp & Ho & Hy & Hlen). exists p. split; [done|].
      apply Hpaint. by exists x, y.
  - rewrite Hrender. unfold mergePieceToBoard.
    destruct (currentPiece s) as [p|]; simpl.
    + destruct (paint p (position s) (board s)) eqn:E; simpl.
      * split; [done|]. intros (q & [= <-] & ?). congruence.
      * split; [|done]. intros _. by exists p.
    + split; [done|]. by intros (q & ? & _).
Qed.
